(** * ConfigureEx: the augmentation resolver of [tools/scons/configureex.py]

    A shallow embedding of the classes [ConfExSpecification],
    [ConfExEnvironmentAugment], [ConfExEnvironment] and [ConfExCache], and
    the properties of the resolver that follow from the code.

    Conventions of the embedding.
    - Python objects that are compared by identity (check callables,
      specifications, augments) carry a natural number that stands for the
      identity of the object.
    - Augment objects are mutable and shared between lists, so they live in a
      heap ([list ConfExEnvironmentAugment], a reference is an index).
    - A Python exception is the [Exc] case of [Res]; a loop without a bound
      that is visible in the code takes fuel and yields [None] when the fuel
      runs out.
    - SCons itself (the environment's [Tool] primitive, the check functions,
      the discovery of a tool's components) is outside the repository and
      enters as section variables. *)

From stdpp Require Import gmap strings list fin_maps.
From Stdlib Require Import ZArith Lia.

Open Scope string_scope.
Open Scope list_scope.
Open Scope nat_scope.

(** ** Python values, exceptions, results *)

Inductive PyValue : Type :=
| PyNone
| PyBool (b : bool)
| PyInt (z : Z)
| PyStr (s : string)
| PyStrList (l : list string)
| PyObj (id : nat).

Inductive PyExc : Type :=
| ValueError
| KeyError
| IndexError
| TypeError
| CheckError (msg : string).

Inductive Res (A : Type) : Type :=
| Ok (a : A)
| Exc (e : PyExc).
Arguments Ok {A} a.
Arguments Exc {A} e.

#[global] Instance Res_bind : MBind Res := fun A B k r =>
  match r with
  | Ok a => k a
  | Exc e => Exc e
  end.
#[global] Instance Res_ret : MRet Res := fun A a => Ok a.

#[global] Instance PyValue_eq_dec : EqDecision PyValue.
Proof. solve_decision. Defined.
#[global] Instance PyExc_eq_dec : EqDecision PyExc.
Proof. solve_decision. Defined.

(** [result == False]: a [bool] is an [int] in Python, so [0] compares equal
    to [False]; [None], strings, lists and plain objects do not. *)
Definition py_eq_False (v : PyValue) : bool :=
  match v with
  | PyBool b => negb b
  | PyInt z => (z =? 0)%Z
  | _ => false
  end.

(** [(type(result) is str) and (result != "")] *)
Definition py_nonempty_str (v : PyValue) : bool :=
  match v with
  | PyStr s => negb (String.eqb s "")
  | _ => false
  end.

(** Truthiness of [None]-or-string and of [None]-or-sequence attributes. *)
Definition truthy_str (o : option string) : bool :=
  match o with
  | Some s => negb (String.eqb s "")
  | None => false
  end.

Definition truthy_seq {A : Type} (o : option (list A)) : bool :=
  match o with
  | Some (_ :: _) => true
  | _ => false
  end.

Definition seq_items {A : Type} (o : option (list A)) : list A :=
  match o with
  | Some l => l
  | None => []
  end.

(** [l.index(x)]: the first position of [x]; [None] stands for the
    [ValueError] of Python. *)
Fixpoint py_index {A : Type} `{EqDecision A} (x : A) (l : list A) : option nat :=
  match l with
  | [] => None
  | y :: l' => if decide (x = y) then Some 0 else S <$> py_index x l'
  end.

(** [x in l] *)
Definition py_in {A : Type} `{EqDecision A} (x : A) (l : list A) : bool :=
  bool_decide (x ∈ l).

(** ** The data model *)

(** A check is a zero-argument callable; [check in applied_checks] compares
    callables by identity. *)
Definition Check : Type := nat.

Inductive Outcome : Type :=
| Returned (v : PyValue)
| Raised (msg : string).

(** The SCons environment as the resolver sees it: a string-keyed mapping,
    one of whose keys, ["TOOLS"], holds the list of tool names. *)
Abbreviation Env := (gmap string PyValue).

Definition env_TOOLS (e : Env) : list string :=
  match e !! "TOOLS" with
  | Some (PyStrList l) => l
  | _ => []
  end.

(** [class ConfExSpecification]. [Dependencies] holds the identities of the
    specification objects, which is all that
    [augment.Specification in depends.Specification.Dependencies] looks at. *)
Record ConfExSpecification : Type := {
  spec_id : nat;
  Name : string;
  Components : option (list string);
  Checks : option (list Check);
  Dependencies : option (list nat)
}.

(** An argument of [ConfExSpecification.__init__] that may be absent, a
    single object, or a list of objects. *)
Inductive Arg (A : Type) : Type :=
| ArgNone
| ArgOne (a : A)
| ArgMany (l : list A).
Arguments ArgNone {A}.
Arguments ArgOne {A} a.
Arguments ArgMany {A} l.

(** [(x,)] for a single object, [tuple(x)] for a list, [None] when the
    argument is falsy; [one_truthy] tells whether a single object is truthy
    (a string is not when it is empty). *)
Definition arg_tuple {A : Type} (one_truthy : A -> bool) (x : Arg A) : option (list A) :=
  match x with
  | ArgNone => None
  | ArgOne a => if one_truthy a then Some [a] else None
  | ArgMany [] => None
  | ArgMany l => Some l
  end.

(** [ConfExSpecification.__init__(name, component, check, depends)]; [id]
    is the identity of the new object. *)
Definition ConfExSpecification_init (id : nat) (name : option string)
    (component : Arg string) (check : Arg Check) (depends : Arg ConfExSpecification)
    : ConfExSpecification :=
  let nonempty := fun s : string => negb (String.eqb s "") in
  let components := arg_tuple nonempty component in
  let checks := arg_tuple (fun _ => true) check in
  {| spec_id := id;
     Name :=
       if truthy_str name then default "" name
       else match components with
            | Some (first :: _) => first
            | _ => if truthy_seq checks then "[Check]" else "[Dependency]"
            end;
     Components := components;
     Checks := checks;
     Dependencies :=
       (fun l : list ConfExSpecification => spec_id <$> l)
         <$> arg_tuple (fun _ => true) depends |}.

(** [class ConfExEnvironmentAugment] *)
Record ConfExEnvironmentAugment : Type := {
  Specification : ConfExSpecification;
  Tool : option string;
  Component : option string;
  Valid : bool
}.

(** [ConfExEnvironmentAugment.__init__] *)
Definition new_augment (spec : ConfExSpecification) : ConfExEnvironmentAugment :=
  {| Specification := spec; Tool := None; Component := None; Valid := false |}.

#[global] Instance augment_inhabited : Inhabited ConfExEnvironmentAugment :=
  populate (new_augment {| spec_id := 0; Name := ""; Components := None;
                           Checks := None; Dependencies := None |}).

(** [class ConfExCache]: [Components] maps a tool to the components it
    provides, each with its list of flags ([["no_overlap"]] or [[]]). *)
Record ConfExCache : Type := {
  Tools : list string;
  Toolpath : list string;
  CacheComponents : gmap string (gmap string (list string));
  lookups : nat  (* ghost: the number of [GetTool] calls so far *)
}.

(** A reference to an augment object: its index in the heap. *)
Abbreviation ref := nat (only parsing).

(** [class ConfExEnvironment]. [exec_log] is ghost state: it records every
    call [check()] with its outcome, in order. *)
Record ConfExEnvironment : Type := {
  _base : Env;
  _current : Env;
  _augments : list ref;
  heap : list ConfExEnvironmentAugment;
  _cache : ConfExCache;
  applied_tools : list string;
  applied_checks : list Check;
  pre_applied : bool;
  exec_log : list (Check * Outcome)
}.

Definition set_env (s : ConfExEnvironment) (cur : Env) (at_ : list string)
    (ac : list Check) (pa : bool) (lg : list (Check * Outcome)) : ConfExEnvironment :=
  {| _base := _base s; _current := cur; _augments := _augments s; heap := heap s;
     _cache := _cache s; applied_tools := at_; applied_checks := ac;
     pre_applied := pa; exec_log := lg |}.

Definition set_heap (s : ConfExEnvironment) (h : list ConfExEnvironmentAugment) : ConfExEnvironment :=
  {| _base := _base s; _current := _current s; _augments := _augments s; heap := h;
     _cache := _cache s; applied_tools := applied_tools s;
     applied_checks := applied_checks s; pre_applied := pre_applied s;
     exec_log := exec_log s |}.

Definition set_cache (s : ConfExEnvironment) (c : ConfExCache) : ConfExEnvironment :=
  {| _base := _base s; _current := _current s; _augments := _augments s; heap := heap s;
     _cache := c; applied_tools := applied_tools s;
     applied_checks := applied_checks s; pre_applied := pre_applied s;
     exec_log := exec_log s |}.

Definition set_augments (s : ConfExEnvironment) (l : list ref) : ConfExEnvironment :=
  {| _base := _base s; _current := _current s; _augments := l; heap := heap s;
     _cache := _cache s; applied_tools := applied_tools s;
     applied_checks := applied_checks s; pre_applied := pre_applied s;
     exec_log := exec_log s |}.

(** [for key in d: env[key] = d[key]] for [ConfExBase._ENVPre] and
    [ConfExBase._ENVPost] ([None] or a dict, here in iteration order). *)
Definition write_vars (d : option (list (string * PyValue))) (e : Env) : Env :=
  foldl (fun acc kv => <[kv.1 := kv.2]> acc) e (seq_items d).

(** ** The check [CheckLink] and the file it inspects *)

From Stdlib.Strings Require Byte.

#[global] Instance byte_eq_decision : EqDecision Byte.byte := Byte.byte_eq_dec.

(** Truthiness of a Python value. *)
Definition py_truthy (v : PyValue) : bool :=
  match v with
  | PyNone => false
  | PyBool b => b
  | PyInt z => negb (z =? 0)%Z
  | PyStr s => negb (String.eqb s "")
  | PyStrList l => match l with [] => false | _ => true end
  | PyObj _ => true
  end.

(** [f.seek(pos); f.read(n)]: at most [n] bytes, fewer at the end of the
    file. *)
Definition read_at (file : list Byte.byte) (pos n : nat) : list Byte.byte :=
  take n (drop pos file).

(** The number that the bytes spell, least significant byte first. *)
Fixpoint le_number (bs : list Byte.byte) : N :=
  match bs with
  | [] => 0%N
  | b :: bs' => (Byte.to_N b + 256 * le_number bs')%N
  end.

(** [struct.unpack] of one unsigned integer of [size] bytes, little-endian
    (["<"]) or big-endian ([">"]); [None] stands for [struct.error], raised
    when the buffer has another size. *)
Definition unpack (little : bool) (size : nat) (bs : list Byte.byte) : option N :=
  if length bs =? size
  then Some (le_number (if little then bs else reverse bs))
  else None.

(** The tables [elf_isa] and [pe_isa] of [CheckLink]. *)
Definition elf_isa (isa : N) : option string :=
  match isa with
  | 0%N => Some "None"
  | 3%N => Some "x86"
  | 62%N => Some "x86_64"
  | 83%N => Some "AVR"
  | _ => None
  end.

Definition pe_isa (isa : N) : option string :=
  match isa with
  | 0%N => Some "None"
  | 332%N => Some "x86"
  | 34404%N => Some "x86_64"
  | _ => None
  end.

(** [(isa not in table) or (table[isa] != output_isa)], negated. *)
Definition isa_matches (table : N -> option string) (isa : N) (output_isa : string)
    : bool :=
  match table isa with
  | Some name => String.eqb name output_isa
  | None => false
  end.

(** Lines 117-140: the block for a file that starts with the ELF magic. *)
Definition check_elf (file : list Byte.byte) (output_format output_isa : string) : bool :=
  if negb (String.eqb output_format "") && negb (String.eqb output_format "ELF")
  then false
  else if String.eqb output_isa "" then true
  else
    match unpack false 1 (read_at file 5 1) with
    | None => false
    | Some endian =>
      if negb (endian =? 1)%N && negb (endian =? 2)%N then false
      else
        let little := (endian =? 1)%N in
        match unpack little 4 (read_at file 20 4) with
        | None => false
        | Some version =>
          if negb (version =? 1)%N then false
          else
            match unpack little 2 (read_at file 18 2) with
            | None => false
            | Some isa => isa_matches elf_isa isa output_isa
            end
        end
    end.

(** Lines 143-160: the block for a file that starts with [MZ]. *)
Definition check_pe (file : list Byte.byte) (output_format output_isa : string) : bool :=
  match unpack true 4 (read_at file 60 4) with
  | None => false
  | Some pe_offset =>
    let pos := N.to_nat pe_offset in
    if negb (bool_decide (read_at file pos 4 = [Byte.x50; Byte.x45; Byte.x00; Byte.x00]))
       || (negb (String.eqb output_format "") && negb (String.eqb output_format "PE"))
    then false
    else if String.eqb output_isa "" then true
    else
      match unpack true 2 (read_at file (pos + 4) 2) with
      | None => false
      | Some isa => isa_matches pe_isa isa output_isa
      end
  end.

(** Lines 108-160, inside [try]: [linked] is what [TryLink] or [TryBuild]
    returned, [link_file] the bytes of [context.lastTarget] ([None] when
    the file cannot be opened). Every exception in there is swallowed by
    [except: pass], which leaves [check_passed] false. *)
Definition link_output_ok (linked : bool) (link_file : option (list Byte.byte))
    (output_format output_isa : string) : bool :=
  if linked
  then
    if String.eqb output_format "" && String.eqb output_isa "" then true
    else
      match link_file with
      | None => false
      | Some file =>
        let magic_header := read_at file 0 4 in
        if bool_decide (magic_header = [Byte.x7f; Byte.x45; Byte.x4c; Byte.x46])
        then check_elf file output_format output_isa
        else if bool_decide (take 2 magic_header = [Byte.x4d; Byte.x5a])
        then check_pe file output_format output_isa
        else false
      end
  else false.

(** Lines 58-67: an argument ["<target>"] is looked up in the environment. *)
Definition resolve_target (env : Env) (key : string) (arg : PyValue) : Res PyValue :=
  if bool_decide (arg = PyStr "<target>")
  then match env !! key with
       | Some v => Ok v
       | None => Exc ValueError
       end
  else Ok arg.

(** Lines 73-78: a truthy argument must be one of the known names; a falsy
    one stands for "do not check", like the empty string. *)
Definition known_name (names : list string) (arg : PyValue) : Res string :=
  if py_truthy arg
  then match arg with
       | PyStr s => if py_in s names then Ok s else Exc ValueError
       | _ => Exc ValueError
       end
  else Ok "".

(** The argument [src_build]: a name or a callable. *)
Inductive SrcBuild : Type :=
| SrcName (name : PyValue)
| SrcCallable.

(** Lines 70-72: a [src_build] that is not callable must be a key of
    [src_ext]; the membership test hashes it, which a list does not allow. *)
Definition check_src_build (src_build : SrcBuild) : Res unit :=
  match src_build with
  | SrcCallable => Ok ()
  | SrcName (PyStrList _) => Exc TypeError
  | SrcName name => if bool_decide (name = PyStr "C") then Ok () else Exc ValueError
  end.

(** Lines 80-85: with a requested format, the text of the message looks
    [output_isa] up in the dictionary [isa_suffix], which hashes it; the
    text itself is only printed. *)
Definition message_text (output_format : string) (output_isa : PyValue) : Res unit :=
  match output_isa with
  | PyStrList _ => if String.eqb output_format "" then Ok () else Exc TypeError
  | _ => Ok ()
  end.

(** [CheckLink(context, output_format, output_isa, src_build)]; the result
    is [int(check_passed)]. [linked] is the result of the link attempt
    (false also when the attempt raised, which [except: pass] swallows). *)
Definition CheckLink (env : Env) (output_format output_isa : PyValue)
    (src_build : SrcBuild) (linked : bool) (link_file : option (list Byte.byte))
    : Res Z :=
  output_format ← resolve_target env "TARGET_OBJFMT" output_format;
  output_isa ← resolve_target env "TARGET_ARCH_TYPE" output_isa;
  _ ← check_src_build src_build;
  output_format ← known_name ["PE"; "ELF"] output_format;
  isa ← known_name ["x86"; "x86_64"; "AVR"] output_isa;
  _ ← message_text output_format output_isa;
  Ok (if link_output_ok linked link_file output_format isa then 1%Z else 0%Z).

(** ** The check [CheckDirContains] *)

(** [for d in dirs]: the strings that iterating over a value yields, a
    string giving its characters; [None] when the value cannot be iterated
    ([TypeError]). An object of the model stands for one that is not
    iterable. *)
Definition iter_strings (v : PyValue) : option (list string) :=
  match v with
  | PyStrList l => Some l
  | PyStr s => Some ((fun a => String a EmptyString) <$> String.list_ascii_of_string s)
  | _ => None
  end.

(** [f.find(value) != -1] *)
Definition py_contains (value f : string) : bool :=
  match String.index 0 value f with
  | Some _ => true
  | None => false
  end.

(** Lines 188-193, the loop [for d in dirs] with the flag [check_passed];
    [walk d] is [next(os.walk(d))[2]], the files of the directory [d], or
    [None] when that raises (a directory that cannot be listed yields
    nothing). An exception ends the loop and leaves the flag as it is. *)
Fixpoint scan_dirs (walk : string -> option (list string)) (value : string)
    (dirs : list string) (check_passed : bool) : bool :=
  match dirs with
  | [] => check_passed
  | d :: dirs' =>
    match walk d with
    | None => check_passed
    | Some files =>
      scan_dirs walk value dirs'
        (if existsb (py_contains value) files then true else check_passed)
    end
  end.

(** [CheckDirContains(context, key, value)]; the result is
    [int(check_passed)]. *)
Definition CheckDirContains (env : Env) (walk : string -> option (list string))
    (key value : string) : Z :=
  let check_passed :=
    match env !! key with
    | None => false
    | Some v =>
      match iter_strings v with
      | None => false
      | Some dirs => scan_dirs walk value dirs false
      end
    end in
  if check_passed then 1%Z else 0%Z.

(** The first 24 bytes of a little-endian ELF executable for x86_64
    (machine 62, version 1), and the headers of a PE executable for x86
    (machine 332) whose PE header starts at offset 64. *)
Module LinkSamples.

Definition elf_x86_64 : list Byte.byte :=
  [Byte.x7f; Byte.x45; Byte.x4c; Byte.x46; Byte.x02; Byte.x01; Byte.x01; Byte.x00]
  ++ replicate 8 Byte.x00
  ++ [Byte.x02; Byte.x00; Byte.x3e; Byte.x00; Byte.x01; Byte.x00; Byte.x00; Byte.x00].

Definition pe_x86 : list Byte.byte :=
  [Byte.x4d; Byte.x5a] ++ replicate 58 Byte.x00
  ++ [Byte.x40; Byte.x00; Byte.x00; Byte.x00]
  ++ [Byte.x50; Byte.x45; Byte.x00; Byte.x00; Byte.x4c; Byte.x01].

End LinkSamples.

(** ** A concrete world for the examples

    Two linkers that both provide [LD], a compiler suite that provides [CC]
    and [CXX], a base environment with an [INCLUDE] key, and a handful of
    checks. *)
Module Scenario.

Definition tool (name : string) (e : Env) : Env :=
  <["TOOLS" := PyStrList (env_TOOLS e ++ [name])]> (<["LAST" := PyStr name]> e).

Definition check (c : Check) (e : Env) : Env * Outcome :=
  match c with
  | 0 => (e, Returned (PyBool true))
  | 1 => (e, Returned (PyBool false))
  | 2 => (e, Returned PyNone)
  | 3 => (e, Raised "boom")
  | 4 => (e, Returned (PyInt 0))
  | 5 => (e, Returned (PyStr "no such file"))
  | _ => (e, Returned (PyBool (bool_decide (e !! "LAST" = Some (PyStr "llvm-ld")))))
  end.

Definition detect (name : string) : list string * gmap string (list string) :=
  if String.eqb name "gnu-ld" then (["gnu-ld"], {[ "LD" := ["no_overlap"] ]})
  else if String.eqb name "llvm-ld" then (["llvm-ld"], {[ "LD" := ["no_overlap"] ]})
  else if String.eqb name "gcc"
       then (["gcc"], {[ "CC" := ["no_overlap"]; "CXX" := ["no_overlap"] ]})
  else ([name], ∅).

Definition base : Env :=
  {[ "TOOLS" := PyStrList ["default"]; "INCLUDE" := PyStr "/usr/include" ]}.

Definition cache : ConfExCache :=
  {| Tools := ["gnu-ld"; "llvm-ld"; "gcc"]; Toolpath := [];
     CacheComponents := ∅; lookups := 0 |}.

(** A session as [ConfExEnvironment.__init__] leaves it, with the given
    heap and bookkeeping. *)
Definition session_with (h : list ConfExEnvironmentAugment) (augments : list ref)
    (tools : list string) (checks : list Check) : ConfExEnvironment :=
  {| _base := base; _current := base; _augments := augments; heap := h;
     _cache := cache; applied_tools := tools; applied_checks := checks;
     pre_applied := false; exec_log := [] |}.

Definition session : ConfExEnvironment := session_with [] [] [] [].

Definition spec_LD : ConfExSpecification :=
  ConfExSpecification_init 1 None (ArgOne "LD") (ArgOne 10) ArgNone.
Definition spec_CC : ConfExSpecification :=
  ConfExSpecification_init 2 None (ArgOne "CC") ArgNone ArgNone.
Definition spec_CXX : ConfExSpecification :=
  ConfExSpecification_init 3 None (ArgOne "CXX") ArgNone ArgNone.
Definition spec_INCLUDE : ConfExSpecification :=
  ConfExSpecification_init 4 None (ArgMany ["CPATH"; "INCLUDE"]) ArgNone ArgNone.
Definition spec_missing : ConfExSpecification :=
  ConfExSpecification_init 5 None (ArgMany ["FC"; "F77"]) ArgNone ArgNone.
Definition spec_passes : ConfExSpecification :=
  ConfExSpecification_init 6 (Some "passes") ArgNone (ArgOne 0) ArgNone.
Definition spec_passes_too : ConfExSpecification :=
  ConfExSpecification_init 7 (Some "passes too") ArgNone (ArgOne 0) ArgNone.
Definition spec_fails : ConfExSpecification :=
  ConfExSpecification_init 8 (Some "B") ArgNone (ArgOne 1) ArgNone.
Definition spec_depends : ConfExSpecification :=
  ConfExSpecification_init 9 (Some "A") ArgNone (ArgOne 0) (ArgOne spec_fails).
Definition spec_bad_linker : ConfExSpecification :=
  ConfExSpecification_init 11 (Some "broken linker") (ArgOne "LD") (ArgOne 1) ArgNone.

(** B (whose check fails) and A (which depends on B), both to be
    validated. *)
Definition session_dependency : ConfExEnvironment :=
  session_with [new_augment spec_fails; new_augment spec_depends] [] [] [].

(** The cache once every tool has been examined. *)
Definition cache_known : ConfExCache :=
  {| Tools := ["gnu-ld"; "llvm-ld"; "gcc"]; Toolpath := [];
     CacheComponents :=
       {[ "gnu-ld" := (detect "gnu-ld").2; "llvm-ld" := (detect "llvm-ld").2;
          "gcc" := (detect "gcc").2 ]};
     lookups := 0 |}.

(** An augment committed with the second linker, after the first had been
    tried. *)
Definition session_linker : ConfExEnvironment :=
  {| _base := base; _current := tool "llvm-ld" (tool "gnu-ld" base);
     _augments := [0];
     heap := [{| Specification := spec_LD; Tool := Some "llvm-ld";
                 Component := Some "LD"; Valid := true |}];
     _cache := cache_known; applied_tools := ["gnu-ld"; "llvm-ld"];
     applied_checks := [10]; pre_applied := false; exec_log := [] |}.

(** The linker and the C compiler are committed. *)
Definition session_two : ConfExEnvironment :=
  {| _base := base; _current := tool "gcc" (tool "llvm-ld" base);
     _augments := [0; 1];
     heap := [{| Specification := spec_LD; Tool := Some "llvm-ld";
                 Component := Some "LD"; Valid := true |};
              {| Specification := spec_CC; Tool := Some "gcc";
                 Component := Some "CC"; Valid := true |}];
     _cache := cache_known; applied_tools := ["llvm-ld"; "gcc"];
     applied_checks := [10]; pre_applied := false; exec_log := [] |}.

(** A cache that lists one toolchain, not examined so far: detecting
    ["suite"] yields three tools. *)
Definition detect_suite (name : string) : list string * gmap string (list string) :=
  if String.eqb name "suite" then (["a"; "b"; "c"], {[ "CC" := ["no_overlap"] ]})
  else ([name], ∅).

Definition session_suite : ConfExEnvironment :=
  {| _base := base; _current := base; _augments := []; heap := [];
     _cache := {| Tools := ["suite"]; Toolpath := []; CacheComponents := ∅;
                  lookups := 0 |};
     applied_tools := []; applied_checks := []; pre_applied := false;
     exec_log := [] |}.

End Scenario.

Section Resolver.

(** [env.Tool(tool, toolpath)]: SCons applies the tool to the environment. *)
Variable SConsTool : string -> Env -> Env.

(** [check()]: the check runs against the environment under configuration,
    may change it, and returns a value or raises. *)
Variable call_check : Check -> Env -> Env * Outcome.

(** [ConfExBase._ENVPre] and [ConfExBase._ENVPost]. *)
Variable ENVPre ENVPost : option (list (string * PyValue)).

(** ** [_apply_env] *)

(** [__reset_environment] *)
Definition reset_environment (s : ConfExEnvironment) : ConfExEnvironment :=
  set_env s (write_vars ENVPre (_base s)) [] [] true (exec_log s).

(** Lines 806-810: an exact application may keep no tool that is not
    asked for. *)
Definition exact_reset (exact : bool) (applied tools : list string) : bool :=
  exact && negb (forallb (fun tool => py_in tool tools) applied).

(** Lines 815-841, the loop [for i in range(len(tools))] from index [i] on,
    [rest] being [tools[i:]]; yields [(reset, append)]. *)
Fixpoint scan_tools (applied : list string) (ntools : nat) (i : nat)
    (rest : list string) (expected : Z) (append : nat) : bool * nat :=
  match rest with
  | [] => (false, append)
  | tool :: rest' =>
    match py_index tool applied with
    | Some actual =>
      let expected :=
        if (i =? 0) && ((1 <? ntools) || (actual =? length applied - 1))
        then Z.of_nat actual else expected in
      if (Z.of_nat actual =? expected)%Z
      then scan_tools applied ntools (S i) rest' (expected + 1)%Z append
      else (true, append)
    | None =>
      if (expected =? -1)%Z
      then scan_tools applied ntools (S i) rest' expected 0
      else if (expected =? Z.of_nat (length applied))%Z
      then scan_tools applied ntools (S i) rest' expected
             (if append =? ntools then i else append)
      else (true, append)
    end
  end.

(** Lines 791-847: whether to reset, and the index to start applying
    from. *)
Definition find_start (exact : bool) (applied tools : list string) : bool * nat :=
  if exact_reset exact applied tools then (true, 0)
  else
    let '(reset, append) := scan_tools applied (length tools) 0 tools (-1)%Z (length tools) in
    if reset then (true, 0) else (false, append).

(** Lines 850-861: apply [todo] one by one, trimming the names of the
    tools that a tool pulled in on its own. *)
Fixpoint apply_tool_loop (todo : list string) (cur : Env) (applied : list string)
    (expected_len : nat) : Env * list string :=
  match todo with
  | [] => (cur, applied)
  | tool :: todo' =>
    let applied := applied ++ [tool] in
    let cur := SConsTool tool cur in
    let cur :=
      if length (env_TOOLS cur) =? expected_len then cur
      else <["TOOLS" := PyStrList (take expected_len (env_TOOLS cur))]> cur in
    apply_tool_loop todo' cur applied (S expected_len)
  end.

Definition apply_tool_list (s : ConfExEnvironment) (todo : list string) : ConfExEnvironment :=
  let '(cur, applied) :=
    apply_tool_loop todo (_current s) (applied_tools s)
      (length (env_TOOLS (_current s)) + 1) in
  set_env s cur applied (applied_checks s) (pre_applied s) (exec_log s).

(** Lines 791-861: the first half of [_apply_env]. *)
Definition prepare_tools (s : ConfExEnvironment) (tools : list string) (exact : bool)
    : ConfExEnvironment :=
  let '(reset, start) := find_start exact (applied_tools s) tools in
  let s := if reset then reset_environment s else s in
  apply_tool_list s (drop start tools).

(** Lines 890-892 *)
Definition check_failed (result : PyValue) : bool :=
  py_eq_False result || py_nonempty_str result.

(** Lines 882-893: [for check in checks], over state
    [(current, applied_checks, failed_checks, exec_log)]. *)
Fixpoint run_checks (required : bool) (checks : list Check)
    (cur : Env) (applied : list Check) (failed : list Check)
    (log : list (Check * Outcome))
    : Res (Env * list Check * list Check * list (Check * Outcome)) :=
  match checks with
  | [] => Ok (cur, applied, failed, log)
  | check :: checks' =>
    let known := py_in check applied in
    let applied := if known then applied else applied ++ [check] in
    if known && negb required
    then run_checks required checks' cur applied failed log
    else
      let '(cur, out) := call_check check cur in
      let log := log ++ [(check, out)] in
      match out with
      | Raised msg => Exc (CheckError msg)
      | Returned result =>
        let failed := if check_failed result then failed ++ [check] else failed in
        run_checks required checks' cur applied failed log
      end
  end.

(** Lines 877-893: the required checks, then the optional ones; [if checks:]
    skips [None] and the empty sequence. *)
Definition run_all_checks (s : ConfExEnvironment)
    (req_checks opt_checks : option (list Check))
    : Res (ConfExEnvironment * list Check) :=
  '(cur, applied, failed, log) ←
     run_checks true (if truthy_seq req_checks then seq_items req_checks else [])
       (_current s) (applied_checks s) [] (exec_log s);
  '(cur, applied, failed, log) ←
     run_checks false (if truthy_seq opt_checks then seq_items opt_checks else [])
       cur applied failed log;
  Ok (set_env s cur (applied_tools s) applied (pre_applied s) log, failed).

(** [_apply_env(tools, exact, req_checks, opt_checks)]; the result is
    [failed_checks]. *)
Definition _apply_env (s : ConfExEnvironment) (tools : list string) (exact : bool)
    (req_checks opt_checks : option (list Check))
    : Res (ConfExEnvironment * list Check) :=
  run_all_checks (prepare_tools s tools exact) req_checks opt_checks.


(** ** [_validate_augments] and [Finalize] *)

(** [augment.Specification in depends.Specification.Dependencies], for some
    [depends] of the list that is not valid (lines 754-759). *)
Definition is_dependency (h : list ConfExEnvironmentAugment) (augments : list ref)
    (augment : ConfExEnvironmentAugment) : bool :=
  existsb (fun d : ref =>
             let depends := h !!! d in
             negb (Valid depends)
             && truthy_seq (Dependencies (Specification depends))
             && py_in (spec_id (Specification augment))
                      (seq_items (Dependencies (Specification depends))))
          augments.

(** Lines 751-769: the tools and the checks of the augments that are not
    valid, and of the valid ones that a non-valid one depends on; yields
    [(tools, checks, depends_checks)]. *)
Fixpoint collect_invalid (h : list ConfExEnvironmentAugment) (augments : list ref)
    (todo : list ref) (tools : list string) (checks depends_checks : list Check)
    : list string * list Check * list Check :=
  match todo with
  | [] => (tools, checks, depends_checks)
  | r :: todo' =>
    let augment := h !!! r in
    let dependency_augment := Valid augment && is_dependency h augments augment in
    if Valid augment && negb dependency_augment
    then collect_invalid h augments todo' tools checks depends_checks
    else
      let tools :=
        if truthy_str (Tool augment) then tools ++ [default "" (Tool augment)] else tools in
      let cs := Checks (Specification augment) in
      if truthy_seq cs
      then if dependency_augment
           then collect_invalid h augments todo' tools checks (depends_checks ++ seq_items cs)
           else collect_invalid h augments todo' tools (checks ++ seq_items cs) depends_checks
      else collect_invalid h augments todo' tools checks depends_checks
  end.

Definition set_Valid (a : ConfExEnvironmentAugment) (v : bool) : ConfExEnvironmentAugment :=
  {| Specification := Specification a; Tool := Tool a; Component := Component a;
     Valid := v |}.

(** Lines 775-780: the flag an augment gets from the failed checks. *)
Definition valid_after (failed_checks : list Check) (a : ConfExEnvironmentAugment) : bool :=
  negb (negb (bool_decide (failed_checks = []))
        && truthy_seq (Checks (Specification a))
        && existsb (fun check => py_in check (seq_items (Checks (Specification a))))
                   failed_checks).

(** Lines 774-783 *)
Fixpoint mark_augments (failed_checks : list Check) (todo : list ref)
    (h : list ConfExEnvironmentAugment) (invalid_augments : list ref)
    : list ConfExEnvironmentAugment * list ref :=
  match todo with
  | [] => (h, invalid_augments)
  | r :: todo' =>
    let v := valid_after failed_checks (h !!! r) in
    let h := <[r := set_Valid (h !!! r) v]> h in
    mark_augments failed_checks todo' h
      (if v then invalid_augments else invalid_augments ++ [r])
  end.

(** [_validate_augments(augments)]; the result is [invalid_augments]. *)
Definition _validate_augments (s : ConfExEnvironment) (augments : list ref)
    : Res (ConfExEnvironment * list ref) :=
  let '(tools, checks, depends_checks) :=
    collect_invalid (heap s) augments augments [] [] [] in
  '(s, failed_checks) ← _apply_env s tools false (Some checks) (Some depends_checks);
  let '(h, invalid_augments) := mark_augments failed_checks augments (heap s) [] in
  Ok (set_heap s h, invalid_augments).

(** Lines 600-604 of [Finalize]: the tools and checks of all augments. *)
Fixpoint collect_all (h : list ConfExEnvironmentAugment) (todo : list ref)
    (tools : list string) (checks : list Check) : list string * list Check :=
  match todo with
  | [] => (tools, checks)
  | r :: todo' =>
    let augment := h !!! r in
    let tools :=
      if truthy_str (Tool augment) then tools ++ [default "" (Tool augment)] else tools in
    let cs := Checks (Specification augment) in
    collect_all h todo' tools (if truthy_seq cs then checks ++ seq_items cs else checks)
  end.

(** [Finalize()]; the result is the configured environment. *)
Definition Finalize (s : ConfExEnvironment) : Res (ConfExEnvironment * Env) :=
  let '(tools, checks) := collect_all (heap s) (_augments s) [] [] in
  '(s, _) ← _apply_env s tools true None (Some checks);
  let cur := write_vars ENVPost (_current s) in
  let s := set_env s cur (applied_tools s) (applied_checks s) (pre_applied s) (exec_log s) in
  Ok (s, cur).

(** ** [ConfExCache]: [AddTool] and [GetTool] *)

(** [self._env.Detect(tool)]: the tools and the flagged components that
    SCons adds to a clone of the base environment when it applies [tool]. *)
Variable Detect : string -> list string * gmap string (list string).

(** [l.insert(i, x)] for a Python integer [i]. *)
Definition py_insert {A : Type} (i : Z) (x : A) (l : list A) : list A :=
  let n := Z.of_nat (length l) in
  let k := Z.to_nat (if (i <? 0)%Z then Z.max 0 (i + n) else Z.min i n) in
  take k l ++ x :: drop k l.

Definition set_Tools (c : ConfExCache) (ts : list string) : ConfExCache :=
  {| Tools := ts; Toolpath := Toolpath c; CacheComponents := CacheComponents c;
     lookups := lookups c |}.

Definition set_Components (c : ConfExCache) (tool : string)
    (components : gmap string (list string)) : ConfExCache :=
  {| Tools := Tools c; Toolpath := Toolpath c;
     CacheComponents := <[tool := components]> (CacheComponents c);
     lookups := lookups c |}.

Definition count_lookup (c : ConfExCache) : ConfExCache :=
  {| Tools := Tools c; Toolpath := Toolpath c; CacheComponents := CacheComponents c;
     lookups := S (lookups c) |}.

(** Lines 1004-1012: move or insert [tool] at [tool_idx]. *)
Definition place_tool (tool : string) (tool_idx : Z) (ts : list string) : list string :=
  match py_index tool ts with
  | Some orig_idx =>
    if (tool_idx <? Z.of_nat orig_idx)%Z
    then py_insert tool_idx tool (delete orig_idx ts)
    else ts
  | None => py_insert tool_idx tool ts
  end.

(** Lines 1001-1025, the loop [while len(tools)]; yields
    [(tools_stack, offset, cache)]. *)
Fixpoint AddTool_inner (fuel : nat) (tools : list string) (tools_stack : list (list string))
    (tool_idx offset : Z) (c : ConfExCache)
    : option (list (list string) * Z * ConfExCache) :=
  match fuel with
  | 0 => None
  | S fuel =>
    match tools with
    | [] => Some (tools_stack, offset, c)
    | tool :: tools =>
      let c := set_Tools c (place_tool tool tool_idx (Tools c)) in
      match CacheComponents c !! tool with
      | Some _ => AddTool_inner fuel tools tools_stack tool_idx offset c
      | None =>
        let '(toolchain, components) := Detect tool in
        let c := set_Components c tool components in
        if 1 <? length toolchain
        then AddTool_inner fuel toolchain (tools :: tools_stack) tool_idx
               (Z.of_nat (length toolchain)) c
        else AddTool_inner fuel tools tools_stack tool_idx offset c
      end
    end
  end.

(** Lines 997-1025, the loop [while len(tools_stack)]. *)
Fixpoint AddTool_outer (fuel : nat) (tools_stack : list (list string))
    (tool_idx offset : Z) (c : ConfExCache) : option ConfExCache :=
  match fuel with
  | 0 => None
  | S fuel =>
    match tools_stack with
    | [] => Some c
    | tools :: tools_stack =>
      let tool_idx := (tool_idx - offset)%Z in
      match AddTool_inner fuel tools tools_stack tool_idx offset c with
      | None => None
      | Some (tools_stack, offset, c) => AddTool_outer fuel tools_stack tool_idx offset c
      end
    end
  end.

(** [AddTool(tool)]; [self.Tools.index(tool)] finds the tool, which is in
    the list by then. *)
Definition AddTool (fuel : nat) (c : ConfExCache) (tool : string) : option ConfExCache :=
  let c := if py_in tool (Tools c) then c else set_Tools c (Tools c ++ [tool]) in
  let tool_idx := default 0 (py_index tool (Tools c)) in
  AddTool_outer fuel [[tool]] (Z.of_nat tool_idx) 0%Z c.

(** The loops "cycle through components" of [GetTool] and of
    [__set_component_local]: [visit] lists the components from
    [component_idx] on in the direction of travel; a component that is
    [present] consumes one unit of [offset], or is the result when [offset]
    is [0]. *)
Fixpoint scan_matches (present : string -> bool) (visit : list string) (offset : Z)
    : option string * Z :=
  match visit with
  | [] => (None, offset)
  | component :: visit' =>
    if present component
    then if (offset <? 0)%Z then scan_matches present visit' (offset + 1)%Z
         else if (0 <? offset)%Z then scan_matches present visit' (offset - 1)%Z
         else (Some component, offset)
    else scan_matches present visit' offset
  end.

(** The components from index [component_idx] on, forwards or backwards. *)
Definition visit_from (forward : bool) (components : list string) (component_idx : nat)
    : list string :=
  if forward then drop component_idx components
  else reverse (take (S component_idx) components).

(** [components.index(ref_component) if ref_component else 0] *)
Definition start_index (components : list string) (ref_component : option string)
    : Res nat :=
  if truthy_str ref_component
  then match py_index (default "" ref_component) components with
       | Some i => Ok i
       | None => Exc ValueError
       end
  else Ok 0.

(** Lines 1043-1078, the loop [while not tool_set]; [visit] is what is left
    to visit of [components] for the tool at [tool_idx]. *)
Fixpoint GetTool_loop (fuel : nat) (forward : bool) (components : list string)
    (c : ConfExCache) (tool_idx : Z) (visit : list string) (offset : Z)
    : option (option (string * string) * Z * ConfExCache) :=
  match fuel with
  | 0 => None
  | S fuel =>
    if ((tool_idx <? 0)%Z || (Z.of_nat (length (Tools c)) <=? tool_idx)%Z)%bool
    then Some (None, offset, c)
    else
      let tool := default "" (Tools c !! Z.to_nat tool_idx) in
      match CacheComponents c !! tool with
      | None =>
        match AddTool fuel c tool with
        | None => None
        | Some c => GetTool_loop fuel forward components c tool_idx visit offset
        end
      | Some provided =>
        match scan_matches (fun component => bool_decide (is_Some (provided !! component)))
                visit offset with
        | (Some component, offset) => Some (Some (component, tool), offset, c)
        | (None, offset) =>
          if forward
          then GetTool_loop fuel forward components c (tool_idx + 1)%Z components offset
          else GetTool_loop fuel forward components c (tool_idx - 1)%Z
                 (reverse components) offset
        end
      end
  end.

(** [GetTool(components, ref_component, ref_tool, offset)]; the result is
    [tool_set] together with what is left of [offset[0]]. *)
Definition GetTool (fuel : nat) (c : ConfExCache) (components : list string)
    (ref_component ref_tool : option string) (offset : Z)
    : option (Res (option (string * string) * Z * ConfExCache)) :=
  let c := count_lookup c in
  let forward := (0 <=? offset)%Z in
  match Tools c with
  | [] => Some (Ok (None, offset, c))
  | _ :: _ =>
    match start_index components ref_component with
    | Exc e => Some (Exc e)
    | Ok component_idx =>
      match start_index (Tools c) ref_tool with
      | Exc e => Some (Exc e)
      | Ok tool_idx =>
        Ok <$> GetTool_loop fuel forward components c (Z.of_nat tool_idx)
                 (visit_from forward components component_idx) offset
      end
    end
  end.

(** ** [_set_component] *)

(** [__set_component_local(components, ref_component, offset)]; the result
    is [component] together with what is left of [offset[0]]. *)
Definition set_component_local (base : Env) (components : list string)
    (ref_component : option string) (offset : Z) : Res (option string * Z) :=
  let forward := (0 <=? offset)%Z in
  component_idx ← start_index components ref_component;
  Ok (scan_matches (fun component => bool_decide (is_Some (base !! component)))
        (visit_from forward components component_idx) offset).

Inductive Source : Type := LOCAL | TOOL.

(** [components[i]] *)
Definition py_item (components : list string) (i : nat) : Res string :=
  match components !! i with
  | Some component => Ok component
  | None => Exc IndexError
  end.

(** Lines 646-670, the loop [for src in sources[src_start:]]; yields what was
    found as [(component, tool)]. *)
Fixpoint try_sources (fuel : nat) (base : Env) (components : list string)
    (ref_tool : option string) (sources : list Source)
    (ref_component : option string) (offset : Z) (c : ConfExCache)
    : option (Res (option (string * option string) * ConfExCache)) :=
  match sources with
  | [] => Some (Ok (None, c))
  | LOCAL :: sources' =>
    match set_component_local base components ref_component offset with
    | Exc e => Some (Exc e)
    | Ok (component, offset) =>
      if truthy_str component
      then Some (Ok (Some (default "" component, None), c))
      else match py_item components 0 with
           | Exc e => Some (Exc e)
           | Ok first =>
             try_sources fuel base components ref_tool sources' (Some first) offset c
           end
    end
  | TOOL :: sources' =>
    match GetTool fuel c components ref_component ref_tool offset with
    | None => None
    | Some (Exc e) => Some (Exc e)
    | Some (Ok (Some (component, tool), offset, c)) =>
      Some (Ok (Some (component, Some tool), c))
    | Some (Ok (None, offset, c)) =>
      match py_item components (length components - 1) with
      | Exc e => Some (Exc e)
      | Ok last => try_sources fuel base components ref_tool sources' (Some last) offset c
      end
    end
  end.

(** [_set_component(augment, offset)] for the augment at reference [r]; the
    result is [component_set]. A specification without components has
    [components = None], on which [len] and [index] raise [TypeError]. *)
Definition _set_component (fuel : nat) (s : ConfExEnvironment) (r : ref) (offset : Z)
    : option (Res (ConfExEnvironment * bool)) :=
  let augment := heap s !!! r in
  match Components (Specification augment) with
  | None => Some (Exc TypeError)
  | Some components =>
    let sources := if (offset <? 0)%Z then [TOOL; LOCAL] else [LOCAL; TOOL] in
    let sources :=
      if truthy_str (Tool augment)
      then (if (offset <? 0)%Z then sources else drop 1 sources)
      else (if (offset <? 0)%Z then drop 1 sources else sources) in
    match try_sources fuel (_base s) components (Tool augment) sources
            (Component augment) offset (_cache s) with
    | None => None
    | Some (Exc e) => Some (Exc e)
    | Some (Ok (Some (component, tool), c)) =>
      let augment' :=
        {| Specification := Specification augment; Tool := tool;
           Component := Some component; Valid := false |} in
      Some (Ok (set_cache (set_heap s (<[r := augment']> (heap s))) c, true))
    | Some (Ok (None, c)) => Some (Ok (set_cache s c, false))
    end
  end.

(** ** [_order_augments] *)

(** [self._cache.Components[tool]] *)
Definition components_of (c : ConfExCache) (tool : string)
    : Res (gmap string (list string)) :=
  match CacheComponents c !! tool with
  | Some provided => Ok provided
  | None => Exc KeyError
  end.

(** [x in provided] for a component attribute that may be [None]. *)
Definition provides (provided : gmap string (list string)) (component : option string)
    : bool :=
  match component with
  | Some x => bool_decide (is_Some (provided !! x))
  | None => false
  end.

(** Lines 701-704: ["no_overlap" in Components[augment.Tool][augment.Component]] *)
Definition flagged_no_overlap (c : ConfExCache) (augment : ConfExEnvironmentAugment)
    : Res bool :=
  if truthy_str (Tool augment)
  then
    provided ← components_of c (default "" (Tool augment));
    match Component augment with
    | Some x =>
      match provided !! x with
      | Some flags => Ok (py_in "no_overlap" flags)
      | None => Exc KeyError
      end
    | None => Exc KeyError
    end
  else Ok false.

Inductive Placement : Type :=
| Place (active_idx : nat)
| Incompatible (other : ref).

(** Lines 717-719: does the tool of [augment] also provide the component of
    the augment already placed? *)
Definition overlaps_placed (c : ConfExCache) (augment placed : ConfExEnvironmentAugment)
    : Res bool :=
  if truthy_str (Tool augment)
  then provided ← components_of c (default "" (Tool augment));
       Ok (provides provided (Component placed))
  else Ok false.

(** Lines 722-723: does the tool of the augment already placed provide the
    component of [augment]? *)
Definition shadowed_by (c : ConfExCache) (augment placed : ConfExEnvironmentAugment)
    : Res bool :=
  if truthy_str (Tool placed)
  then provided ← components_of c (default "" (Tool placed));
       Ok (provides provided (Component augment))
  else Ok false.

(** Lines 708-728, the loop [for i in range(len(ordered))] from index [i] on,
    [rest] being [ordered[i:]]. *)
Fixpoint find_position (c : ConfExCache) (h : list ConfExEnvironmentAugment)
    (augment : ConfExEnvironmentAugment) (rest : list ref) (i : nat)
    (tool_present overlap : bool) (active_idx : nat) : Res Placement :=
  match rest with
  | [] => Ok (Place active_idx)
  | o :: rest' =>
    let placed := h !!! o in
    if truthy_str (Tool augment) && bool_decide (Tool augment = Tool placed)
    then find_position c h augment rest' (S i) true overlap
           (if tool_present then active_idx else i)
    else
      match overlaps_placed c augment placed with
      | Exc e => Exc e
      | Ok ov =>
        let overlap := ov || overlap in
        match shadowed_by c augment placed with
        | Exc e => Exc e
        | Ok true =>
          if overlap || tool_present
          then Ok (Incompatible o)
          else find_position c h augment rest' (S i) tool_present overlap (S i)
        | Ok false =>
          find_position c h augment rest' (S i) tool_present overlap active_idx
        end
      end
  end.

(** Lines 697-730, the loop [for augment in augments] over the reversed
    list; yields the incompatible pair, or the ordered list. *)
Fixpoint order_loop (c : ConfExCache) (h : list ConfExEnvironmentAugment)
    (todo : list ref) (ordered : list ref) : Res ((ref * ref) + list ref) :=
  match todo with
  | [] => Ok (inr ordered)
  | r :: todo' =>
    let augment := h !!! r in
    overlap ← flagged_no_overlap c augment;
    placement ← find_position c h augment ordered 0 false overlap 0;
    match placement with
    | Incompatible o => Ok (inl (r, o))
    | Place active_idx =>
      order_loop c h todo' (take active_idx ordered ++ r :: drop active_idx ordered)
    end
  end.

(** [_order_augments(augments)]; yields [incompatibility] and the list
    [augments] as the call leaves it: ordered, or only reversed when the
    ordering was given up. *)
Definition _order_augments (c : ConfExCache) (h : list ConfExEnvironmentAugment)
    (augments : list ref) : Res (option (ref * ref) * list ref) :=
  result ← order_loop c h (reverse augments) [];
  match result with
  | inl incompatibility => Ok (Some incompatibility, reverse augments)
  | inr ordered => Ok (None, ordered)
  end.

(** ** [AddAugment] *)

(** [_clone_augments(augments)]: one new object per augment, with the same
    fields; yields the heap with the clones and the list of their
    references. *)
Definition _clone_augments (h : list ConfExEnvironmentAugment) (augments : list ref)
    : list ConfExEnvironmentAugment * list ref :=
  (h ++ ((fun r => h !!! r) <$> augments), seq (length h) (length augments)).

(** Lines 462-466 *)
Definition pre_configure (s : ConfExEnvironment) : ConfExEnvironment :=
  if negb (pre_applied s) && bool_decide (is_Some ENVPre)
  then set_env s (write_vars ENVPre (_current s)) (applied_tools s)
         (applied_checks s) true (exec_log s)
  else s.

(** Lines 496-508: count [augment] with [offset] in the change delta, a pair
    of parallel lists. *)
Definition delta_add (change_delta : list ref * list Z) (augment : ref) (offset : Z)
    : list ref * list Z :=
  let '(d0, d1) := change_delta in
  match py_index augment d0 with
  | Some idx =>
    let v := ((d1 !!! idx) + offset)%Z in
    if (v =? 0)%Z then (delete idx d0, delete idx d1) else (d0, <[idx := v]> d1)
  | None => (d0 ++ [augment], d1 ++ [offset])
  end.

(** Lines 493-508 *)
Definition change_delta_of (change last_change : list ref) : list ref * list Z :=
  let d := foldl (fun d augment => delta_add d augment 1%Z) ([], []) change in
  foldl (fun d augment => delta_add d augment (-1)%Z) d last_change.

(** Lines 512-517, the loop [for i in range(len(change_delta[0]))] from index
    [i] on; yields [Some i] when [_set_component] found nothing at [i]. *)
Fixpoint apply_delta (fuel : nat) (s : ConfExEnvironment) (d0 : list ref) (d1 : list Z)
    (i : nat) : option (Res (ConfExEnvironment * option nat)) :=
  match d0, d1 with
  | augment :: d0', offset :: d1' =>
    match _set_component fuel s augment offset with
    | None => None
    | Some (Exc e) => Some (Exc e)
    | Some (Ok (s, true)) => apply_delta fuel s d0' d1' (S i)
    | Some (Ok (s, false)) => Some (Ok (s, Some i))
    end
  | _, _ => Some (Ok (s, None))
  end.

(** [l.remove(x)] *)
Definition py_remove (x : ref) (l : list ref) : Res (list ref) :=
  match py_index x l with
  | Some i => Ok (delete i l)
  | None => Exc ValueError
  end.

(** Lines 524-528: [abs(offset)] times, append or remove [augment]. *)
Fixpoint replay_one (n : nat) (offset : Z) (augment : ref) (change : list ref)
    : Res (list ref) :=
  match n with
  | 0 => Ok change
  | S n =>
    if (0 <? offset)%Z
    then replay_one n offset augment (change ++ [augment])
    else change ← py_remove augment change; replay_one n offset augment change
  end.

(** Lines 520-528: the change that was actually set, from the first [i]
    entries of the delta. *)
Fixpoint replay_delta (d0 : list ref) (d1 : list Z) (change : list ref)
    : Res (list ref) :=
  match d0, d1 with
  | augment :: d0', offset :: d1' =>
    change ← replay_one (Z.abs_nat offset) offset augment change;
    replay_delta d0' d1' change
  | _, _ => Ok change
  end.

(** Lines 486-529: pop a change and move the augments by its delta; the
    flag is [false] when a component ran out (the [continue] of line 529). *)
Definition reconfigure (fuel : nat) (s : ConfExEnvironment) (change : list ref)
    (changes : list (list ref))
    : option (Res (ConfExEnvironment * list ref * list (list ref) * bool)) :=
  let last_change := change in
  match reverse changes with
  | [] => Some (Exc IndexError)
  | change :: rest =>
    let changes := reverse rest in
    let '(d0, d1) := change_delta_of change last_change in
    match apply_delta fuel s d0 d1 0 with
    | None => None
    | Some (Exc e) => Some (Exc e)
    | Some (Ok (s, None)) => Some (Ok (s, change, changes, true))
    | Some (Ok (s, Some i)) =>
      match replay_delta (take i d0) (take i d1) last_change with
      | Exc e => Some (Exc e)
      | Ok change => Some (Ok (s, change, changes, false))
      end
    end
  end.

(** Lines 481-545, the loop [while (len(changes) or do_loop)]; the result is
    [added]. *)
Fixpoint AddAugment_loop (fuel : nat) (do_loop : bool) (s : ConfExEnvironment)
    (augments : list ref) (change : list ref) (changes : list (list ref))
    : option (Res (ConfExEnvironment * bool)) :=
  match fuel with
  | 0 => None
  | S fuel =>
    if negb do_loop && bool_decide (changes = [])
    then Some (Ok (s, false))
    else
      match (if do_loop then Some (Ok (s, change, changes, true))
             else reconfigure fuel s change changes) with
      | None => None
      | Some (Exc e) => Some (Exc e)
      | Some (Ok (s, change, changes, false)) =>
        AddAugment_loop fuel false s augments change changes
      | Some (Ok (s, change, changes, true)) =>
        match _order_augments (_cache s) (heap s) augments with
        | Exc e => Some (Exc e)
        | Ok (Some (a, o), augments) =>
          AddAugment_loop fuel false s augments change
            (changes ++ [change ++ [a]; change ++ [o]])
        | Ok (None, augments) =>
          match _validate_augments s augments with
          | Exc e => Some (Exc e)
          | Ok (s, []) => Some (Ok (set_augments s augments, true))
          | Ok (s, conflicting_augments) =>
            AddAugment_loop fuel false s augments change
              (changes ++ ((fun augment => change ++ [augment]) <$> conflicting_augments))
          end
        end
      end
  end.

(** [AddAugment(spec)]; the result is [added]. *)
Definition AddAugment (fuel : nat) (s : ConfExEnvironment) (spec : ConfExSpecification)
    : option (Res (ConfExEnvironment * bool)) :=
  let '(h, augments) := _clone_augments (heap s) (_augments s) in
  let augment := length h in
  let s := pre_configure (set_heap s (h ++ [new_augment spec])) in
  let augments := augments ++ [augment] in
  match Components spec with
  | None =>
    match _validate_augments s augments with
    | Exc e => Some (Exc e)
    | Ok (s, []) => Some (Ok (set_augments s augments, true))
    | Ok (s, _ :: _) => Some (Ok (s, false))
    end
  | Some _ =>
    match _set_component fuel s augment 0%Z with
    | None => None
    | Some (Exc e) => Some (Exc e)
    | Some (Ok (s, do_loop)) => AddAugment_loop fuel do_loop s augments [] []
    end
  end.

(** ** Notions used by the statements *)

(** The tools of the augments of a list, in order. *)
Definition tools_of (h : list ConfExEnvironmentAugment) (augments : list ref)
    : list string :=
  omap (fun r => if truthy_str (Tool (h !!! r)) then Tool (h !!! r) else None) augments.

(** The checks of the augments of a list, in order. *)
Definition checks_of (h : list ConfExEnvironmentAugment) (augments : list ref)
    : list Check :=
  mjoin ((fun r => seq_items (Checks (Specification (h !!! r)))) <$> augments).

(** Two augment objects that differ at most in their [Valid] flag. *)
Definition same_choice (a b : ConfExEnvironmentAugment) : Prop :=
  Specification a = Specification b ∧ Tool a = Tool b ∧ Component a = Component b.

(** [universe] holds every tool that a search can meet: the tools of the
    cache and, with a tool, the tools of the toolchain that its detection
    yields. *)
Definition closed_universe (universe : list string) (c : ConfExCache) : Prop :=
  (∀ tool, tool ∈ Tools c → tool ∈ universe)
  ∧ (∀ tool t, tool ∈ universe → t ∈ (Detect tool).1 → t ∈ universe).

(** No tool of [universe] provides any of [components]: a tool whose
    components are known has none of them, and the detection of a tool not
    examined so far yields none of them. *)
Definition no_candidate (universe : list string) (c : ConfExCache)
    (components : list string) : Prop :=
  ∀ tool, tool ∈ universe →
    match CacheComponents c !! tool with
    | Some provided => ∀ x, x ∈ components → provided !! x = None
    | None => ∀ x, x ∈ components → (Detect tool).2 !! x = None
    end.

(** What is left to examine: the toolchain, and two steps, of every tool
    of [universe] that has not been examined so far. *)
Definition pending (universe : list string) (c : ConfExCache) : nat :=
  sum_list ((fun tool => match CacheComponents c !! tool with
                         | Some _ => 0
                         | None => length (Detect tool).1 + 2
                         end) <$> universe).

(** The size of the search space: the tools listed, and three times the
    toolchain and two steps of every tool of [universe]. *)
Definition search_space (universe : list string) (c : ConfExCache) : nat :=
  length (Tools c)
  + 3 * sum_list ((fun tool => length (Detect tool).1 + 2) <$> universe) + 5.

(** The tool of an augment, when it has one ([if augment.Tool]). *)
Definition tool_key (a : ConfExEnvironmentAugment) : option string :=
  if truthy_str (Tool a) then Tool a else None.

Definition tool_keys (h : list ConfExEnvironmentAugment) (augments : list ref)
    : list (option string) :=
  (fun r => tool_key (h !!! r)) <$> augments.

(** The positions that hold one and the same tool form a range without
    gaps. *)
Definition contiguous (keys : list (option string)) : Prop :=
  ∀ i j k tool,
    i ≤ j → j ≤ k →
    keys !! i = Some (Some tool) → keys !! k = Some (Some tool) →
    keys !! j = Some (Some tool).

Definition contiguous_tools (h : list ConfExEnvironmentAugment) (augments : list ref)
    : Prop :=
  contiguous (tool_keys h augments).

(** Line 710: [augment.Tool and (augment.Tool == ordered[i].Tool)] *)
Definition same_tool (augment placed : ConfExEnvironmentAugment) : bool :=
  truthy_str (Tool augment) && bool_decide (Tool augment = Tool placed).

(** The cache [c'] extends the cache [c]: what was known about a tool stays
    as it was, every tool stays listed, and whatever is new about a tool is
    what its detection yields. *)
Definition cache_extends (c c' : ConfExCache) : Prop :=
  (∀ t provided, CacheComponents c !! t = Some provided →
                 CacheComponents c' !! t = Some provided)
  ∧ (∀ t, t ∈ Tools c → t ∈ Tools c')
  ∧ (∀ t, is_Some (CacheComponents c' !! t) →
          is_Some (CacheComponents c !! t)
          ∨ CacheComponents c' !! t = Some (Detect t).2)
  ∧ lookups c' = lookups c ∧ Toolpath c' = Toolpath c.

(** The choice recorded in an augment is sound: its component is one of the
    candidates of its specification, and it is a key of the base environment
    when there is no tool, a component of the tool in the cache otherwise. *)
Definition sound_choice (base : Env) (c : ConfExCache) (a : ConfExEnvironmentAugment)
    : Prop :=
  ∃ x, Component a = Some x
       ∧ x ∈ seq_items (Components (Specification a))
       ∧ match Tool a with
         | None => is_Some (base !! x)
         | Some t =>
           t ∈ Tools c
           ∧ ∃ provided, CacheComponents c !! t = Some provided
                         ∧ is_Some (provided !! x)
         end.

(** The heap [h'] has the objects of [h], each with the specification it
    had. *)
Definition same_specs (h h' : list ConfExEnvironmentAugment) : Prop :=
  length h' = length h
  ∧ ∀ r, Specification (h' !!! r) = Specification (h !!! r).

(** The specifications of the augments of a list, in order. *)
Definition specs_of (h : list ConfExEnvironmentAugment) (augments : list ref)
    : list ConfExSpecification :=
  (fun r => Specification (h !!! r)) <$> augments.

(** ** [ConfExBase]: [Require] *)

(** [class ConfExError] *)
Record ConfExError : Type := {
  Error : string;
  Description : string
}.

(** [ConfExError.__init__(error, ctx)] *)
Definition ConfExError_init (error : string) (ctx : option string) : ConfExError :=
  {| Error := error;
     Description :=
       match ctx with
       | None => error
       | Some name =>
         if String.eqb error "ToolNotFound"
         then String.append "No tool found that provides a suitable '"
                (String.append name "'")
         else if String.eqb error "LibraryNotFound"
         then String.append "Library '" (String.append name "' not found")
         else if String.eqb error "ProgramNotFound"
         then String.append "External program '" (String.append name "' not found")
         else if String.eqb error "RequirementNotMet"
         then String.append "Requires '" (String.append name "' support")
         else error
       end |}.

(** The state of a [ConfExBase] object that [Require] uses: [self.__listing]
    ([None] or a dictionary from a class of requests to the names requested)
    and [self.__env], which exists only when nothing is listed. *)
Record ConfExBase : Type := {
  base_listing : option (gmap string (list string));
  base_env : ConfExEnvironment
}.

(** What a request gives: a specification or [None], or a [ConfExError]. *)
Inductive Reply : Type :=
| Returns (spec : option ConfExSpecification)
| Raises (err : ConfExError).

(** [__is_listing(class_type, name)], [class_type] being given. *)
Definition is_listing (b : ConfExBase) (class_type : string) (name : option string)
    : ConfExBase * bool :=
  match base_listing b with
  | None => (b, false)
  | Some listing =>
    let listing :=
      match name with
      | None => listing
      | Some n =>
        match listing !! class_type with
        | Some names => <[class_type := names ++ [n]]> listing
        | None => <[class_type := [n]]> listing
        end
      end in
    ({| base_listing := Some listing; base_env := base_env b |}, true)
  end.

(** [__find(name, component, check, depends)]; [id] is the identity of the
    specification that it creates. *)
Definition find (fuel : nat) (b : ConfExBase) (id : nat) (name : option string)
    (component : Arg string) (check : Arg Check) (depends : Arg ConfExSpecification)
    : option (Res (ConfExBase * option ConfExSpecification)) :=
  let spec := ConfExSpecification_init id name component check depends in
  match AddAugment fuel (base_env b) spec with
  | None => None
  | Some (Exc e) => Some (Exc e)
  | Some (Ok (s, added)) =>
    Some (Ok ({| base_listing := base_listing b; base_env := s |},
              if added then Some spec else None))
  end.

(** [Require(check, name)] *)
Definition Require (fuel : nat) (b : ConfExBase) (id : nat) (check : Arg Check)
    (name : option string) : option (Res (ConfExBase * Reply)) :=
  match arg_tuple (fun _ => true) check with
  | None => Some (Exc ValueError)
  | Some _ =>
    let '(b, listing) := is_listing b "REQUIRES" name in
    if listing then Some (Ok (b, Returns None))
    else
      match find fuel b id name ArgNone check ArgNone with
      | None => None
      | Some (Exc e) => Some (Exc e)
      | Some (Ok (b, None)) =>
        Some (Ok (b, Raises (ConfExError_init "RequirementNotMet" name)))
      | Some (Ok (b, Some spec)) => Some (Ok (b, Returns (Some spec)))
      end
  end.

(** * Properties *)

(** ** The check loop of [_apply_env] *)

(** Does this entry of the execution log count as a failed check? *)
Definition failing_entry (e : Check * Outcome) : bool :=
  match e.2 with
  | Returned v => check_failed v
  | Raised _ => false
  end.

Lemma py_in_true {A : Type} `{EqDecision A} (x : A) (l : list A) :
  py_in x l = true ↔ x ∈ l.
Proof. unfold py_in. apply bool_decide_eq_true. Qed.

Lemma py_in_false {A : Type} `{EqDecision A} (x : A) (l : list A) :
  py_in x l = false ↔ x ∉ l.
Proof. unfold py_in. apply bool_decide_eq_false. Qed.

Lemma failing_cons (check : Check) (result : PyValue) (new : list (Check * Outcome)) :
  (filter (fun e => failing_entry e = true) ((check, Returned result) :: new)).*1
  = (if check_failed result then [check] else [])
    ++ (filter (fun e => failing_entry e = true) new).*1.
Proof.
  rewrite filter_cons.
  destruct (decide (failing_entry (check, Returned result) = true)) as [H|H];
    unfold failing_entry in H; simpl in H.
  - by rewrite H.
  - apply not_true_is_false in H. by rewrite H.
Qed.

(** What one run of the loop [for check in checks] does to its state. *)
Lemma run_checks_log required checks :
  ∀ cur applied failed log cur' applied' failed' log',
    run_checks required checks cur applied failed log
      = Ok (cur', applied', failed', log') →
    ∃ new,
      log' = log ++ new
      ∧ failed' = failed ++ (filter (fun e => failing_entry e = true) new).*1
      ∧ (∀ c, c ∈ applied → c ∈ applied')
      ∧ (∀ c, c ∈ checks → c ∈ applied')
      ∧ (∀ e, e ∈ new → e.1 ∈ checks)
      ∧ (required = true → new.*1 = checks)
      ∧ (required = false → ∀ e, e ∈ new → e.1 ∉ applied).
Proof.
  induction checks as [|check checks IH]; intros cur applied failed log cur' applied' failed' log' H.
  - simpl in H. inversion H; subst. exists [].
    rewrite app_nil_r. simpl. rewrite app_nil_r.
    repeat split; auto; try set_solver.
  - simpl in H.
    destruct (py_in check applied) eqn:Hknown; simpl in H.
    + destruct required; simpl in H.
      * destruct (call_check check cur) as [cur1 out] eqn:Hcall.
        destruct out as [result|msg]; [|discriminate].
        apply IH in H as (new & -> & -> & Happ & Hchk & Hnew & Hreq & Hopt).
        exists ((check, Returned result) :: new).
        rewrite <- app_assoc. split; [done|].
        split.
        { rewrite failing_cons. destruct (check_failed result); simpl; [|done].
          by rewrite <- app_assoc. }
        apply py_in_true in Hknown.
        split_and!.
        -- auto.
        -- intros c Hc. apply elem_of_cons in Hc as [->|Hc]; auto.
        -- intros e He. apply elem_of_cons in He as [->|He]; [set_solver|].
           apply elem_of_cons. right. auto.
        -- intros _. simpl. f_equal. auto.
        -- discriminate.
      * apply IH in H as (new & -> & -> & Happ & Hchk & Hnew & Hreq & Hopt).
        exists new. apply py_in_true in Hknown.
        split_and!; auto.
        -- intros c Hc. apply elem_of_cons in Hc as [->|Hc]; auto.
        -- intros e He. apply elem_of_cons. right. auto.
        -- discriminate.
    + destruct (call_check check cur) as [cur1 out] eqn:Hcall.
      destruct out as [result|msg]; [|discriminate].
      apply IH in H as (new & -> & -> & Happ & Hchk & Hnew & Hreq & Hopt).
      exists ((check, Returned result) :: new).
      rewrite <- app_assoc. split; [done|].
      split.
      { rewrite failing_cons. destruct (check_failed result); simpl; [|done].
        by rewrite <- app_assoc. }
      apply py_in_false in Hknown.
      split_and!.
      -- intros c Hc. apply Happ. set_solver.
      -- intros c Hc. apply elem_of_cons in Hc as [->|Hc]; auto.
         apply Happ. set_solver.
      -- intros e He. apply elem_of_cons in He as [->|He]; [set_solver|].
         apply elem_of_cons. right. auto.
      -- intros Hr. simpl. f_equal. auto.
      -- intros Hr e He. apply elem_of_cons in He as [->|He]; [done|].
         intros Hin. apply (Hopt Hr e He). set_solver.
Qed.


(** Every check of the list is either known beforehand or executed, and
    nothing else becomes known. *)
Lemma run_checks_covers required checks :
  ∀ cur applied failed log cur' applied' failed' log' new,
    run_checks required checks cur applied failed log
      = Ok (cur', applied', failed', log') →
    log' = log ++ new →
    (∀ c, c ∈ checks → c ∈ applied ∨ c ∈ new.*1)
    ∧ (∀ c, c ∈ applied' → c ∈ applied ∨ c ∈ checks).
Proof.
  induction checks as [|check checks IH];
    intros cur applied failed log cur' applied' failed' log' new H Hlog.
  - simpl in H. inversion H; subst. split; [|by left].
    intros c Hc. by apply elem_of_nil in Hc.
  - simpl in H.
    assert (Hskip : ∀ cur, check ∈ applied →
              run_checks required checks cur applied failed log
                = Ok (cur', applied', failed', log') →
              (∀ c, c ∈ check :: checks → c ∈ applied ∨ c ∈ new.*1)
              ∧ (∀ c, c ∈ applied' → c ∈ applied ∨ c ∈ check :: checks)).
    { intros cur0 Hk H0. destruct (IH _ _ _ _ _ _ _ _ new H0 Hlog) as [H1 H2]. split.
      - intros c Hc. apply elem_of_cons in Hc as [->|Hc]; auto.
      - intros c Hc. destruct (H2 c Hc); auto. right. by apply elem_of_cons; right. }
    assert (Hrun : ∀ cur1 result applied0,
              call_check check cur = (cur1, Returned result) →
              (∀ c, c ∈ applied0 → c ∈ applied ∨ c = check) →
              (∀ c, c ∈ applied → c ∈ applied0) →
              run_checks required checks cur1 applied0
                (if check_failed result then failed ++ [check] else failed)
                (log ++ [(check, Returned result)])
                = Ok (cur', applied', failed', log') →
              (∀ c, c ∈ check :: checks → c ∈ applied ∨ c ∈ new.*1)
              ∧ (∀ c, c ∈ applied' → c ∈ applied ∨ c ∈ check :: checks)).
    { intros cur1 result applied0 Hcall Happ0 Happ1 H0.
      destruct (run_checks_log _ _ _ _ _ _ _ _ _ _ H0) as (new0 & Hl & _).
      assert (Hnew : new = (check, Returned result) :: new0).
      { rewrite Hl, <- app_assoc in Hlog. by apply app_inv_head in Hlog. }
      destruct (IH _ _ _ _ _ _ _ _ new0 H0 Hl) as [H1 H2]. subst new. split.
      - intros c Hc. apply elem_of_cons in Hc as [->|Hc].
        + right. simpl. by left.
        + destruct (H1 c Hc) as [Hc'|Hc'].
          * destruct (Happ0 c Hc') as [?| ->]; [by left|]. right. simpl. by left.
          * right. simpl. by right.
      - intros c Hc. destruct (H2 c Hc) as [Hc'|Hc'].
        + destruct (Happ0 c Hc') as [?| ->]; [by left|]. right. by left.
        + right. by right. }
    destruct (py_in check applied) eqn:Hknown.
    + apply py_in_true in Hknown. destruct required; simpl in H.
      * destruct (call_check check cur) as [cur1 out] eqn:Hcall.
        destruct out as [result|msg]; [|discriminate].
        apply (Hrun cur1 result applied); auto.
      * eapply Hskip; eauto.
    + simpl in H. destruct (call_check check cur) as [cur1 out] eqn:Hcall.
      destruct out as [result|msg]; [|discriminate].
      apply (Hrun cur1 result (applied ++ [check])); auto.
      * intros c Hc. apply elem_of_app in Hc as [Hc|Hc]; [by left|].
        right. by apply list_elem_of_singleton in Hc.
      * intros c Hc. apply elem_of_app. by left.
Qed.

Lemma truthy_items {A : Type} (o : option (list A)) :
  (if truthy_seq o then seq_items o else []) = seq_items o.
Proof. destruct o as [[|x l]|]; reflexivity. Qed.

(** The tools phase leaves the log, the heap, the cache and the committed
    list alone. *)
Lemma apply_tool_list_fields s todo :
  exec_log (apply_tool_list s todo) = exec_log s
  ∧ heap (apply_tool_list s todo) = heap s
  ∧ _augments (apply_tool_list s todo) = _augments s
  ∧ _cache (apply_tool_list s todo) = _cache s
  ∧ _base (apply_tool_list s todo) = _base s
  ∧ applied_checks (apply_tool_list s todo) = applied_checks s.
Proof.
  unfold apply_tool_list.
  destruct (apply_tool_loop todo (_current s) (applied_tools s) _) as [cur applied].
  done.
Qed.

Lemma prepare_tools_fields s tools exact :
  exec_log (prepare_tools s tools exact) = exec_log s
  ∧ heap (prepare_tools s tools exact) = heap s
  ∧ _augments (prepare_tools s tools exact) = _augments s
  ∧ _cache (prepare_tools s tools exact) = _cache s
  ∧ _base (prepare_tools s tools exact) = _base s.
Proof.
  unfold prepare_tools.
  destruct (find_start exact (applied_tools s) tools) as [reset start].
  destruct (apply_tool_list_fields (if reset then reset_environment s else s)
              (drop start tools)) as (-> & -> & -> & -> & -> & _).
  by destruct reset.
Qed.

Lemma prepare_tools_checks s tools exact :
  (find_start exact (applied_tools s) tools).1 = false →
  applied_checks (prepare_tools s tools exact) = applied_checks s.
Proof.
  unfold prepare_tools.
  destruct (find_start exact (applied_tools s) tools) as [reset start].
  simpl. intros ->. apply apply_tool_list_fields.
Qed.

(** [_apply_env] as a whole: what it executes and what it reports. *)
Lemma apply_env_log s tools exact req opt s' failed :
  _apply_env s tools exact req opt = Ok (s', failed) →
  ∃ new_req new_opt,
    exec_log s' = exec_log s ++ new_req ++ new_opt
    ∧ failed = (filter (fun e => failing_entry e = true) (new_req ++ new_opt)).*1
    ∧ new_req.*1 = seq_items req
    ∧ (∀ e, e ∈ new_opt →
         (e.1 ∈ seq_items opt) ∧ (e.1 ∉ seq_items req)
         ∧ (e.1 ∉ applied_checks (prepare_tools s tools exact)))
    ∧ (∀ c, c ∈ seq_items req ++ seq_items opt → c ∈ applied_checks s')
    ∧ (∀ c, c ∈ applied_checks (prepare_tools s tools exact) → c ∈ applied_checks s')
    ∧ heap s' = heap s ∧ _augments s' = _augments s ∧ _cache s' = _cache s
    ∧ _base s' = _base s
    ∧ applied_tools s' = applied_tools (prepare_tools s tools exact).
Proof.
  unfold _apply_env, run_all_checks. rewrite !truthy_items.
  destruct (prepare_tools_fields s tools exact) as (Hlog & Hheap & Haug & Hcache & Hbase).
  set (s1 := prepare_tools s tools exact) in *.
  destruct (run_checks true (seq_items req) (_current s1) (applied_checks s1) []
              (exec_log s1)) as [[[[cur1 app1] failed1] log1]|e] eqn:H1; [|discriminate].
  simpl.
  destruct (run_checks false (seq_items opt) cur1 app1 failed1 log1)
    as [[[[cur2 app2] failed2] log2]|e] eqn:H2; [|discriminate].
  simpl. intros H. inversion H; subst s' failed. clear H. simpl.
  apply run_checks_log in H1 as (new1 & -> & -> & Happ1 & Hchk1 & Hnew1 & Hreq1 & _).
  apply run_checks_log in H2 as (new2 & -> & -> & Happ2 & Hchk2 & Hnew2 & _ & Hopt2).
  exists new1, new2. rewrite Hlog, <- app_assoc. simpl.
  rewrite filter_app, fmap_app.
  split_and!; auto.
  - intros e He. split_and!; auto.
    + intros Hin. apply (Hopt2 eq_refl e He). auto.
    + intros Hin. apply (Hopt2 eq_refl e He). auto.
  - intros c Hc. apply elem_of_app in Hc as [Hc|Hc]; auto.
Qed.

Lemma check_failed_iff (v : PyValue) :
  check_failed v = true
  ↔ py_eq_False v = true ∨ ∃ str, v = PyStr str ∧ str ≠ "".
Proof.
  unfold check_failed. rewrite orb_true_iff. split; intros [H|H]; auto.
  - right. destruct v; try discriminate. exists s. split; [done|].
    simpl in H. intros ->. discriminate.
  - right. destruct H as (str & -> & Hne). simpl.
    destruct (String.eqb_spec str ""); [contradiction|reflexivity].
Qed.

Lemma elem_of_failing (c : Check) (new : list (Check * Outcome)) :
  c ∈ (filter (fun e => failing_entry e = true) new).*1
  ↔ ∃ v, (c, Returned v) ∈ new ∧ check_failed v = true.
Proof.
  rewrite list_elem_of_fmap. split.
  - intros ([c' o] & -> & He). apply list_elem_of_filter in He as [Hf He].
    unfold failing_entry in Hf. simpl in *. destruct o as [v|msg]; [|discriminate].
    eauto.
  - intros (v & He & Hf). exists (c, Returned v). split; [done|].
    apply list_elem_of_filter. split; [|done]. exact Hf.
Qed.

(** C10. Whenever [_apply_env] returns, a check is among the failed checks
    exactly when one of its calls in this pass returned a value that compares
    equal to [False] or is a non-empty string. In particular a check whose
    calls all returned [None] (falsy as it is) counts as passed, and so does
    one that returned a plain object, [True], or the empty string. *)
Theorem check_result_classification s tools exact req opt s' failed :
  _apply_env s tools exact req opt = Ok (s', failed) →
  ∃ new,
    exec_log s' = exec_log s ++ new
    ∧ (∀ c, c ∈ failed ↔
            ∃ v, (c, Returned v) ∈ new
                 ∧ (py_eq_False v = true ∨ ∃ str, v = PyStr str ∧ str ≠ ""))
    ∧ (∀ c, (∀ o, (c, o) ∈ new →
                  o = Returned PyNone ∨ o = Returned (PyBool true)
                  ∨ o = Returned (PyStr "") ∨ ∃ id, o = Returned (PyObj id)) →
            c ∉ failed).
Proof.
  intros H.
  apply apply_env_log in H as (new1 & new2 & Hlog & -> & _).
  exists (new1 ++ new2). split; [done|].
  assert (Hiff : ∀ c, c ∈ (filter (fun e => failing_entry e = true) (new1 ++ new2)).*1 ↔
            ∃ v, (c, Returned v) ∈ new1 ++ new2
                 ∧ (py_eq_False v = true ∨ ∃ str, v = PyStr str ∧ str ≠ "")).
  { intros c. rewrite elem_of_failing. by setoid_rewrite check_failed_iff. }
  split; [exact Hiff|].
  intros c Hall Hin. apply Hiff in Hin as (v & Hv & Hbad).
  destruct (Hall _ Hv) as [Ho|[Ho|[Ho|[id Ho]]]]; inversion Ho; subst v;
    destruct Hbad as [Hb|(str & Hs & Hne)]; try discriminate.
  inversion Hs; subst. contradiction.
Qed.

(** C2 (amended). Within one pass of [_apply_env] that returns: every check
    of the required set is executed, whether or not it ran (and passed)
    before; every executed check is remembered; and when the pass does not
    reset the environment, a check that is remembered from an earlier pass
    and is not in the required set is not executed again. *)
Theorem checks_rerun_policy s tools exact req opt s' failed :
  _apply_env s tools exact req opt = Ok (s', failed) →
  ∃ new,
    exec_log s' = exec_log s ++ new
    ∧ (∀ c, c ∈ seq_items req → c ∈ new.*1)
    ∧ (∀ c, c ∈ new.*1 → c ∈ applied_checks s')
    ∧ (∀ c, (find_start exact (applied_tools s) tools).1 = false →
            c ∈ applied_checks s → c ∉ seq_items req → c ∉ new.*1).
Proof.
  intros H.
  apply apply_env_log in H
    as (new1 & new2 & Hlog & _ & Hreq & Hopt & Hrem & _).
  exists (new1 ++ new2). split; [done|]. rewrite fmap_app, Hreq.
  split_and!.
  - intros c Hc. apply elem_of_app. by left.
  - intros c Hc. apply Hrem. apply elem_of_app in Hc as [Hc|Hc].
    + apply elem_of_app. by left.
    + apply list_elem_of_fmap in Hc as (e & -> & He).
      apply elem_of_app. right. by apply Hopt.
  - intros c Hreset Hknown Hnreq Hc.
    apply elem_of_app in Hc as [Hc|Hc]; [contradiction|].
    apply list_elem_of_fmap in Hc as (e & -> & He).
    apply Hopt in He as (_ & _ & Hfresh). apply Hfresh.
    by rewrite prepare_tools_checks.
Qed.

(** ** Exceptions raised by checks *)

Lemma run_checks_raises (c : Check) checks :
  c ∈ checks →
  (∀ env, ∃ env' msg, call_check c env = (env', Raised msg)) →
  ∀ cur applied failed log,
    ∃ msg, run_checks true checks cur applied failed log = Exc (CheckError msg).
Proof.
  intros Hin Hraise. induction checks as [|check checks IH]; [by apply elem_of_nil in Hin|].
  intros cur applied failed log. simpl. rewrite andb_false_r.
  destruct (call_check check cur) as [cur1 out] eqn:Hcall.
  destruct out as [result|msg]; [|eauto].
  apply elem_of_cons in Hin as [->|Hin]; [|by apply IH].
  destruct (Hraise cur) as (env' & msg & Hc). congruence.
Qed.



(** ** Choosing between appending and resetting *)

Lemma py_index_None {A : Type} `{EqDecision A} (x : A) (l : list A) :
  py_index x l = None ↔ x ∉ l.
Proof.
  induction l as [|y l IH]; simpl.
  - split; [intros _; apply not_elem_of_nil|done].
  - destruct (decide (x = y)) as [->|Hne].
    + split; [discriminate|]. intros H. exfalso. apply H. by left.
    + rewrite fmap_None, IH. rewrite not_elem_of_cons. tauto.
Qed.

Lemma py_index_Some {A : Type} `{EqDecision A} (x : A) (l : list A) (i : nat) :
  py_index x l = Some i → l !! i = Some x.
Proof.
  revert i. induction l as [|y l IH]; intros i; simpl; [discriminate|].
  destruct (decide (x = y)) as [->|Hne].
  - intros [= <-]. done.
  - intros H. apply fmap_Some in H as (j & Hj & ->). simpl. auto.
Qed.

Lemma py_index_elem {A : Type} `{EqDecision A} (x : A) (l : list A) :
  x ∈ l → ∃ i, py_index x l = Some i.
Proof.
  intros H. destruct (py_index x l) as [i|] eqn:E; [eauto|].
  apply py_index_None in E. contradiction.
Qed.

Lemma py_index_app_r {A : Type} `{EqDecision A} (x : A) (l1 l2 : list A) :
  x ∉ l1 → py_index x (l1 ++ x :: l2) = Some (length l1).
Proof.
  induction l1 as [|y l1 IH]; simpl; intros H.
  - by rewrite decide_True.
  - apply not_elem_of_cons in H as [Hne Hnin].
    rewrite decide_False by done. by rewrite IH.
Qed.

(** Tools that are not applied yet, met once all applied ones were matched
    up to the end of the applied list. *)
Lemma scan_tools_suffix applied n suffix :
  (∀ t, t ∈ suffix → t ∉ applied) →
  ∀ i append, i + length suffix = n →
    scan_tools applied n i suffix (Z.of_nat (length applied)) append
    = (false, match suffix with
              | [] => append
              | _ :: _ => if append =? n then i else append
              end).
Proof.
  intros Hfresh. induction suffix as [|t suffix IH]; intros i append Hn; [done|].
  simpl in *.
  assert (Ht : py_index t applied = None).
  { apply py_index_None. apply Hfresh. by left. }
  rewrite Ht.
  replace (Z.of_nat (length applied) =? -1)%Z with false by (symmetry; apply Z.eqb_neq; lia).
  rewrite Z.eqb_refl.
  rewrite IH; [|intros t' Ht'; apply Hfresh; by right|lia].
  destruct suffix as [|t' suffix]; [done|].
  destruct (append =? n) eqn:E; [|by rewrite E].
  replace (i =? n) with false; [done|]. symmetry. apply Nat.eqb_neq. simpl in Hn. lia.
Qed.

(** Tools that are not applied yet, met before any applied one. *)
Lemma scan_tools_fresh applied n suffix :
  (∀ t, t ∈ suffix → t ∉ applied) →
  ∀ i append,
    scan_tools applied n i suffix (-1)%Z append
    = (false, match suffix with [] => append | _ :: _ => 0 end).
Proof.
  intros Hfresh. induction suffix as [|t suffix IH]; intros i append; [done|].
  simpl.
  assert (Ht : py_index t applied = None).
  { apply py_index_None. apply Hfresh. by left. }
  rewrite Ht. simpl. rewrite IH; [|intros t' Ht'; apply Hfresh; by right].
  by destruct suffix.
Qed.

(** The applied tools themselves, met in their own order. *)
Lemma scan_tools_prefix n done todo suffix append :
  NoDup (done ++ todo) → 0 < length done →
  scan_tools (done ++ todo) n (length done) (todo ++ suffix)
    (Z.of_nat (length done)) append
  = scan_tools (done ++ todo) n (length (done ++ todo)) suffix
      (Z.of_nat (length (done ++ todo))) append.
Proof.
  revert done. induction todo as [|t todo IH]; intros done Hnd Hpos.
  - by rewrite !app_nil_r.
  - simpl.
    assert (Ht : py_index t (done ++ t :: todo) = Some (length done)).
    { apply py_index_app_r. apply NoDup_app in Hnd as (_ & Hd & _).
      intros Hin. apply (Hd _ Hin). by left. }
    rewrite Ht.
    replace (length done =? 0) with false by (symmetry; apply Nat.eqb_neq; lia).
    simpl. rewrite Z.eqb_refl.
    specialize (IH (done ++ [t])). rewrite <- !app_assoc in IH. simpl in IH.
    rewrite length_app in IH. simpl in IH.
    replace (S (length done)) with (length done + 1) by lia.
    replace (Z.of_nat (length done) + 1)%Z with (Z.of_nat (length done + 1)) by lia.
    apply IH; [done|lia].
Qed.

Lemma exact_reset_false exact applied tools :
  (∀ t, t ∈ applied → t ∈ tools) → exact_reset exact applied tools = false.
Proof.
  intros H. unfold exact_reset. apply andb_false_iff. right.
  apply negb_false_iff. apply forallb_forall. intros t Ht.
  apply py_in_true. apply H. by apply list_elem_of_In.
Qed.


(** An extension of the applied list: no reset, start after the prefix. *)
Lemma find_start_extension exact applied suffix :
  NoDup applied → (∀ t, t ∈ suffix → t ∉ applied) →
  find_start exact applied (applied ++ suffix) = (false, length applied).
Proof.
  intros Hnd Hfresh. unfold find_start.
  rewrite exact_reset_false by (intros t Ht; apply elem_of_app; by left).
  destruct applied as [|a rest].
  - simpl. rewrite scan_tools_fresh by done. by destruct suffix.
  - cbn [app scan_tools py_index]. rewrite decide_True by done.
    assert (Hc : (0 =? 0) && ((1 <? length (a :: rest ++ suffix))
                              || (0 =? length (a :: rest) - 1)) = true).
    { simpl. destruct rest; simpl; [by rewrite orb_true_r|reflexivity]. }
    rewrite Hc. rewrite Z.eqb_refl.
    pose proof (scan_tools_prefix (length (a :: rest ++ suffix)) [a] rest suffix
                  (length (a :: rest ++ suffix)) Hnd) as Hp.
    specialize (Hp ltac:(simpl; lia)).
    change ([a] ++ rest) with (a :: rest) in Hp. change (length [a]) with 1 in Hp.
    change (Z.of_nat 0 + 1)%Z with (Z.of_nat 1). rewrite Hp.
    rewrite (scan_tools_suffix (a :: rest) (length (a :: rest ++ suffix)) suffix
               Hfresh (length (a :: rest)) (length (a :: rest ++ suffix)))
      by (simpl; rewrite length_app; lia).
    destruct suffix as [|t suffix].
    + by rewrite app_nil_r.
    + by rewrite Nat.eqb_refl.
Qed.



Lemma find_start_reset exact applied tools :
  (find_start exact applied tools).1 = true → find_start exact applied tools = (true, 0).
Proof.
  unfold find_start. destruct (exact_reset exact applied tools); [done|].
  destruct (scan_tools _ _ _ _ _ _) as [[|] append]; [done|discriminate].
Qed.

Lemma apply_tool_loop_applied todo :
  ∀ cur applied expected_len,
    (apply_tool_loop todo cur applied expected_len).2 = applied ++ todo.
Proof.
  induction todo as [|t todo IH]; intros cur applied expected_len; simpl.
  - by rewrite app_nil_r.
  - rewrite IH. by rewrite <- app_assoc.
Qed.

Lemma apply_tool_list_applied s todo :
  applied_tools (apply_tool_list s todo) = applied_tools s ++ todo.
Proof.
  unfold apply_tool_list.
  pose proof (apply_tool_loop_applied todo (_current s) (applied_tools s)
                (length (env_TOOLS (_current s)) + 1)) as H.
  destruct (apply_tool_loop _ _ _ _) as [cur applied]. exact H.
Qed.


Lemma apply_env_covers s tools exact req opt s' failed new :
  _apply_env s tools exact req opt = Ok (s', failed) →
  exec_log s' = exec_log s ++ new →
  ∀ c, c ∈ seq_items req ++ seq_items opt →
       c ∈ applied_checks (prepare_tools s tools exact) ∨ c ∈ new.*1.
Proof.
  unfold _apply_env, run_all_checks. rewrite !truthy_items.
  destruct (prepare_tools_fields s tools exact) as (Hlog & _).
  set (s1 := prepare_tools s tools exact) in *.
  destruct (run_checks true (seq_items req) (_current s1) (applied_checks s1) []
              (exec_log s1)) as [[[[cur1 app1] failed1] log1]|e] eqn:H1; [|discriminate].
  simpl.
  destruct (run_checks false (seq_items opt) cur1 app1 failed1 log1)
    as [[[[cur2 app2] failed2] log2]|e] eqn:H2; [|discriminate].
  simpl. intros H. inversion H; subst s' failed. clear H. simpl. intros Hnew c Hc.
  destruct (run_checks_log _ _ _ _ _ _ _ _ _ _ H1) as (new1 & Hl1 & _ & _ & _ & _ & Hr1 & _).
  destruct (run_checks_log _ _ _ _ _ _ _ _ _ _ H2) as (new2 & Hl2 & _).
  destruct (run_checks_covers _ _ _ _ _ _ _ _ _ _ new1 H1 Hl1) as [_ Hb1].
  destruct (run_checks_covers _ _ _ _ _ _ _ _ _ _ new2 H2 Hl2) as [Ha2 _].
  assert (new = new1 ++ new2) as ->.
  { rewrite Hl2, Hl1, Hlog, <- app_assoc in Hnew. by apply app_inv_head in Hnew. }
  rewrite fmap_app, (Hr1 eq_refl).
  apply elem_of_app in Hc as [Hc|Hc].
  - right. apply elem_of_app. by left.
  - destruct (Ha2 c Hc) as [Hk|Hk].
    + destruct (Hb1 c Hk); [by left|]. right. apply elem_of_app. by left.
    + right. apply elem_of_app. by right.
Qed.

(** ** Marking the augments after validation *)

Lemma valid_after_false failed (a : ConfExEnvironmentAugment) :
  valid_after failed a = false
  ↔ ∃ c, c ∈ failed ∧ c ∈ seq_items (Checks (Specification a)).
Proof.
  unfold valid_after. rewrite negb_false_iff, !andb_true_iff, negb_true_iff.
  rewrite bool_decide_eq_false, existsb_exists. split.
  - intros [[_ _] (c & Hin & Hc)]. exists c. split; [by apply list_elem_of_In|].
    by apply py_in_true.
  - intros (c & Hin & Hc). split_and!.
    + intros ->. by apply elem_of_nil in Hin.
    + destruct (Checks (Specification a)) as [[|x l]|]; simpl in *;
        try done; by apply elem_of_nil in Hc.
    + exists c. split; [by apply list_elem_of_In|]. by apply py_in_true.
Qed.

Lemma valid_after_same failed (a b : ConfExEnvironmentAugment) :
  Specification a = Specification b → valid_after failed a = valid_after failed b.
Proof. unfold valid_after. by intros ->. Qed.

Lemma lookup_total_insert_augment (h : list ConfExEnvironmentAugment) r r' a :
  (<[r := a]> h) !!! r' =
    if decide (r = r' ∧ r < length h) then a else h !!! r'.
Proof.
  destruct (decide (r = r' ∧ r < length h)) as [[-> Hlt]|Hn].
  - by apply list_lookup_total_insert_eq.
  - destruct (decide (r = r')) as [->|Hne].
    + rewrite list_insert_ge; [done|]. lia.
    + by apply list_lookup_total_insert_ne.
Qed.

Lemma mark_augments_spec failed todo :
  ∀ h invalid h' invalid',
    mark_augments failed todo h invalid = (h', invalid') →
    length h' = length h
    ∧ (∀ r, same_choice (h' !!! r) (h !!! r))
    ∧ (∀ r, r ∉ todo → h' !!! r = h !!! r)
    ∧ (∀ r, r ∈ todo → r < length h →
            Valid (h' !!! r) = valid_after failed (h !!! r))
    ∧ invalid' = invalid ++ filter (fun r => valid_after failed (h !!! r) = false) todo.
Proof.
  induction todo as [|r0 todo IH]; intros h invalid h' invalid' H; simpl in H.
  - inversion H; subst. rewrite app_nil_r. split_and!; auto; try done.
    intros r Hr. by apply elem_of_nil in Hr.
  - apply IH in H as (Hlen & Hsame & Hout & Hin & ->).
    rewrite length_insert in Hlen.
    assert (Hs0 : ∀ r, same_choice ((<[r0 := set_Valid (h !!! r0)
                                   (valid_after failed (h !!! r0))]> h) !!! r) (h !!! r)).
    { intros r. rewrite lookup_total_insert_augment. case_decide as Hd; [|done].
      destruct Hd as [-> _]. done. }
    split_and!.
    + done.
    + intros r. destruct (Hsame r) as (H1 & H2 & H3). destruct (Hs0 r) as (H4 & H5 & H6).
      unfold same_choice. by rewrite H1, H2, H3.
    + intros r Hr. apply not_elem_of_cons in Hr as [Hne Hr].
      rewrite Hout by done. by rewrite list_lookup_total_insert_ne.
    + intros r Hr Hlt. destruct (decide (r ∈ todo)) as [Hr'|Hr'].
      * rewrite Hin by (rewrite ?length_insert; done).
        apply valid_after_same. apply Hs0.
      * apply elem_of_cons in Hr as [->|Hr]; [|contradiction].
        rewrite Hout by done. by rewrite list_lookup_total_insert_eq.
    + rewrite filter_cons.
      assert (Hf : filter (λ r, valid_after failed
                     (<[r0:=set_Valid (h !!! r0) (valid_after failed (h !!! r0))]> h !!! r)
                     = false) todo
                   = filter (λ r, valid_after failed (h !!! r) = false) todo).
      { apply list_filter_iff. intros r. by rewrite (valid_after_same failed _ (h !!! r))
          by apply Hs0. }
      rewrite Hf.
      destruct (valid_after failed (h !!! r0)) eqn:Hv.
      * by rewrite decide_False by congruence.
      * rewrite decide_True by done. by rewrite <- app_assoc.
Qed.

(** C3 (amended). When [_validate_augments] returns, an augment of the list
    is marked invalid exactly when one of its own checks is among the checks
    that failed in this pass, and the list returned consists of exactly these
    augments. So when the check of B fails, B is marked invalid; an augment A
    that depends on B is marked invalid only when a check of its own failed;
    every augment none of whose checks failed is marked valid. *)
Theorem validate_marks_own_checks_only s augments s' invalid :
  (∀ r, r ∈ augments → r < length (heap s)) →
  _validate_augments s augments = Ok (s', invalid) →
  ∃ new,
    exec_log s' = exec_log s ++ new
    ∧ (∀ r, r ∈ augments →
         (Valid (heap s' !!! r) = false ↔
            ∃ c v, c ∈ seq_items (Checks (Specification (heap s !!! r)))
                   ∧ (c, Returned v) ∈ new ∧ check_failed v = true)
         ∧ (r ∈ invalid ↔ Valid (heap s' !!! r) = false))
    ∧ (∀ r, same_choice (heap s' !!! r) (heap s !!! r))
    ∧ (∀ r, r ∉ augments → heap s' !!! r = heap s !!! r).
Proof.
  intros Hrefs. unfold _validate_augments.
  destruct (collect_invalid (heap s) augments augments [] [] [])
    as [[tools checks] depends_checks].
  destruct (_apply_env s tools false (Some checks) (Some depends_checks))
    as [[s1 failed]|e] eqn:Happly; [|discriminate].
  simpl.
  destruct (mark_augments failed augments (heap s1) []) as [h' invalid'] eqn:Hmark.
  intros H. inversion H; subst s' invalid. clear H. simpl.
  apply apply_env_log in Happly
    as (new1 & new2 & Hlog & -> & _ & _ & _ & _ & Hheap & _).
  apply mark_augments_spec in Hmark as (Hlen & Hsame & Hout & Hin & ->).
  rewrite Hheap in *. exists (new1 ++ new2). split; [done|].
  split_and!; [|done|done].
  intros r Hr.
  assert (Hv : Valid (h' !!! r) = false ↔
            ∃ c v, c ∈ seq_items (Checks (Specification (heap s !!! r)))
                   ∧ (c, Returned v) ∈ new1 ++ new2 ∧ check_failed v = true).
  { rewrite Hin by auto. rewrite valid_after_false. split.
    - intros (c & Hc & Hown). apply elem_of_failing in Hc as (v & Hv & Hf). eauto.
    - intros (c & v & Hown & Hv & Hf). exists c. split; [|done].
      apply elem_of_failing. eauto. }
  split; [exact Hv|]. simpl. rewrite list_elem_of_filter.
  rewrite Hin by auto. split; [by intros [? _]|]. by intros ?.
Qed.

(** ** [Finalize] *)

(** Without a reset, the index to append from is at or below every tool that
    is not applied yet. *)
Lemma scan_tools_append_le applied n rest :
  ∀ i expected append a',
    i + length rest = n → (append = n ∨ append ≤ i) →
    scan_tools applied n i rest expected append = (false, a') →
    (append ≠ n → a' ≤ append)
    ∧ (∀ k t, rest !! k = Some t → py_index t applied = None → a' ≤ i + k).
Proof.
  induction rest as [|t0 rest IH]; intros i expected append a' Hn Happ H.
  - simpl in H. inversion H; subst. split; [lia|]. intros k t Hk. done.
  - simpl in H, Hn. destruct (py_index t0 applied) as [actual|] eqn:E.
    + match type of H with context [(Z.of_nat actual =? ?e)%Z] =>
        destruct (Z.of_nat actual =? e)%Z end; [|discriminate].
      apply IH in H as [H1 H2]; [|lia|lia]. split; [done|].
      intros [|k] t Hk Ht; simpl in Hk.
      * inversion Hk; subst. congruence.
      * specialize (H2 k t Hk Ht). lia.
    + destruct (expected =? -1)%Z.
      * apply IH in H as [H1 H2]; [|lia|lia].
        assert (a' = 0) as -> by lia. split; intros; lia.
      * destruct (expected =? Z.of_nat (length applied))%Z; [|discriminate].
        apply IH in H as [H1 H2]; [|lia|destruct (append =? n) eqn:En; [lia|];
                                       apply Nat.eqb_neq in En; lia].
        destruct (append =? n) eqn:En.
        -- apply Nat.eqb_eq in En. specialize (H1 ltac:(lia)). split; [lia|].
           intros k t Hk Ht. lia.
        -- apply Nat.eqb_neq in En. specialize (H1 En). split; [lia|].
           intros k t Hk Ht. lia.
Qed.

(** After an exact application the applied tools are, as a set, the desired
    tools. *)
Lemma prepare_tools_exact_set s tools :
  ∀ t, t ∈ applied_tools (prepare_tools s tools true) ↔ t ∈ tools.
Proof.
  intros t. unfold prepare_tools.
  destruct (find_start true (applied_tools s) tools) as [reset start] eqn:E.
  rewrite apply_tool_list_applied. destruct reset.
  - pose proof (find_start_reset true (applied_tools s) tools) as Hr.
    rewrite E in Hr. specialize (Hr eq_refl). inversion Hr; subst. by rewrite drop_0.
  - unfold find_start in E.
    destruct (exact_reset true (applied_tools s) tools) eqn:Hx; [discriminate|].
    destruct (scan_tools _ _ _ _ _ _) as [[|] append] eqn:Hs; [discriminate|].
    inversion E; subst start. clear E.
    assert (Hsub : ∀ t, t ∈ applied_tools s → t ∈ tools).
    { intros t' Ht'. unfold exact_reset in Hx. simpl in Hx.
      apply negb_false_iff in Hx. rewrite forallb_forall in Hx.
      apply py_in_true, Hx. by apply list_elem_of_In. }
    apply scan_tools_append_le in Hs as [_ Hle]; [|simpl; lia|by left].
    rewrite elem_of_app. split.
    + intros [Ht|Ht]; [auto|]. apply list_elem_of_lookup in Ht as (k & Hk).
      rewrite lookup_drop in Hk. by eapply list_elem_of_lookup_2.
    + intros Ht. destruct (decide (t ∈ applied_tools s)) as [Hin|Hnin]; [by left|].
      right. apply list_elem_of_lookup in Ht as (k & Hk).
      apply py_index_None in Hnin. specialize (Hle k t Hk Hnin). simpl in Hle.
      apply list_elem_of_lookup. exists (k - append). rewrite lookup_drop.
      by replace (append + (k - append)) with k by lia.
Qed.

Lemma collect_all_spec h todo :
  ∀ tools checks,
    collect_all h todo tools checks = (tools ++ tools_of h todo, checks ++ checks_of h todo).
Proof.
  induction todo as [|r todo IH]; intros tools checks; simpl.
  - unfold tools_of, checks_of. simpl. by rewrite !app_nil_r.
  - rewrite IH. f_equal.
    + unfold tools_of. simpl.
      destruct (Tool (h !!! r)) as [t|] eqn:Et; simpl; [|done].
      destruct (negb (String.eqb t "")); simpl; by rewrite <- ?app_assoc.
    + unfold checks_of. simpl.
      destruct (Checks (Specification (h !!! r))) as [[|c l]|]; simpl;
        by rewrite <- ?app_assoc.
Qed.

(** C5 (amended). When [Finalize] returns, the applied tools are, as a set,
    precisely the tools of the committed augments; the environment returned
    is the current one with the post-configure variables written. The checks
    of the committed augments are passed as optional checks: only checks of
    committed augments are executed, each of them is remembered afterwards,
    each one that was not remembered before is executed, when the exact
    application needs no reset a check remembered from an earlier pass is
    not executed again, and when it resets the session every check of the
    committed augments is executed. *)
Theorem Finalize_exact_tools s s' env :
  Finalize s = Ok (s', env) →
  (∀ t, t ∈ applied_tools s' ↔ t ∈ tools_of (heap s) (_augments s))
  ∧ env = _current s' ∧ _augments s' = _augments s ∧ heap s' = heap s
  ∧ ∃ new,
      exec_log s' = exec_log s ++ new
      ∧ (∀ c, c ∈ new.*1 → c ∈ checks_of (heap s) (_augments s))
      ∧ (∀ c, c ∈ checks_of (heap s) (_augments s) → c ∈ applied_checks s')
      ∧ (∀ c, c ∈ checks_of (heap s) (_augments s) →
              c ∉ applied_checks s → c ∈ new.*1)
      ∧ (∀ c, (find_start true (applied_tools s) (tools_of (heap s) (_augments s))).1
                = false →
              c ∈ applied_checks s → c ∉ new.*1)
      ∧ (∀ c, (find_start true (applied_tools s) (tools_of (heap s) (_augments s))).1
                = true →
              c ∈ checks_of (heap s) (_augments s) → c ∈ new.*1).
Proof.
  unfold Finalize. rewrite collect_all_spec. simpl.
  set (tools := tools_of (heap s) (_augments s)).
  set (checks := checks_of (heap s) (_augments s)).
  destruct (_apply_env s tools true None (Some checks)) as [[s1 failed]|e] eqn:Happly;
    [|discriminate].
  simpl. intros H. inversion H; subst s' env. clear H. simpl.
  pose proof Happly as Hcov.
  apply apply_env_log in Happly
    as (new1 & new2 & Hlog & _ & Hreq & Hopt & Hrem & Hkeep & Hheap & Haug & _ & _ & Htools).
  simpl in Hreq. apply fmap_nil_inv in Hreq. subst new1. simpl in *.
  split_and!; auto.
  - intros t. rewrite Htools. apply prepare_tools_exact_set.
  - exists new2. split_and!; auto.
    + intros c Hc. apply list_elem_of_fmap in Hc as (e & -> & He). by apply Hopt.
    + intros c Hc Hnew.
      destruct (apply_env_covers _ _ _ _ _ _ _ new2 Hcov Hlog c Hc) as [Hk|Hk]; [|done].
      unfold prepare_tools in Hk.
      destruct (find_start true (applied_tools s) tools) as [reset start].
      destruct (apply_tool_list_fields (if reset then reset_environment s else s)
                  (drop start tools)) as (_ & _ & _ & _ & _ & Hac).
      rewrite Hac in Hk. destruct reset; [by apply elem_of_nil in Hk|contradiction].
    + intros c Hreset Hc Hin. apply list_elem_of_fmap in Hin as (e & -> & He).
      apply Hopt in He as (_ & _ & Hfresh). apply Hfresh.
      by rewrite prepare_tools_checks.
    + intros c Hreset Hc.
      destruct (apply_env_covers _ _ _ _ _ _ _ new2 Hcov Hlog c Hc) as [Hk|Hk]; [|done].
      unfold prepare_tools in Hk.
      destruct (find_start true (applied_tools s) tools) as [reset start].
      simpl in Hreset. subst reset.
      destruct (apply_tool_list_fields (reset_environment s) (drop start tools))
        as (_ & _ & _ & _ & _ & Hac).
      rewrite Hac in Hk. by apply elem_of_nil in Hk.
Qed.

(** ** Component selection *)

Lemma scan_matches_first present pre x post :
  (∀ y, y ∈ pre → present y = false) → present x = true →
  scan_matches present (pre ++ x :: post) 0 = (Some x, 0%Z).
Proof.
  intros Hpre Hx. induction pre as [|y pre IH]; simpl.
  - by rewrite Hx.
  - rewrite (Hpre y) by (by left). apply IH. intros z Hz. apply Hpre. by right.
Qed.

Lemma scan_matches_none present visit offset :
  (∀ y, y ∈ visit → present y = false) →
  scan_matches present visit offset = (None, offset).
Proof.
  intros Hv. induction visit as [|y visit IH]; simpl; [done|].
  rewrite (Hv y) by (by left). apply IH. intros z Hz. apply Hv. by right.
Qed.

(** C7. For an augment that has no component and no tool yet, whose
    specification lists a candidate that is a key of the base environment,
    the initial selection (offset 0) takes the first such candidate from the
    base environment: the augment gets that component, no tool, and is
    marked not valid. The cache is left as it was, its count of look-ups
    included, and the result needs no fuel: [GetTool] is not called. (The
    empty string is no key of an SCons environment.) *)
Theorem local_component_first fuel s r pre x post :
  r < length (heap s) →
  Tool (heap s !!! r) = None → Component (heap s !!! r) = None →
  Components (Specification (heap s !!! r)) = Some (pre ++ x :: post) →
  (∀ y, y ∈ pre → _base s !! y = None) → is_Some (_base s !! x) →
  _base s !! "" = None →
  ∃ s',
    _set_component fuel s r 0 = Some (Ok (s', true))
    ∧ heap s' !!! r = {| Specification := Specification (heap s !!! r);
                         Tool := None; Component := Some x; Valid := false |}
    ∧ _cache s' = _cache s
    ∧ (∀ r', r' ≠ r → heap s' !!! r' = heap s !!! r')
    ∧ _augments s' = _augments s.
Proof.
  intros Hr Ht Hc Hcs Hpre Hx Hempty.
  assert (Hne : x ≠ "").
  { intros ->. rewrite Hempty in Hx. by destruct Hx. }
  assert (Hrun : _set_component fuel s r 0
            = Some (Ok (set_cache
                          (set_heap s
                             (<[r := {| Specification := Specification (heap s !!! r);
                                        Tool := None; Component := Some x;
                                        Valid := false |}]> (heap s)))
                          (_cache s), true))).
  { unfold _set_component. cbv zeta. rewrite Hcs, Ht, Hc. simpl.
    unfold set_component_local. simpl. rewrite drop_0.
    rewrite scan_matches_first.
    - simpl. by destruct (String.eqb_spec x "").
    - intros y Hy. apply bool_decide_eq_false. rewrite (Hpre y Hy). by intros [? ?].
    - by apply bool_decide_eq_true. }
  eexists. split; [exact Hrun|]. simpl. split_and!; auto.
  - by apply list_lookup_total_insert_eq.
  - intros r' Hr'. by apply list_lookup_total_insert_ne.
Qed.

(** ** The start of a request *)

Lemma pre_configure_fields s :
  heap (pre_configure s) = heap s ∧ _cache (pre_configure s) = _cache s
  ∧ _base (pre_configure s) = _base s ∧ _augments (pre_configure s) = _augments s
  ∧ exec_log (pre_configure s) = exec_log s.
Proof. unfold pre_configure. by destruct (_ && _). Qed.

Lemma py_item_ends components :
  components ≠ [] →
  ∃ first last,
    py_item components 0 = Ok first
    ∧ py_item components (length components - 1) = Ok last
    ∧ start_index components (Some first) = Ok 0.
Proof.
  intros Hne. destruct components as [|first rest]; [done|].
  assert (Hlt : length (first :: rest) - 1 < length (first :: rest)) by (simpl; lia).
  destruct (lookup_lt_is_Some_2 _ _ Hlt) as (last & Hlast).
  exists first, last. unfold py_item. rewrite Hlast. split_and!; [done|done|].
  unfold start_index. destruct (truthy_str (Some first)); [|done].
  simpl. by rewrite decide_True.
Qed.

(** The constructor yields [None] or a non-empty tuple of components. *)
Lemma init_components_nonempty id name component check depends :
  Components (ConfExSpecification_init id name component check depends) ≠ Some [].
Proof.
  simpl. destruct component as [|a|[|x l]]; simpl; try done.
  by destruct (negb (String.eqb a "")).
Qed.

(** ** The search works on clones

    References at or above [n] are the clones and the new augment of the
    current call; everything below [n] is the heap as it was. *)

Lemma mark_augments_take n failed todo :
  ∀ h invalid h' invalid',
    Forall (le n) todo → Forall (le n) invalid →
    mark_augments failed todo h invalid = (h', invalid') →
    take n h' = take n h ∧ Forall (le n) invalid'.
Proof.
  induction todo as [|r todo IH]; intros h invalid h' invalid' Htodo Hinv H; simpl in H.
  - by inversion H; subst.
  - apply Forall_cons in Htodo as [Hr Htodo].
    apply IH in H as [H1 H2]; auto.
    + split; [|done]. rewrite H1. by apply take_insert_ge.
    + destruct (valid_after failed (h !!! r)); [done|].
      apply Forall_app. split; [done|]. by apply Forall_singleton.
Qed.

Lemma validate_keeps n s augments s' invalid :
  Forall (le n) augments →
  _validate_augments s augments = Ok (s', invalid) →
  take n (heap s') = take n (heap s) ∧ _augments s' = _augments s
  ∧ _base s' = _base s ∧ Forall (le n) invalid.
Proof.
  intros Hfresh. unfold _validate_augments.
  destruct (collect_invalid (heap s) augments augments [] [] [])
    as [[tools checks] depends_checks].
  destruct (_apply_env s tools false (Some checks) (Some depends_checks))
    as [[s1 failed]|e] eqn:Happly; [|discriminate].
  simpl.
  destruct (mark_augments failed augments (heap s1) []) as [h' invalid'] eqn:Hmark.
  intros H. inversion H; subst s' invalid. clear H. simpl.
  apply apply_env_log in Happly
    as (_ & _ & _ & _ & _ & _ & _ & _ & Hheap & Haug & _ & Hbase & _).
  apply (mark_augments_take n) in Hmark as [H1 H2]; auto.
  rewrite Hheap in H1. done.
Qed.

Lemma set_component_keeps n fuel s r offset s' found :
  n ≤ r →
  _set_component fuel s r offset = Some (Ok (s', found)) →
  take n (heap s') = take n (heap s) ∧ _augments s' = _augments s
  ∧ _base s' = _base s.
Proof.
  intros Hr. unfold _set_component. cbv zeta.
  destruct (Components (Specification (heap s !!! r))) as [components|]; [|discriminate].
  destruct (try_sources _ _ _ _ _ _ _ _) as [[[[[component tool]|] c]|e]|];
    try discriminate; intros H; inversion H; subst; simpl; [|done].
  split; [|done]. by apply take_insert_ge.
Qed.

Lemma find_position_other c h augment rest :
  ∀ i tool_present overlap active_idx o,
    find_position c h augment rest i tool_present overlap active_idx
      = Ok (Incompatible o) →
    o ∈ rest.
Proof.
  induction rest as [|o0 rest IH]; intros i tool_present overlap active_idx o H;
    simpl in H; [discriminate|].
  destruct (truthy_str (Tool augment) && bool_decide (Tool augment = Tool (h !!! o0))).
  - apply elem_of_cons. right. eauto.
  - destruct (overlaps_placed c augment (h !!! o0)) as [ov|e]; [|discriminate].
    destruct (shadowed_by c augment (h !!! o0)) as [[|]|e]; [| |discriminate].
    + destruct (ov || overlap || tool_present).
      * inversion H; subst. by left.
      * apply elem_of_cons. right. eauto.
    + apply elem_of_cons. right. eauto.
Qed.

Lemma order_loop_Forall (P : nat → Prop) c h todo :
  ∀ ordered result,
    Forall P todo → Forall P ordered →
    order_loop c h todo ordered = Ok result →
    match result with
    | inl (a, o) => P a ∧ P o
    | inr l => Forall P l
    end.
Proof.
  induction todo as [|r todo IH]; intros ordered result Htodo Hord H; simpl in H.
  - by inversion H; subst.
  - apply Forall_cons in Htodo as [Hr Htodo].
    destruct (flagged_no_overlap c (h !!! r)) as [overlap|e]; [|discriminate].
    simpl in H.
    destruct (find_position c h (h !!! r) ordered 0 false overlap 0)
      as [[active_idx|o]|e] eqn:Hpos; [| |discriminate]; simpl in H.
    + apply IH in H; auto.
      apply Forall_app. split; [by apply Forall_take|].
      apply Forall_cons. split; [done|]. by apply Forall_drop.
    + inversion H; subst. split; [done|].
      apply find_position_other in Hpos. rewrite Forall_forall in Hord. auto.
Qed.

Lemma order_augments_Forall (P : nat → Prop) c h augments incompatibility augments' :
  Forall P augments →
  _order_augments c h augments = Ok (incompatibility, augments') →
  Forall P augments'
  ∧ match incompatibility with
    | Some (a, o) => P a ∧ P o
    | None => True
    end.
Proof.
  intros HP. unfold _order_augments.
  destruct (order_loop c h (reverse augments) []) as [result|e] eqn:Hloop; [|discriminate].
  simpl. apply (order_loop_Forall P) in Hloop; [|by apply Forall_reverse|done].
  destruct result as [[a o]|l]; intros H; inversion H; subst.
  - split; [by apply Forall_reverse|done].
  - done.
Qed.

Lemma delta_add_Forall (P : nat → Prop) d0 d1 augment offset :
  Forall P d0 → P augment → Forall P (delta_add (d0, d1) augment offset).1.
Proof.
  intros Hd Ha. unfold delta_add. destruct (py_index augment d0) as [idx|].
  - destruct (_ =? _)%Z; simpl; [|done]. by apply Forall_delete.
  - simpl. apply Forall_app. split; [done|]. by apply Forall_singleton.
Qed.

Lemma foldl_delta_add_Forall (P : nat → Prop) offset l :
  ∀ d, Forall P d.1 → Forall P l →
       Forall P (foldl (fun d augment => delta_add d augment offset) d l).1.
Proof.
  induction l as [|a l IH]; intros [d0 d1] Hd Hl; simpl; [done|].
  apply Forall_cons in Hl as [Ha Hl]. apply IH; [|done].
  by apply delta_add_Forall.
Qed.

Lemma change_delta_of_Forall (P : nat → Prop) change last_change :
  Forall P change → Forall P last_change →
  Forall P (change_delta_of change last_change).1.
Proof.
  intros Hc Hl. unfold change_delta_of.
  apply foldl_delta_add_Forall; [|done]. by apply foldl_delta_add_Forall.
Qed.

Lemma apply_delta_keeps n fuel :
  ∀ d0 d1 s i s' stopped,
    Forall (le n) d0 →
    apply_delta fuel s d0 d1 i = Some (Ok (s', stopped)) →
    take n (heap s') = take n (heap s) ∧ _augments s' = _augments s
    ∧ _base s' = _base s.
Proof.
  induction d0 as [|augment d0 IH]; intros d1 s i s' stopped Hd H; simpl in H.
  - by inversion H; subst.
  - destruct d1 as [|offset d1]; [by inversion H; subst|].
    apply Forall_cons in Hd as [Ha Hd].
    destruct (_set_component fuel s augment offset) as [[[s1 [|]]|e]|] eqn:Hset;
      try discriminate.
    + apply (set_component_keeps n) in Hset as (H1 & H2 & H3); [|done].
      apply IH in H as (H4 & H5 & H6); [|done]. rewrite H4, H5, H6. done.
    + inversion H; subst. by apply (set_component_keeps n) in Hset.
Qed.

Lemma replay_one_Forall (P : nat → Prop) k offset augment :
  ∀ change change',
    Forall P change → P augment →
    replay_one k offset augment change = Ok change' → Forall P change'.
Proof.
  induction k as [|k IH]; intros change change' Hc Ha H; simpl in H.
  - by inversion H; subst.
  - destruct (0 <? offset)%Z.
    + eapply IH; [| |exact H]; [|done].
      apply Forall_app. split; [done|]. by apply Forall_singleton.
    + unfold py_remove in H. destruct (py_index augment change) as [i|]; [|discriminate].
      simpl in H. eapply IH; [| |exact H]; [|done]. by apply Forall_delete.
Qed.

Lemma replay_delta_Forall (P : nat → Prop) :
  ∀ d0 d1 change change',
    Forall P d0 → Forall P change →
    replay_delta d0 d1 change = Ok change' → Forall P change'.
Proof.
  induction d0 as [|augment d0 IH]; intros d1 change change' Hd Hc H; simpl in H.
  - by inversion H; subst.
  - destruct d1 as [|offset d1]; [by inversion H; subst|].
    apply Forall_cons in Hd as [Ha Hd].
    destruct (replay_one (Z.abs_nat offset) offset augment change) as [change1|e] eqn:H1;
      [|discriminate].
    simpl in H. apply (replay_one_Forall P) in H1; auto. eapply IH; eauto.
Qed.

Lemma reconfigure_keeps n fuel s change changes s' change' changes' moved :
  Forall (le n) change → Forall (Forall (le n)) changes →
  reconfigure fuel s change changes = Some (Ok (s', change', changes', moved)) →
  take n (heap s') = take n (heap s) ∧ _augments s' = _augments s
  ∧ _base s' = _base s
  ∧ Forall (le n) change' ∧ Forall (Forall (le n)) changes'.
Proof.
  intros Hc Hcs. unfold reconfigure.
  destruct (reverse changes) as [|top rest] eqn:Hrev; [discriminate|].
  assert (Hall : Forall (Forall (le n)) (top :: rest)).
  { rewrite <- Hrev. by apply Forall_reverse. }
  apply Forall_cons in Hall as [Htop Hrest].
  pose proof (change_delta_of_Forall (le n) top change Htop Hc) as Hd.
  destruct (change_delta_of top change) as [d0 d1]. simpl in Hd.
  destruct (apply_delta fuel s d0 d1 0) as [[[s1 [i|]]|e]|] eqn:Happ; try discriminate.
  - destruct (replay_delta (take i d0) (take i d1) change) as [change1|e] eqn:Hrep;
      [|discriminate].
    intros H. inversion H; subst. clear H.
    apply (apply_delta_keeps n) in Happ as (H1 & H2 & H3); [|done].
    split_and!; auto.
    + eapply (replay_delta_Forall (le n)); [| |exact Hrep]; [|done]. by apply Forall_take.
    + by apply Forall_reverse.
  - intros H. inversion H; subst. clear H.
    apply (apply_delta_keeps n) in Happ as (H1 & H2 & H3); [|done].
    split_and!; auto. by apply Forall_reverse.
Qed.

Lemma AddAugment_loop_keeps n fuel :
  ∀ do_loop s augments change changes s',
    Forall (le n) augments → Forall (le n) change → Forall (Forall (le n)) changes →
    AddAugment_loop fuel do_loop s augments change changes = Some (Ok (s', false)) →
    take n (heap s') = take n (heap s) ∧ _augments s' = _augments s
    ∧ _base s' = _base s.
Proof.
  induction fuel as [|fuel IH]; intros do_loop s augments change changes s' Ha Hc Hcs H;
    simpl in H; [discriminate|].
  destruct (negb do_loop && bool_decide (changes = [])); [by inversion H; subst|].
  assert (Hstep : ∀ s1 change1 changes1,
            take n (heap s1) = take n (heap s) → _augments s1 = _augments s →
            _base s1 = _base s →
            Forall (le n) change1 → Forall (Forall (le n)) changes1 →
            match _order_augments (_cache s1) (heap s1) augments with
            | Ok (Some (a, o), augments0) =>
              AddAugment_loop fuel false s1 augments0 change1
                (changes1 ++ [change1 ++ [a]; change1 ++ [o]])
            | Ok (None, augments0) =>
              match _validate_augments s1 augments0 with
              | Ok (s2, []) => Some (Ok (set_augments s2 augments0, true))
              | Ok (s2, (_ :: _) as conflicting_augments) =>
                AddAugment_loop fuel false s2 augments0 change1
                  (changes1 ++ ((λ augment, change1 ++ [augment]) <$> conflicting_augments))
              | Exc e => Some (Exc e)
              end
            | Exc e => Some (Exc e)
            end = Some (Ok (s', false)) →
            take n (heap s') = take n (heap s) ∧ _augments s' = _augments s
            ∧ _base s' = _base s).
  { intros s1 change1 changes1 E1 E2 E3 Hc1 Hcs1 Hrun.
    destruct (_order_augments (_cache s1) (heap s1) augments)
      as [[[[a o]|] augments0]|e] eqn:Hord; [| |discriminate].
    - apply (order_augments_Forall (le n)) in Hord as (Ha0 & Hra & Hro); [|done].
      apply IH in Hrun as (H1 & H2 & H3); auto.
      + rewrite H1, H2, H3. done.
      + apply Forall_app. split; [done|].
        repeat (apply Forall_cons; split); [| |done];
          (apply Forall_app; split; [done|by apply Forall_singleton]).
    - apply (order_augments_Forall (le n)) in Hord as (Ha0 & _); [|done].
      destruct (_validate_augments s1 augments0) as [[s2 invalid]|e] eqn:Hval;
        [|discriminate].
      apply (validate_keeps n) in Hval as (V1 & V2 & V3 & V4); [|done].
      destruct invalid as [|r invalid]; [discriminate|].
      apply IH in Hrun as (H1 & H2 & H3); auto.
      + rewrite H1, H2, H3, V1, V2, V3. done.
      + apply Forall_app. split; [done|]. apply Forall_fmap.
        eapply Forall_impl; [exact V4|]. intros x Hx. simpl.
        apply Forall_app. split; [done|by apply Forall_singleton]. }
  destruct do_loop.
  - by apply (Hstep s change changes).
  - destruct (reconfigure fuel s change changes)
      as [[[[[s1 change1] changes1] moved]|e]|] eqn:Hrec; try discriminate.
    apply (reconfigure_keeps n) in Hrec as (R1 & R2 & R3 & R4 & R5); auto.
    destruct moved.
    + by apply (Hstep s1 change1 changes1).
    + apply IH in H as (H1 & H2 & H3); auto. rewrite H1, H2, H3. done.
Qed.

(** C9. Whenever [AddAugment] returns [False], the committed list of the
    session is the list it had before the call, and every augment object
    that existed before the call is untouched: the search has only written
    to the clones and to the new augment. *)
Theorem AddAugment_failure_keeps_augments fuel s spec s' :
  AddAugment fuel s spec = Some (Ok (s', false)) →
  _augments s' = _augments s
  ∧ take (length (heap s)) (heap s') = heap s
  ∧ (∀ r, r < length (heap s) → heap s' !!! r = heap s !!! r)
  ∧ _base s' = _base s.
Proof.
  intros H.
  assert (Hmain : _augments s' = _augments s
                  ∧ take (length (heap s)) (heap s') = heap s ∧ _base s' = _base s).
  { revert H. unfold AddAugment, _clone_augments.
    set (n := length (heap s)).
    set (h := heap s ++ ((λ r, heap s !!! r) <$> _augments s)).
    set (s1 := pre_configure (set_heap s (h ++ [new_augment spec]))).
    set (augments := seq n (length (_augments s)) ++ [length h]).
    destruct (pre_configure_fields (set_heap s (h ++ [new_augment spec])))
      as (Hheap & _ & Hbase & Haug & _).
    fold s1 in Hheap, Hbase, Haug. simpl in Hheap, Hbase, Haug.
    assert (Htake : take n (heap s1) = heap s).
    { rewrite Hheap. unfold h. rewrite <- app_assoc. apply take_app_length. }
    assert (Hfresh : Forall (le n) augments).
    { apply Forall_app. split.
      - apply Forall_forall. intros r Hr. apply elem_of_seq in Hr. lia.
      - apply Forall_singleton. unfold h. rewrite length_app. lia. }
    destruct (Components spec) as [components|].
    - destruct (_set_component fuel s1 (length h) 0) as [[[s2 do_loop]|e]|] eqn:Hset;
        try discriminate.
      apply (set_component_keeps n) in Hset as (S1 & S2 & S3);
        [|unfold h; rewrite length_app; lia].
      intros H. apply (AddAugment_loop_keeps n) in H as (H1 & H2 & H3); auto.
      rewrite H2, S2, Haug, H1, S1, Htake, H3, S3, Hbase. done.
    - destruct (_validate_augments s1 augments) as [[s2 invalid]|e] eqn:Hval;
        [|discriminate].
      apply (validate_keeps n) in Hval as (V1 & V2 & V3 & _); [|done].
      destruct invalid as [|r invalid]; [discriminate|].
      intros H. inversion H; subst s'. rewrite V1, V2, V3, Htake, Haug, Hbase. done. }
  destruct Hmain as (H1 & H2 & H3). split_and!; auto.
  intros r Hr. rewrite !list_lookup_total_alt. f_equal.
  transitivity (take (length (heap s)) (heap s') !! r);
    [symmetry; by apply lookup_take_lt|by rewrite H2].
Qed.

(** ** Ordering keeps the augments of one tool together *)

Lemma lookup_inserted {A : Type} (l : list A) (idx : nat) (x : A) (p : nat) :
  idx ≤ length l →
  (take idx l ++ x :: drop idx l) !! p
  = if decide (p < idx) then l !! p
    else if decide (p = idx) then Some x else l !! (p - 1).
Proof.
  intros Hidx.
  assert (Hlen : length (take idx l) = idx) by (rewrite length_take; lia).
  destruct (decide (p < idx)) as [Hlt|Hge].
  - rewrite lookup_app_l by lia. by apply lookup_take_lt.
  - rewrite lookup_app_r by lia. rewrite Hlen.
    destruct (decide (p = idx)) as [->|Hne].
    + by rewrite Nat.sub_diag.
    + destruct (p - idx) as [|d] eqn:Hd; [lia|]. simpl.
      rewrite lookup_drop. f_equal. lia.
Qed.

(** Inserting a key keeps the list contiguous when the new key splits no
    range of another tool and lands next to the range of its own tool. *)
Lemma contiguous_insert keys idx x :
  contiguous keys → idx ≤ length keys →
  (∀ tool, x ≠ Some tool →
     ¬ (0 < idx ∧ keys !! (idx - 1) = Some (Some tool)
        ∧ keys !! idx = Some (Some tool))) →
  (∀ tool p, x = Some tool → keys !! p = Some (Some tool) →
     ∀ q, (p ≤ q ∧ q < idx) ∨ (idx ≤ q ∧ q ≤ p) → keys !! q = Some (Some tool)) →
  contiguous (take idx keys ++ x :: drop idx keys).
Proof.
  intros Hc Hidx Hsplit Hnear i j k tool Hij Hjk.
  rewrite !lookup_inserted by done.
  destruct (decide (j < idx)) as [Hj|Hj].
  - rewrite decide_True by lia. intros Hi.
    destruct (decide (k < idx)) as [Hk|Hk].
    + intros Hk'. by apply (Hc i j k).
    + destruct (decide (k = idx)) as [->|Hne].
      * intros [= ->]. apply (Hnear tool i); auto.
      * intros Hk'. apply (Hc i j (k - 1)); auto; lia.
  - destruct (decide (j = idx)) as [->|Hjne].
    + destruct (decide (x = Some tool)) as [->|Hx]; [done|].
      destruct (decide (i < idx)) as [Hi|Hi].
      * intros Hi'. rewrite decide_False by lia.
        destruct (decide (k = idx)) as [->|Hne]; [by intros [= ->]|].
        intros Hk'. exfalso. apply (Hsplit tool Hx). split_and!; [lia| |].
        -- apply (Hc i (idx - 1) (k - 1)); auto; lia.
        -- apply (Hc i idx (k - 1)); auto; lia.
      * rewrite decide_True by lia. by intros [= ->].
    + rewrite (decide_False (P := k < idx)) by lia.
      rewrite (decide_False (P := k = idx)) by lia.
      destruct (decide (i < idx)) as [Hi|Hi].
      * intros Hi' Hk'. apply (Hc i (j - 1) (k - 1)); auto; lia.
      * destruct (decide (i = idx)) as [->|Hine].
        -- intros [= ->] Hk'. apply (Hnear tool (k - 1)); auto. right. lia.
        -- intros Hi' Hk'. apply (Hc (i - 1) (j - 1) (k - 1)); auto; lia.
Qed.

Lemma same_tool_key augment placed :
  same_tool augment placed = true
  ↔ ∃ tool, tool_key augment = Some tool ∧ tool_key placed = Some tool.
Proof.
  unfold same_tool, tool_key. rewrite andb_true_iff, bool_decide_eq_true. split.
  - intros [Ht Heq]. rewrite <- Heq, Ht.
    destruct (Tool augment) as [tool|]; [eauto|discriminate].
  - intros (tool & Ha & Hp).
    destruct (truthy_str (Tool augment)) eqn:Hta; [|discriminate].
    destruct (truthy_str (Tool placed)) eqn:Htp; [|discriminate].
    split; [done|]. congruence.
Qed.

Lemma shadowed_by_key c augment p p' tool :
  tool_key p = Some tool → tool_key p' = Some tool →
  shadowed_by c augment p = shadowed_by c augment p'.
Proof.
  unfold tool_key, shadowed_by. intros Hp Hp'.
  destruct (truthy_str (Tool p)); [|discriminate].
  destruct (truthy_str (Tool p')); [|discriminate].
  by rewrite Hp, Hp'.
Qed.

Lemma shadowed_by_has_key c augment p :
  shadowed_by c augment p = Ok true → ∃ tool, tool_key p = Some tool.
Proof.
  unfold tool_key, shadowed_by. destruct (truthy_str (Tool p)) eqn:Ht; [|discriminate].
  intros _. destruct (Tool p) as [tool|]; [eauto|discriminate].
Qed.

Lemma find_position_bound c h augment rest :
  ∀ i tool_present overlap active_idx idx,
    active_idx ≤ i →
    find_position c h augment rest i tool_present overlap active_idx = Ok (Place idx) →
    idx ≤ i + length rest.
Proof.
  induction rest as [|o rest IH]; intros i tool_present overlap active_idx idx Hle H;
    simpl in H.
  - inversion H; subst. lia.
  - simpl.
    destruct (truthy_str (Tool augment) && bool_decide (Tool augment = Tool (h !!! o))).
    + apply IH in H; [lia|]. destruct tool_present; lia.
    + destruct (overlaps_placed c augment (h !!! o)) as [ov|e]; [|discriminate].
      destruct (shadowed_by c augment (h !!! o)) as [[|]|e]; [| |discriminate].
      * destruct (ov || overlap || tool_present); [discriminate|].
        apply IH in H; lia.
      * apply IH in H; lia.
Qed.

(** Once the tool was seen, the position stays where it was seen first. *)
Lemma find_position_present c h augment rest :
  ∀ i overlap active_idx idx,
    find_position c h augment rest i true overlap active_idx = Ok (Place idx) →
    idx = active_idx.
Proof.
  induction rest as [|o rest IH]; intros i overlap active_idx idx H; simpl in H.
  - by inversion H.
  - destruct (truthy_str (Tool augment) && bool_decide (Tool augment = Tool (h !!! o))).
    + by apply IH in H.
    + destruct (overlaps_placed c augment (h !!! o)) as [ov|e]; [|discriminate].
      destruct (shadowed_by c augment (h !!! o)) as [[|]|e]; [| |discriminate].
      * rewrite orb_true_r in H. discriminate.
      * by apply IH in H.
Qed.

(** The tool is placed already: the augment goes in front of its first
    occurrence. *)
Lemma find_position_first c h augment rest :
  ∀ i overlap active_idx idx m o,
    rest !! m = Some o → same_tool augment (h !!! o) = true →
    (∀ m' o', m' < m → rest !! m' = Some o' → same_tool augment (h !!! o') = false) →
    find_position c h augment rest i false overlap active_idx = Ok (Place idx) →
    idx = i + m.
Proof.
  induction rest as [|o0 rest IH]; intros i overlap active_idx idx m o Hm Hsame Hfirst H;
    [done|].
  simpl in H. fold (same_tool augment (h !!! o0)) in H.
  destruct m as [|m].
  - simpl in Hm. inversion Hm; subst o0. rewrite Hsame in H.
    apply find_position_present in H. lia.
  - simpl in Hm. rewrite (Hfirst 0 o0) in H by (done || lia).
    assert (Hfirst' : ∀ m' o', m' < m → rest !! m' = Some o' →
                               same_tool augment (h !!! o') = false).
    { intros m' o' Hlt Hl. apply (Hfirst (S m') o'); [lia|done]. }
    destruct (overlaps_placed c augment (h !!! o0)) as [ov|e]; [|discriminate].
    destruct (shadowed_by c augment (h !!! o0)) as [[|]|e]; [| |discriminate].
    + destruct (ov || overlap || false); [discriminate|].
      eapply IH in H; eauto. lia.
    + eapply IH in H; eauto. lia.
Qed.

(** The tool is not placed yet (or there is none): the augment goes right
    after the last placed augment whose tool provides its component. *)
Lemma find_position_absent c h augment rest :
  ∀ i overlap active_idx idx,
    (∀ o, o ∈ rest → same_tool augment (h !!! o) = false) →
    find_position c h augment rest i false overlap active_idx = Ok (Place idx) →
    (idx = active_idx ∧ ∀ o, o ∈ rest → shadowed_by c augment (h !!! o) = Ok false)
    ∨ (∃ m o, idx = S (i + m) ∧ rest !! m = Some o
              ∧ shadowed_by c augment (h !!! o) = Ok true
              ∧ ∀ m' o', m < m' → rest !! m' = Some o' →
                         shadowed_by c augment (h !!! o') = Ok false).
Proof.
  induction rest as [|o0 rest IH]; intros i overlap active_idx idx Habs H; simpl in H.
  - inversion H; subst. left. split; [done|]. intros o Ho. by apply elem_of_nil in Ho.
  - fold (same_tool augment (h !!! o0)) in H.
    rewrite (Habs o0) in H by (by left).
    assert (Habs' : ∀ o, o ∈ rest → same_tool augment (h !!! o) = false).
    { intros o Ho. apply Habs. by right. }
    destruct (overlaps_placed c augment (h !!! o0)) as [ov|e]; [|discriminate].
    destruct (shadowed_by c augment (h !!! o0)) as [[|]|e] eqn:Hsh; [| |discriminate].
    + destruct (ov || overlap || false); [discriminate|].
      apply IH in H as [[-> Hall]|(m & o & -> & Hm & Hsh' & Hlater)]; auto.
      * right. exists 0, o0. split_and!; [lia|done|done|].
        intros [|m'] o' Hlt Hl; [lia|]. simpl in Hl.
        apply Hall. by eapply list_elem_of_lookup_2.
      * right. exists (S m), o. split_and!; [lia|done|done|].
        intros [|m'] o' Hlt Hl; [lia|]. simpl in Hl. apply (Hlater m'); [lia|done].
    + apply IH in H as [[-> Hall]|(m & o & -> & Hm & Hsh' & Hlater)]; auto.
      * left. split; [done|]. intros o Ho.
        apply elem_of_cons in Ho as [->|Ho]; auto.
      * right. exists (S m), o. split_and!; [lia|done|done|].
        intros [|m'] o' Hlt Hl; [lia|]. simpl in Hl. apply (Hlater m'); [lia|done].
Qed.

Lemma tool_keys_lookup h ordered m :
  tool_keys h ordered !! m = (fun o => tool_key (h !!! o)) <$> (ordered !! m).
Proof. unfold tool_keys. apply list_lookup_fmap. Qed.

(** One step of the ordering loop keeps the placed augments contiguous. *)
Lemma find_position_contiguous c h augment ordered overlap idx :
  contiguous (tool_keys h ordered) →
  find_position c h augment ordered 0 false overlap 0 = Ok (Place idx) →
  idx ≤ length ordered
  ∧ contiguous (take idx (tool_keys h ordered)
                ++ tool_key augment :: drop idx (tool_keys h ordered)).
Proof.
  intros Hc Hpos.
  pose proof (find_position_bound _ _ _ _ _ _ _ _ _ (Nat.le_refl 0) Hpos) as Hidx.
  simpl in Hidx. split; [done|].
  apply contiguous_insert; [done|by unfold tool_keys; rewrite length_fmap| |].
  - (* no range of another tool is split *)
    intros tool Hx (Hpos0 & Hprev & Hat).
    destruct (list_find (fun o => same_tool augment (h !!! o) = true) ordered)
      as [[m o]|] eqn:Hfind.
    + apply list_find_Some in Hfind as (Hm & Hsame & Hfirst).
      assert (idx = 0 + m) as ->.
      { eapply find_position_first; eauto. intros m' o' Hlt Hl.
        apply not_true_is_false. by eapply Hfirst. }
      simpl in Hat. rewrite tool_keys_lookup, Hm in Hat. simpl in Hat.
      apply same_tool_key in Hsame as (t & Ha & Hp). congruence.
    + apply list_find_None in Hfind. rewrite Forall_forall in Hfind.
      apply find_position_absent in Hpos
        as [[-> _]|(m & o & -> & Hm & Hsh & Hlater)]; [lia| |].
      * simpl in Hprev. rewrite Nat.sub_0_r in Hprev.
        rewrite tool_keys_lookup, Hm in Hprev. simpl in Hprev.
        rewrite tool_keys_lookup in Hat.
        destruct (ordered !! S (0 + m)) as [o'|] eqn:Hm'; [|discriminate].
        simpl in Hat.
        assert (Hfalse : shadowed_by c augment (h !!! o') = Ok false).
        { apply (Hlater (S m)); [lia|done]. }
        rewrite (shadowed_by_key c augment (h !!! o') (h !!! o) tool) in Hfalse
          by congruence.
        congruence.
      * intros o Ho. apply not_true_is_false. by apply Hfind.
  - (* the range of the tool itself, if any, starts at the position *)
    intros tool p Hx Hp q Hq.
    rewrite tool_keys_lookup in Hp.
    destruct (ordered !! p) as [op|] eqn:Hop; [|discriminate]. simpl in Hp.
    assert (Hsp : same_tool augment (h !!! op) = true).
    { apply same_tool_key. exists tool. split; congruence. }
    destruct (list_find (fun o => same_tool augment (h !!! o) = true) ordered)
      as [[m o]|] eqn:Hfind.
    + apply list_find_Some in Hfind as (Hm & Hsame & Hfirst).
      assert (idx = 0 + m) as ->.
      { eapply find_position_first; eauto. intros m' o' Hlt Hl.
        apply not_true_is_false. by eapply Hfirst. }
      simpl in *.
      assert (Hmp : m ≤ p).
      { destruct (decide (m ≤ p)); [done|]. exfalso. apply (Hfirst p op); auto. lia. }
      destruct Hq as [Hq|Hq]; [lia|].
      apply (Hc m q p); [lia|lia| |].
      * rewrite tool_keys_lookup, Hm. simpl.
        apply same_tool_key in Hsame as (t & Ha & Hk). congruence.
      * rewrite tool_keys_lookup, Hop. simpl. congruence.
    + apply list_find_None in Hfind. rewrite Forall_forall in Hfind.
      exfalso. apply (Hfind op); [|done]. by eapply list_elem_of_lookup_2.
Qed.

Lemma tool_keys_inserted h ordered idx r :
  tool_keys h (take idx ordered ++ r :: drop idx ordered)
  = take idx (tool_keys h ordered) ++ tool_key (h !!! r) :: drop idx (tool_keys h ordered).
Proof. unfold tool_keys. by rewrite fmap_app, fmap_cons, fmap_take, fmap_drop. Qed.

Lemma order_loop_contiguous c h todo :
  ∀ ordered l,
    contiguous (tool_keys h ordered) →
    order_loop c h todo ordered = Ok (inr l) →
    contiguous (tool_keys h l).
Proof.
  induction todo as [|r todo IH]; intros ordered l Hc H; simpl in H.
  - by inversion H; subst.
  - destruct (flagged_no_overlap c (h !!! r)) as [overlap|e]; [|discriminate].
    simpl in H.
    destruct (find_position c h (h !!! r) ordered 0 false overlap 0)
      as [[active_idx|o]|e] eqn:Hpos; [| |discriminate]; simpl in H; [|discriminate].
    apply find_position_contiguous in Hpos as [_ Hc']; [|done].
    eapply IH; [|exact H]. by rewrite tool_keys_inserted.
Qed.

Lemma contiguous_nil : contiguous [].
Proof. intros i j k tool _ _ Hi. done. Qed.

Lemma order_augments_contiguous c h augments augments' :
  _order_augments c h augments = Ok (None, augments') →
  contiguous_tools h augments'.
Proof.
  unfold _order_augments.
  destruct (order_loop c h (reverse augments) []) as [[[a o]|l]|e] eqn:Hloop;
    try discriminate.
  intros H. inversion H; subst.
  eapply order_loop_contiguous; [|exact Hloop]. apply contiguous_nil.
Qed.

Lemma validate_same_choice s augments s' invalid :
  _validate_augments s augments = Ok (s', invalid) →
  ∀ r, same_choice (heap s' !!! r) (heap s !!! r).
Proof.
  unfold _validate_augments.
  destruct (collect_invalid (heap s) augments augments [] [] [])
    as [[tools checks] depends_checks].
  destruct (_apply_env s tools false (Some checks) (Some depends_checks))
    as [[s1 failed]|e] eqn:Happly; [|discriminate].
  simpl.
  destruct (mark_augments failed augments (heap s1) []) as [h' invalid'] eqn:Hmark.
  intros H. inversion H; subst s' invalid. clear H. simpl.
  apply apply_env_log in Happly
    as (_ & _ & _ & _ & _ & _ & _ & _ & Hheap & _).
  apply mark_augments_spec in Hmark as (_ & Hsame & _).
  by rewrite Hheap in Hsame.
Qed.

Lemma tool_keys_same h h' augments :
  (∀ r, same_choice (h' !!! r) (h !!! r)) →
  tool_keys h' augments = tool_keys h augments.
Proof.
  intros Hsame. unfold tool_keys. apply list_fmap_ext. intros i r _.
  destruct (Hsame r) as (_ & Ht & _). unfold tool_key. by rewrite Ht.
Qed.

Lemma AddAugment_loop_contiguous fuel :
  ∀ do_loop s augments change changes s',
    AddAugment_loop fuel do_loop s augments change changes = Some (Ok (s', true)) →
    contiguous_tools (heap s') (_augments s').
Proof.
  induction fuel as [|fuel IH]; intros do_loop s augments change changes s' H;
    simpl in H; [discriminate|].
  destruct (negb do_loop && bool_decide (changes = [])); [discriminate|].
  destruct (if do_loop then Some (Ok (s, change, changes, true))
            else reconfigure fuel s change changes)
    as [[[[[s1 change1] changes1] moved]|e]|]; try discriminate.
  destruct moved; [|by eapply IH].
  destruct (_order_augments (_cache s1) (heap s1) augments)
    as [[[[a o]|] augments0]|e] eqn:Hord; [by eapply IH| |discriminate].
  destruct (_validate_augments s1 augments0) as [[s2 invalid]|e] eqn:Hval;
    [|discriminate].
  destruct invalid as [|r invalid]; [|by eapply IH].
  inversion H; subst s'. simpl. unfold contiguous_tools.
  rewrite (tool_keys_same (heap s1)) by (by eapply validate_same_choice).
  by eapply order_augments_contiguous.
Qed.

(** The clones carry the tools of the originals, and the new augment has
    none. *)
Lemma tool_keys_clones h augments spec :
  tool_keys ((h ++ ((fun r => h !!! r) <$> augments)) ++ [new_augment spec])
            (seq (length h) (length augments)
             ++ [length (h ++ ((fun r => h !!! r) <$> augments))])
  = tool_keys h augments ++ [None].
Proof.
  unfold tool_keys. rewrite fmap_app. f_equal.
  - apply list_eq. intros i. rewrite !list_lookup_fmap.
    destruct (decide (i < length augments)) as [Hlt|Hge].
    + rewrite lookup_seq_lt by done.
      destruct (lookup_lt_is_Some_2 augments i Hlt) as (r & Hr). rewrite Hr. simpl.
      do 2 f_equal. rewrite <- app_assoc.
      rewrite lookup_total_app_r by lia.
      replace (length h + i - length h) with i by lia.
      rewrite lookup_total_app_l by (rewrite length_fmap; lia).
      by rewrite list_lookup_total_alt, list_lookup_fmap, Hr.
    + rewrite lookup_seq_ge by lia. rewrite lookup_ge_None_2 by lia. done.
  - simpl. by rewrite list_lookup_total_middle.
Qed.

Lemma contiguous_snoc_None keys : contiguous keys → contiguous (keys ++ [None]).
Proof.
  intros Hc.
  pose proof (contiguous_insert keys (length keys) None Hc (Nat.le_refl _)) as H.
  rewrite firstn_all, skipn_all in H. apply H.
  - intros tool _ (_ & _ & Hat). by rewrite lookup_ge_None_2 in Hat.
  - intros tool p Hx. discriminate.
Qed.

(** C6. When [AddAugment] succeeds from a committed list in which the
    augments of each tool are contiguous, the list it commits has the same
    property: the augments that have one and the same tool occupy a range of
    positions without gaps. (The committed list of a new session is empty,
    so the property holds after every successful call.) *)
Theorem AddAugment_contiguous fuel s spec s' :
  contiguous_tools (heap s) (_augments s) →
  AddAugment fuel s spec = Some (Ok (s', true)) →
  contiguous_tools (heap s') (_augments s').
Proof.
  intros Hc. unfold AddAugment, _clone_augments.
  set (h := heap s ++ ((λ r, heap s !!! r) <$> _augments s)).
  set (s1 := pre_configure (set_heap s (h ++ [new_augment spec]))).
  destruct (pre_configure_fields (set_heap s (h ++ [new_augment spec])))
    as (Hheap & _).
  fold s1 in Hheap. simpl in Hheap.
  destruct (Components spec) as [components|].
  - destruct (_set_component fuel s1 (length h) 0) as [[[s2 do_loop]|e]|];
      try discriminate.
    apply AddAugment_loop_contiguous.
  - destruct (_validate_augments s1 (seq (length (heap s)) (length (_augments s))
                                      ++ [length h]))
      as [[s2 invalid]|e] eqn:Hval; [|discriminate].
    destruct invalid as [|r invalid]; [|discriminate].
    intros H. inversion H; subst s'. simpl. unfold contiguous_tools.
    rewrite (tool_keys_same (heap s1)) by (by eapply validate_same_choice).
    rewrite Hheap. unfold h. rewrite tool_keys_clones.
    by apply contiguous_snoc_None.
Qed.


(** * Further properties of the resolver *)

(** ** Ordering *)

Lemma inserted_Permutation {A : Type} (l : list A) (idx : nat) (x : A) :
  take idx l ++ x :: drop idx l ≡ₚ x :: l.
Proof.
  rewrite <- Permutation_middle. by rewrite take_drop.
Qed.

Lemma order_loop_Permutation c h todo :
  ∀ ordered l,
    order_loop c h todo ordered = Ok (inr l) → l ≡ₚ todo ++ ordered.
Proof.
  induction todo as [|r todo IH]; intros ordered l H; simpl in H.
  - by inversion H; subst.
  - destruct (flagged_no_overlap c (h !!! r)) as [overlap|e]; [|discriminate].
    simpl in H.
    destruct (find_position c h (h !!! r) ordered 0 false overlap 0)
      as [[active_idx|o]|e]; [| |discriminate]; simpl in H; [|discriminate].
    apply IH in H. rewrite H, inserted_Permutation. simpl.
    by rewrite Permutation_middle.
Qed.

Lemma order_augments_Permutation c h augments incompatibility augments' :
  _order_augments c h augments = Ok (incompatibility, augments') →
  augments' ≡ₚ augments.
Proof.
  unfold _order_augments.
  destruct (order_loop c h (reverse augments) []) as [result|e] eqn:Hloop; [|discriminate].
  simpl. destruct result as [[a o]|l]; intros H; inversion H; subst.
  - apply reverse_Permutation.
  - apply order_loop_Permutation in Hloop. rewrite Hloop, app_nil_r.
    by rewrite reverse_Permutation.
Qed.

(** X1. [_order_augments] loses and duplicates nothing: when it finds an
    order, the list it leaves is a permutation of the list it was given;
    when it gives up, the list is left reversed and the two augments it
    reports are members of it. *)
Theorem order_augments_permutation c h augments incompatibility augments' :
  _order_augments c h augments = Ok (incompatibility, augments') →
  match incompatibility with
  | None => augments' ≡ₚ augments
  | Some (a, o) => augments' = reverse augments ∧ a ∈ augments ∧ o ∈ augments
  end.
Proof.
  unfold _order_augments.
  destruct (order_loop c h (reverse augments) []) as [result|e] eqn:Hloop; [|discriminate].
  simpl. destruct result as [[a o]|l]; intros H; inversion H; subst.
  - split; [done|].
    apply (order_loop_Forall (fun r => r ∈ augments)) in Hloop; [done| |done].
    apply Forall_reverse, Forall_forall. by intros r Hr.
  - apply order_loop_Permutation in Hloop. rewrite Hloop, app_nil_r.
    by rewrite reverse_Permutation.
Qed.

Lemma find_position_no_tools c h augment rest :
  truthy_str (Tool augment) = false →
  (∀ o, o ∈ rest → truthy_str (Tool (h !!! o)) = false) →
  ∀ i overlap active_idx,
    find_position c h augment rest i false overlap active_idx = Ok (Place active_idx).
Proof.
  intros Ha. induction rest as [|o rest IH]; intros Hrest i overlap active_idx; [done|].
  simpl. rewrite Ha. simpl. unfold overlaps_placed, shadowed_by.
  rewrite Ha, (Hrest o) by (by left). apply IH. intros o' Ho'. apply Hrest. by right.
Qed.

Lemma order_loop_no_tools c h todo :
  ∀ ordered,
    (∀ r, r ∈ todo ++ ordered → truthy_str (Tool (h !!! r)) = false) →
    order_loop c h todo ordered = Ok (inr (reverse todo ++ ordered)).
Proof.
  induction todo as [|r todo IH]; intros ordered Hno; [done|].
  simpl. unfold flagged_no_overlap. rewrite (Hno r) by (by left). simpl.
  rewrite find_position_no_tools.
  - simpl. rewrite IH.
    + by rewrite reverse_cons, <- app_assoc.
    + intros r' Hr'. apply Hno. apply elem_of_app in Hr' as [Hr'|Hr'].
      * apply elem_of_app. left. by right.
      * apply elem_of_cons in Hr' as [->|Hr']; [by left|].
        apply elem_of_app. by right.
  - apply Hno. by left.
  - intros o Ho. apply Hno. right. apply elem_of_app. by right.
Qed.

(** X2. Augments that are all satisfied locally (none has a tool) are left
    in the order in which they were requested: the reversal at the start of
    [_order_augments] is undone by inserting each augment at the front. *)
Theorem order_augments_no_tools c h augments :
  (∀ r, r ∈ augments → truthy_str (Tool (h !!! r)) = false) →
  _order_augments c h augments = Ok (None, augments).
Proof.
  intros Hno. unfold _order_augments. rewrite order_loop_no_tools.
  - simpl. by rewrite reverse_involutive, app_nil_r.
  - intros r Hr. rewrite app_nil_r in Hr. apply Hno. by apply elem_of_reverse.
Qed.

(** ** Validation of a list that is valid already *)

Lemma collect_invalid_all_valid h augments todo :
  (∀ r, r ∈ augments → Valid (h !!! r) = true) →
  (∀ r, r ∈ todo → Valid (h !!! r) = true) →
  ∀ tools checks depends_checks,
    collect_invalid h augments todo tools checks depends_checks
    = (tools, checks, depends_checks).
Proof.
  intros Hall. induction todo as [|r todo IH]; intros Htodo tools checks depends_checks;
    [done|].
  simpl. rewrite (Htodo r) by (by left). simpl.
  assert (Hdep : is_dependency h augments (h !!! r) = false).
  { unfold is_dependency. apply not_true_is_false. intros H.
    apply existsb_exists in H as (d & Hd & Hc). apply list_elem_of_In in Hd.
    rewrite (Hall d Hd) in Hc. discriminate. }
  rewrite Hdep. simpl. apply IH. intros r' Hr'. apply Htodo. by right.
Qed.

Lemma set_env_id s :
  set_env s (_current s) (applied_tools s) (applied_checks s) (pre_applied s) (exec_log s)
  = s.
Proof. by destruct s. Qed.

Lemma set_heap_id s : set_heap s (heap s) = s.
Proof. by destruct s. Qed.

Lemma mark_augments_all_valid todo :
  ∀ h, (∀ r, r ∈ todo → Valid (h !!! r) = true) →
       mark_augments [] todo h [] = (h, []).
Proof.
  induction todo as [|r todo IH]; intros h Hv; [done|].
  simpl.
  assert (Hnone : ∀ a, valid_after [] a = true) by done.
  rewrite Hnone.
  assert (Hid : <[r := set_Valid (h !!! r) true]> h = h).
  { destruct (h !! r) as [a|] eqn:Hr.
    - apply list_insert_id. rewrite Hr. f_equal.
      rewrite (list_lookup_total_correct _ _ _ Hr).
      pose proof (Hv r ltac:(by left)) as Hva.
      rewrite (list_lookup_total_correct _ _ _ Hr) in Hva.
      destruct a; simpl in *; by subst.
    - apply list_insert_ge. by apply lookup_ge_None. }
  rewrite Hid. apply IH. intros r' Hr'. apply Hv. by right.
Qed.

(** X3. Validating a list whose augments are all valid does nothing: no tool
    is applied, no check is executed, no augment changes, and the list of
    invalid augments is empty. *)
Theorem validate_all_valid_is_noop s augments :
  (∀ r, r ∈ augments → Valid (heap s !!! r) = true) →
  _validate_augments s augments = Ok (s, []).
Proof.
  intros Hv. unfold _validate_augments.
  rewrite collect_invalid_all_valid by done.
  unfold _apply_env, prepare_tools, find_start, exact_reset. simpl.
  unfold apply_tool_list. simpl. rewrite set_env_id.
  unfold run_all_checks. simpl. rewrite set_env_id. simpl.
  rewrite mark_augments_all_valid by done. by rewrite set_heap_id.
Qed.

(** ** What [_apply_env] leaves applied *)

Lemma prepare_tools_applies tools exact s :
  ∀ t, t ∈ tools → t ∈ applied_tools (prepare_tools s tools exact).
Proof.
  intros t Ht. unfold prepare_tools.
  destruct (find_start exact (applied_tools s) tools) as [reset start] eqn:E.
  rewrite apply_tool_list_applied. destruct reset.
  - pose proof (find_start_reset exact (applied_tools s) tools) as Hr.
    rewrite E in Hr. specialize (Hr eq_refl). inversion Hr; subst. by rewrite drop_0.
  - unfold find_start in E.
    destruct (exact_reset exact (applied_tools s) tools); [discriminate|].
    destruct (scan_tools _ _ _ _ _ _) as [[|] append] eqn:Hs; [discriminate|].
    inversion E; subst start. clear E.
    apply scan_tools_append_le in Hs as [_ Hle]; [|simpl; lia|by left].
    apply elem_of_app.
    destruct (decide (t ∈ applied_tools s)) as [Hin|Hnin]; [by left|].
    right. apply list_elem_of_lookup in Ht as (k & Hk).
    apply py_index_None in Hnin. specialize (Hle k t Hk Hnin). simpl in Hle.
    apply list_elem_of_lookup. exists (k - append). rewrite lookup_drop.
    by replace (append + (k - append)) with k by lia.
Qed.

(** X4. Whenever [_apply_env] returns, exact or not, with or without a
    reset, every tool it was asked for is among the applied tools: checks
    never run in an environment that lacks a requested tool. Without a
    reset the tools applied before are kept, in their order, at the front. *)
Theorem apply_env_applies_requested s tools exact req opt s' failed :
  _apply_env s tools exact req opt = Ok (s', failed) →
  (∀ t, t ∈ tools → t ∈ applied_tools s')
  ∧ ((find_start exact (applied_tools s) tools).1 = false →
     applied_tools s `prefix_of` applied_tools s').
Proof.
  intros H.
  apply apply_env_log in H as (_ & _ & _ & _ & _ & _ & _ & _ & _ & _ & _ & _ & Htools).
  rewrite Htools. split; [apply prepare_tools_applies|].
  intros Hreset. unfold prepare_tools.
  destruct (find_start exact (applied_tools s) tools) as [reset start].
  simpl in Hreset. subst reset. rewrite apply_tool_list_applied.
  by apply prefix_app_r.
Qed.

(** ** The cache only grows *)

Lemma cache_extends_refl c : cache_extends c c.
Proof. unfold cache_extends. split_and!; auto. Qed.

Lemma cache_extends_trans c1 c2 c3 :
  cache_extends c1 c2 → cache_extends c2 c3 → cache_extends c1 c3.
Proof.
  intros (A1 & A2 & A3 & A4 & A5) (B1 & B2 & B3 & B4 & B5).
  unfold cache_extends. split_and!; auto; try congruence.
  intros t Ht. destruct (B3 t Ht) as [H|H]; [|by right].
  destruct (A3 t H) as [H'|H']; [by left|]. right. by apply B1.
Qed.

Lemma elem_of_py_insert {A : Type} (i : Z) (x y : A) (l : list A) :
  y ∈ py_insert i x l ↔ y = x ∨ y ∈ l.
Proof.
  unfold py_insert.
  set (k := Z.to_nat (if (i <? 0)%Z then Z.max 0 (i + Z.of_nat (length l))
                      else Z.min i (Z.of_nat (length l)))).
  assert (Hl : y ∈ l ↔ y ∈ take k l ∨ y ∈ drop k l).
  { rewrite <- (take_drop k l) at 1. apply elem_of_app. }
  rewrite elem_of_app, elem_of_cons. clear -Hl. tauto.
Qed.

Lemma elem_of_place_tool tool tool_idx ts t :
  t ∈ place_tool tool tool_idx ts ↔ t = tool ∨ t ∈ ts.
Proof.
  unfold place_tool. destruct (py_index tool ts) as [orig_idx|] eqn:Hidx.
  - apply py_index_Some in Hidx.
    assert (Htool : tool ∈ ts) by (by eapply list_elem_of_lookup_2).
    destruct (tool_idx <? Z.of_nat orig_idx)%Z.
    + rewrite elem_of_py_insert. split; intros [->|H]; auto.
      * right. by eapply list_elem_of_delete_inv.
      * destruct (decide (t = tool)) as [->|Hne]; [by left|]. right.
        rewrite delete_take_drop.
        rewrite <- (take_drop_middle ts orig_idx tool Hidx) in H.
        rewrite elem_of_app in *. rewrite elem_of_cons in H. clear -H Hne. tauto.
    + split; [by right|]. by intros [->|H].
  - by rewrite elem_of_py_insert.
Qed.

Lemma AddTool_inner_extends fuel :
  ∀ tools tools_stack tool_idx offset c tools_stack' offset' c',
    AddTool_inner fuel tools tools_stack tool_idx offset c
      = Some (tools_stack', offset', c') →
    cache_extends c c'
    ∧ match tools with
      | [] => True
      | tool :: _ => is_Some (CacheComponents c' !! tool) ∧ tool ∈ Tools c'
      end.
Proof.
  induction fuel as [|fuel IH];
    intros tools tools_stack tool_idx offset c tools_stack' offset' c' H;
    simpl in H; [discriminate|].
  destruct tools as [|tool tools].
  - inversion H; subst. split; [apply cache_extends_refl|done].
  - set (c1 := set_Tools c (place_tool tool tool_idx (Tools c))) in *.
    assert (E1 : cache_extends c c1).
    { unfold cache_extends, c1. simpl. split_and!; auto.
      intros t Ht. apply elem_of_place_tool. by right. }
    assert (T1 : tool ∈ Tools c1).
    { unfold c1. simpl. apply elem_of_place_tool. by left. }
    assert (Hc1 : CacheComponents c1 = CacheComponents c) by done.
    destruct (CacheComponents c !! tool) as [provided|] eqn:Hknown;
      rewrite <- Hc1 in Hknown.
    + apply IH in H as [E2 _]. split; [by eapply cache_extends_trans|].
      destruct E2 as (K & M & _). split; [rewrite (K _ _ Hknown); eauto|auto].
    + destruct (Detect tool) as [toolchain components] eqn:Hdet.
      set (c2 := set_Components c1 tool components) in *.
      assert (E2 : cache_extends c1 c2).
      { unfold cache_extends, c2. simpl. split_and!; auto.
        - intros t provided Ht. rewrite lookup_insert_ne; [done|]. congruence.
        - intros t Ht. destruct (decide (tool = t)) as [<-|Hne].
          + right. rewrite lookup_insert_eq. by rewrite Hdet.
          + left. by rewrite lookup_insert_ne in Ht. }
      assert (K2 : CacheComponents c2 !! tool = Some components).
      { unfold c2. simpl. apply lookup_insert_eq. }
      assert (Hfin : ∀ c', cache_extends c2 c' →
                 cache_extends c c'
                 ∧ is_Some (CacheComponents c' !! tool) ∧ tool ∈ Tools c').
      { intros c0 E3. split; [eauto using cache_extends_trans|].
        destruct E3 as (K & M & _). split; [rewrite (K _ _ K2); eauto|].
        apply M. unfold c2. simpl. exact T1. }
      destruct (1 <? length toolchain); apply IH in H as [E3 _]; by apply Hfin.
Qed.

Lemma AddTool_outer_extends fuel :
  ∀ tools_stack tool_idx offset c c',
    AddTool_outer fuel tools_stack tool_idx offset c = Some c' →
    cache_extends c c'
    ∧ match tools_stack with
      | (tool :: _) :: _ => is_Some (CacheComponents c' !! tool) ∧ tool ∈ Tools c'
      | _ => True
      end.
Proof.
  induction fuel as [|fuel IH]; intros tools_stack tool_idx offset c c' H;
    simpl in H; [discriminate|].
  destruct tools_stack as [|tools tools_stack].
  - inversion H; subst. split; [apply cache_extends_refl|done].
  - destruct (AddTool_inner fuel tools tools_stack (tool_idx - offset) offset c)
      as [[[tools_stack1 offset1] c1]|] eqn:Hin; [|discriminate].
    apply AddTool_inner_extends in Hin as [E1 Hhead].
    apply IH in H as [E2 _]. split; [by eapply cache_extends_trans|].
    destruct tools as [|tool tools]; [done|].
    destruct Hhead as [[provided Hk] Ht]. destruct E2 as (K & M & _).
    split; [rewrite (K _ _ Hk); eauto|auto].
Qed.

Lemma AddTool_cache_extends fuel c tool c' :
  AddTool fuel c tool = Some c' → cache_extends c c'.
Proof.
  unfold AddTool.
  set (c0 := if py_in tool (Tools c) then c else set_Tools c (Tools c ++ [tool])).
  assert (E0 : cache_extends c c0).
  { unfold c0. destruct (py_in tool (Tools c)); [apply cache_extends_refl|].
    unfold cache_extends. simpl. split_and!; auto.
    intros t Ht. apply elem_of_app. by left. }
  intros H. apply AddTool_outer_extends in H as [E1 Hk].
  by eapply cache_extends_trans.
Qed.

(** X5. [AddTool] only adds to the cache. When it returns, the tool is
    listed and its components are known; the components that were known for
    any tool before are unchanged (an entry is written at most once, with
    what [Detect] reports); every tool listed before is still listed. *)
Theorem AddTool_extends fuel c tool c' :
  AddTool fuel c tool = Some c' →
  cache_extends c c'
  ∧ is_Some (CacheComponents c' !! tool) ∧ tool ∈ Tools c'.
Proof.
  unfold AddTool.
  intros H. split; [by eapply AddTool_cache_extends|].
  unfold AddTool in H. by apply AddTool_outer_extends in H as [_ Hk].
Qed.

(** ** What a selection returns *)

Lemma scan_matches_sound present visit :
  ∀ offset x offset',
    scan_matches present visit offset = (Some x, offset') →
    x ∈ visit ∧ present x = true.
Proof.
  induction visit as [|y visit IH]; intros offset x offset' H; simpl in H; [discriminate|].
  assert (Hrec : ∀ offset, scan_matches present visit offset = (Some x, offset') →
                           x ∈ y :: visit ∧ present x = true).
  { intros o Ho. apply IH in Ho as [? ?]. split; [by right|done]. }
  destruct (present y) eqn:Hy; [|by eapply Hrec].
  destruct (offset <? 0)%Z; [by eapply Hrec|].
  destruct (0 <? offset)%Z; [by eapply Hrec|].
  inversion H; subst. split; [by left|done].
Qed.

Lemma elem_of_visit_from forward components component_idx x :
  x ∈ visit_from forward components component_idx → x ∈ components.
Proof.
  unfold visit_from. destruct forward; intros H.
  - apply list_elem_of_lookup in H as (k & Hk). rewrite lookup_drop in Hk.
    by eapply list_elem_of_lookup_2.
  - apply elem_of_reverse_2 in H. rewrite reverse_involutive in H.
    apply elem_of_take in H as (k & Hk & _).
    by eapply list_elem_of_lookup_2.
Qed.

Lemma GetTool_loop_sound forward components fuel :
  ∀ c tool_idx visit offset result offset' c',
    (∀ x, x ∈ visit → x ∈ components) →
    GetTool_loop fuel forward components c tool_idx visit offset
      = Some (result, offset', c') →
    cache_extends c c'
    ∧ ∀ x t, result = Some (x, t) →
             x ∈ components ∧ t ∈ Tools c'
             ∧ ∃ provided, CacheComponents c' !! t = Some provided
                           ∧ is_Some (provided !! x).
Proof.
  induction fuel as [|fuel IH]; intros c tool_idx visit offset result offset' c' Hvis H;
    simpl in H; [discriminate|].
  destruct ((tool_idx <? 0)%Z || (Z.of_nat (length (Tools c)) <=? tool_idx)%Z) eqn:Hout.
  - inversion H; subst. split; [apply cache_extends_refl|]. intros x t Hr. discriminate.
  - apply orb_false_iff in Hout as [H0 H1].
    apply Z.ltb_ge in H0. apply Z.leb_gt in H1.
    assert (Hlt : Z.to_nat tool_idx < length (Tools c)) by lia.
    destruct (lookup_lt_is_Some_2 _ _ Hlt) as (tool & Htool).
    rewrite Htool in H. simpl in H.
    destruct (CacheComponents c !! tool) as [provided|] eqn:Hknown.
    + destruct (scan_matches _ visit offset) as [[component|] offset1] eqn:Hscan.
      * inversion H; subst. split; [apply cache_extends_refl|].
        intros x t [= <- <-]. apply scan_matches_sound in Hscan as [Hin Hp].
        split_and!; auto.
        -- by eapply list_elem_of_lookup_2.
        -- exists provided. split; [done|]. by apply bool_decide_eq_true in Hp.
      * destruct forward.
        -- apply IH in H; auto.
        -- apply IH in H; auto. intros x Hx. rewrite elem_of_reverse in Hx. done.
    + destruct (AddTool fuel c tool) as [c1|] eqn:Hadd; [|discriminate].
      apply AddTool_cache_extends in Hadd as E1.
      apply IH in H as [E2 Hres]; [|done].
      split; [by eapply cache_extends_trans|done].
Qed.

Lemma try_sources_sound fuel base components ref_tool :
  ∀ sources ref_component offset c x tool c',
    try_sources fuel base components ref_tool sources ref_component offset c
      = Some (Ok (Some (x, tool), c')) →
    x ∈ components
    ∧ match tool with
      | None => is_Some (base !! x)
      | Some t =>
        t ∈ Tools c'
        ∧ ∃ provided, CacheComponents c' !! t = Some provided
                      ∧ is_Some (provided !! x)
      end.
Proof.
  induction sources as [|src sources IH]; intros ref_component offset c x tool c' H;
    simpl in H; [discriminate|].
  destruct src.
  - unfold set_component_local in H.
    destruct (start_index components ref_component) as [component_idx|e];
      [|discriminate].
    simpl in H.
    destruct (scan_matches _ _ offset) as [[component|] offset1] eqn:Hscan; simpl in H.
    + destruct (negb (String.eqb component "")).
      * inversion H; subst. apply scan_matches_sound in Hscan as [Hin Hp].
        split; [by eapply elem_of_visit_from|]. by apply bool_decide_eq_true in Hp.
      * destruct (py_item components 0); [by eapply IH|discriminate].
    + destruct (py_item components 0); [by eapply IH|discriminate].
  - unfold GetTool in H.
    destruct (Tools (count_lookup c)) as [|t0 ts] eqn:Hts.
    + destruct (py_item components (length components - 1)); [by eapply IH|discriminate].
    + destruct (start_index components ref_component) as [component_idx|e];
        [|discriminate].
      destruct (start_index (t0 :: ts) ref_tool) as [tool_idx|e]; [|discriminate].
      destruct (GetTool_loop fuel (0 <=? offset)%Z components (count_lookup c)
                  (Z.of_nat tool_idx)
                  (visit_from (0 <=? offset)%Z components component_idx) offset)
        as [[[result offset1] c1]|] eqn:Hloop; [|discriminate].
      simpl in H. destruct result as [[component t]|].
      * inversion H; subst.
        apply GetTool_loop_sound in Hloop as [_ Hres];
          [|intros y Hy; by eapply elem_of_visit_from].
        by apply Hres.
      * destruct (py_item components (length components - 1)); [by eapply IH|discriminate].
Qed.

(** X6. What [_set_component] records is sound, for every offset: when it
    returns [True], the component of the augment is one of the candidates of
    its specification, and it is a key of the base environment when the
    augment got no tool, a component that the cache lists for the tool
    otherwise; the augment is marked not valid. When it returns [False] no
    augment has changed. Other augments, the committed list and the
    environment are never touched. *)
Theorem set_component_sound fuel s r offset s' found :
  r < length (heap s) →
  _set_component fuel s r offset = Some (Ok (s', found)) →
  (found = true →
     sound_choice (_base s') (_cache s') (heap s' !!! r)
     ∧ Specification (heap s' !!! r) = Specification (heap s !!! r)
     ∧ Valid (heap s' !!! r) = false)
  ∧ (found = false → heap s' = heap s)
  ∧ (∀ r', r' ≠ r → heap s' !!! r' = heap s !!! r')
  ∧ _augments s' = _augments s ∧ _current s' = _current s
  ∧ applied_tools s' = applied_tools s ∧ _base s' = _base s.
Proof.
  intros Hr. unfold _set_component. cbv zeta.
  destruct (Components (Specification (heap s !!! r))) as [components|] eqn:Hcs;
    [|discriminate].
  destruct (try_sources _ _ _ _ _ _ _ _) as [[[[[x tool]|] c]|e]|] eqn:Htry;
    try discriminate; intros H; inversion H; subst; simpl.
  - apply try_sources_sound in Htry as [Hin Hprov].
    rewrite list_lookup_total_insert_eq by done. simpl.
    split_and!; auto; try done.
    + intros _. split_and!; auto. exists x. simpl. rewrite Hcs. auto.
    + intros r' Hne. by apply list_lookup_total_insert_ne.
  - split_and!; auto; done.
Qed.

(** ** The first match wins *)

Lemma GetTool_loop_first components c x cpre cpost t provided :
  components = cpre ++ x :: cpost →
  CacheComponents c !! t = Some provided →
  (∀ y, y ∈ cpre → provided !! y = None) → is_Some (provided !! x) →
  ∀ pre done post fuel,
    Tools c = done ++ pre ++ t :: post →
    (∀ u, u ∈ pre → ∃ known, CacheComponents c !! u = Some known
                             ∧ ∀ y, y ∈ components → known !! y = None) →
    length pre < fuel →
    GetTool_loop fuel true components c (Z.of_nat (length done)) components 0
    = Some (Some (x, t), 0%Z, c).
Proof.
  intros Hcs Ht Hcpre Hx.
  assert (Hstep : ∀ done u rest,
            Tools c = done ++ u :: rest →
            ((Z.of_nat (length done) <? 0)%Z
             || (Z.of_nat (length (Tools c)) <=? Z.of_nat (length done))%Z) = false
            ∧ Tools c !! Z.to_nat (Z.of_nat (length done)) = Some u).
  { intros done u rest Htools. split.
    - apply orb_false_iff. split; [apply Z.ltb_ge; lia|].
      apply Z.leb_gt. rewrite Htools, length_app. simpl. lia.
    - rewrite Nat2Z.id, Htools. by apply list_lookup_middle. }
  induction pre as [|u pre IH]; intros done post fuel Htools Hpre Hfuel.
  - destruct fuel as [|fuel]; [simpl in Hfuel; lia|].
    destruct (Hstep done t post Htools) as [Hrange Hlook].
    simpl. rewrite Hrange, Hlook. simpl. rewrite Ht.
    rewrite Hcs at 1. rewrite scan_matches_first; [done| |by apply bool_decide_eq_true].
    intros y Hy. apply bool_decide_eq_false. rewrite (Hcpre y Hy). by intros [? ?].
  - destruct fuel as [|fuel]; [simpl in Hfuel; lia|].
    destruct (Hstep done u (pre ++ t :: post) Htools) as [Hrange Hlook].
    simpl. rewrite Hrange, Hlook. simpl.
    destruct (Hpre u ltac:(by left)) as (known & Hk & Hnone). rewrite Hk.
    rewrite scan_matches_none.
    2:{ intros y Hy. apply bool_decide_eq_false. rewrite (Hnone y Hy). by intros [? ?]. }
    specialize (IH (done ++ [u]) post fuel).
    rewrite length_app in IH. simpl in IH.
    replace (Z.of_nat (length done) + 1)%Z with (Z.of_nat (length done + 1)) by lia.
    apply IH.
    + rewrite Htools, <- app_assoc. done.
    + intros u' Hu'. apply Hpre. by right.
    + simpl in Hfuel. lia.
Qed.

(** X7. A first look-up ([offset] 0, no reference component, no reference
    tool) in a cache whose tools are examined returns the first pair in
    cache order: the first tool that provides any of the candidates, with
    the first candidate that this tool provides. The cache is unchanged but
    for its count of look-ups, and one step of fuel per tool suffices. *)
Theorem GetTool_first_match fuel c components x cpre cpost t provided pre post :
  components = cpre ++ x :: cpost →
  Tools c = pre ++ t :: post →
  (∀ u, u ∈ pre → ∃ known, CacheComponents c !! u = Some known
                           ∧ ∀ y, y ∈ components → known !! y = None) →
  CacheComponents c !! t = Some provided →
  (∀ y, y ∈ cpre → provided !! y = None) → is_Some (provided !! x) →
  length pre < fuel →
  GetTool fuel c components None None 0 = Some (Ok (Some (x, t), 0%Z, count_lookup c)).
Proof.
  intros Hcs Htools Hpre Ht Hcpre Hx Hfuel.
  pose proof (GetTool_loop_first components (count_lookup c) x cpre cpost t provided
                Hcs Ht Hcpre Hx pre [] post fuel Htools Hpre Hfuel) as Hloop.
  unfold GetTool.
  assert (Htc : Tools (count_lookup c) = pre ++ t :: post) by done.
  destruct (Tools (count_lookup c)) as [|t0 ts] eqn:Hne.
  { by destruct pre. }
  unfold start_index. cbn [truthy_str visit_from Z.leb Z.compare].
  rewrite drop_0. change (Z.of_nat (length (@nil string))) with (Z.of_nat 0) in Hloop.
  by rewrite Hloop.
Qed.

(** ** What a successful [AddAugment] commits *)

Lemma same_specs_refl h : same_specs h h.
Proof. by split. Qed.

Lemma same_specs_trans h1 h2 h3 :
  same_specs h1 h2 → same_specs h2 h3 → same_specs h1 h3.
Proof.
  intros [L1 S1] [L2 S2]. split; [congruence|]. intros r. by rewrite S2, S1.
Qed.

Lemma same_specs_insert h r (a : ConfExEnvironmentAugment) :
  Specification a = Specification (h !!! r) → same_specs h (<[r := a]> h).
Proof.
  intros Ha. split; [apply length_insert|]. intros r'.
  rewrite lookup_total_insert_augment. case_decide as Hd; [|done].
  destruct Hd as [-> _]. done.
Qed.

Lemma set_component_specs fuel s r offset s' found :
  _set_component fuel s r offset = Some (Ok (s', found)) →
  same_specs (heap s) (heap s').
Proof.
  unfold _set_component. cbv zeta.
  destruct (Components (Specification (heap s !!! r))) as [components|]; [|discriminate].
  destruct (try_sources _ _ _ _ _ _ _ _) as [[[[[x tool]|] c]|e]|];
    try discriminate; intros H; inversion H; subst; simpl.
  - by apply same_specs_insert.
  - apply same_specs_refl.
Qed.

Lemma apply_delta_specs fuel :
  ∀ d0 d1 s i s' stopped,
    apply_delta fuel s d0 d1 i = Some (Ok (s', stopped)) →
    same_specs (heap s) (heap s').
Proof.
  induction d0 as [|augment d0 IH]; intros d1 s i s' stopped H; simpl in H.
  - inversion H; subst. apply same_specs_refl.
  - destruct d1 as [|offset d1]; [inversion H; subst; apply same_specs_refl|].
    destruct (_set_component fuel s augment offset) as [[[s1 [|]]|e]|] eqn:Hset;
      try discriminate; apply set_component_specs in Hset.
    + apply IH in H. by eapply same_specs_trans.
    + by inversion H; subst.
Qed.

Lemma reconfigure_specs fuel s change changes s' change' changes' moved :
  reconfigure fuel s change changes = Some (Ok (s', change', changes', moved)) →
  same_specs (heap s) (heap s').
Proof.
  unfold reconfigure. destruct (reverse changes) as [|top rest]; [discriminate|].
  destruct (change_delta_of top change) as [d0 d1].
  destruct (apply_delta fuel s d0 d1 0) as [[[s1 [i|]]|e]|] eqn:Happ; try discriminate;
    apply apply_delta_specs in Happ.
  - destruct (replay_delta _ _ _); [|discriminate]. intros H. by inversion H; subst.
  - intros H. by inversion H; subst.
Qed.

(** What a validation that finds nothing invalid leaves behind. *)
Lemma validate_none_invalid s augments s' :
  _validate_augments s augments = Ok (s', []) →
  same_specs (heap s) (heap s')
  ∧ ∀ r, r ∈ augments → r < length (heap s) → Valid (heap s' !!! r) = true.
Proof.
  unfold _validate_augments.
  destruct (collect_invalid (heap s) augments augments [] [] [])
    as [[tools checks] depends_checks].
  destruct (_apply_env s tools false (Some checks) (Some depends_checks))
    as [[s1 failed]|e] eqn:Happly; [|discriminate].
  simpl.
  destruct (mark_augments failed augments (heap s1) []) as [h' invalid'] eqn:Hmark.
  intros H. inversion H; subst s' invalid'. clear H. simpl.
  apply apply_env_log in Happly
    as (_ & _ & _ & _ & _ & _ & _ & _ & Hheap & _).
  apply mark_augments_spec in Hmark as (Hlen & Hsame & _ & Hin & Hinv).
  rewrite Hheap in *. split.
  - split; [done|]. intros r. by destruct (Hsame r).
  - intros r Hr Hlt. rewrite Hin by done.
    destruct (valid_after failed (heap s !!! r)) eqn:Hv; [done|].
    exfalso. simpl in Hinv.
    assert (Hmem : r ∈ filter (λ r, valid_after failed (heap s !!! r) = false) augments).
    { apply list_elem_of_filter. by split. }
    rewrite <- Hinv in Hmem. by apply elem_of_nil in Hmem.
Qed.

Lemma validate_specs s augments s' invalid :
  _validate_augments s augments = Ok (s', invalid) →
  same_specs (heap s) (heap s').
Proof.
  unfold _validate_augments.
  destruct (collect_invalid (heap s) augments augments [] [] [])
    as [[tools checks] depends_checks].
  destruct (_apply_env s tools false (Some checks) (Some depends_checks))
    as [[s1 failed]|e] eqn:Happly; [|discriminate].
  simpl.
  destruct (mark_augments failed augments (heap s1) []) as [h' invalid'] eqn:Hmark.
  intros H. inversion H; subst s' invalid'. clear H. simpl.
  apply apply_env_log in Happly
    as (_ & _ & _ & _ & _ & _ & _ & _ & Hheap & _).
  apply mark_augments_spec in Hmark as (Hlen & Hsame & _).
  rewrite Hheap in *. split; [done|]. intros r. by destruct (Hsame r).
Qed.

Lemma AddAugment_loop_commits fuel :
  ∀ do_loop s augments change changes s',
    AddAugment_loop fuel do_loop s augments change changes = Some (Ok (s', true)) →
    same_specs (heap s) (heap s')
    ∧ _augments s' ≡ₚ augments
    ∧ (Forall (fun r => r < length (heap s)) augments →
       ∀ r, r ∈ _augments s' → Valid (heap s' !!! r) = true).
Proof.
  induction fuel as [|fuel IH]; intros do_loop s augments change changes s' H;
    simpl in H; [discriminate|].
  destruct (negb do_loop && bool_decide (changes = [])); [discriminate|].
  assert (Hpre : ∃ s1 change1 changes1 moved,
            same_specs (heap s) (heap s1)
            ∧ (if do_loop then Some (Ok (s, change, changes, true))
               else reconfigure fuel s change changes)
              = Some (Ok (s1, change1, changes1, moved))).
  { destruct do_loop.
    - exists s, change, changes, true. split; [apply same_specs_refl|done].
    - destruct (reconfigure fuel s change changes)
        as [[[[[s1 change1] changes1] moved]|e]|] eqn:Hrec; try discriminate.
      exists s1, change1, changes1, moved. split; [|done].
      by eapply reconfigure_specs. }
  destruct Hpre as (s1 & change1 & changes1 & moved & S1 & Hpre).
  rewrite Hpre in H.
  assert (Hrec : ∀ s2 augments2 change2 changes2,
            same_specs (heap s) (heap s2) → augments2 ≡ₚ augments →
            AddAugment_loop fuel false s2 augments2 change2 changes2
              = Some (Ok (s', true)) →
            same_specs (heap s) (heap s')
            ∧ _augments s' ≡ₚ augments
            ∧ (Forall (fun r => r < length (heap s)) augments →
               ∀ r, r ∈ _augments s' → Valid (heap s' !!! r) = true)).
  { intros s2 augments2 change2 changes2 S2 P2 Hrun.
    apply IH in Hrun as (S3 & P3 & V3). split_and!.
    - by eapply same_specs_trans.
    - by rewrite P3.
    - intros Hok. apply V3. destruct S2 as [L2 _]. rewrite L2. by rewrite P2. }
  destruct moved; [|by eapply Hrec].
  destruct (_order_augments (_cache s1) (heap s1) augments)
    as [[[[a o]|] augments0]|e] eqn:Hord; [| |discriminate].
  - apply order_augments_Permutation in Hord.
    eapply Hrec; [exact S1|exact Hord|exact H].
  - apply order_augments_Permutation in Hord.
    destruct (_validate_augments s1 augments0) as [[s2 invalid]|e] eqn:Hval;
      [|discriminate].
    destruct invalid as [|r0 invalid].
    + inversion H; subst s'. simpl.
      apply validate_none_invalid in Hval as [S2 V2]. split_and!.
      * by eapply same_specs_trans.
      * done.
      * intros Hok r Hr. apply V2; [done|].
        destruct S1 as [L1 _]. rewrite L1.
        rewrite Forall_forall in Hok. apply Hok. by rewrite <- Hord.
    + apply validate_specs in Hval.
      eapply Hrec; [|exact Hord|exact H]. by eapply same_specs_trans.
Qed.

Lemma clones_fmap {B : Type} (f : ConfExEnvironmentAugment → B) h augments a :
  (fun r => f (((h ++ ((fun r => h !!! r) <$> augments)) ++ [a]) !!! r))
    <$> (seq (length h) (length augments)
         ++ [length (h ++ ((fun r => h !!! r) <$> augments))])
  = ((fun r => f (h !!! r)) <$> augments) ++ [f a].
Proof.
  rewrite fmap_app. f_equal.
  - apply list_eq. intros i. rewrite !list_lookup_fmap.
    destruct (decide (i < length augments)) as [Hlt|Hge].
    + rewrite lookup_seq_lt by done.
      destruct (lookup_lt_is_Some_2 augments i Hlt) as (r & Hr). rewrite Hr. simpl.
      do 2 f_equal. rewrite <- app_assoc.
      rewrite lookup_total_app_r by lia.
      replace (length h + i - length h) with i by lia.
      rewrite lookup_total_app_l by (rewrite length_fmap; lia).
      by rewrite list_lookup_total_alt, list_lookup_fmap, Hr.
    + rewrite lookup_seq_ge by lia. rewrite lookup_ge_None_2 by lia. done.
  - simpl. by rewrite list_lookup_total_middle.
Qed.

(** X8. A successful [AddAugment] commits one augment per augment that was
    committed before, with the specification it had, and one for the new
    specification: nothing is lost and nothing is duplicated. The committed
    augments are the new objects of this call (clones and the new augment),
    and each of them is marked valid. *)
Theorem AddAugment_commits fuel s spec s' :
  AddAugment fuel s spec = Some (Ok (s', true)) →
  specs_of (heap s') (_augments s') ≡ₚ specs_of (heap s) (_augments s) ++ [spec]
  ∧ length (_augments s') = S (length (_augments s))
  ∧ ∀ r, r ∈ _augments s' →
         length (heap s) ≤ r ∧ r < length (heap s') ∧ Valid (heap s' !!! r) = true.
Proof.
  unfold AddAugment, _clone_augments.
  set (n := length (heap s)).
  set (h := heap s ++ ((λ r, heap s !!! r) <$> _augments s)).
  set (s1 := pre_configure (set_heap s (h ++ [new_augment spec]))).
  set (A := seq n (length (_augments s)) ++ [length h]).
  destruct (pre_configure_fields (set_heap s (h ++ [new_augment spec])))
    as (Hheap & _).
  fold s1 in Hheap. simpl in Hheap.
  assert (Hlh : length h = n + length (_augments s)).
  { unfold h. by rewrite length_app, length_fmap. }
  assert (HA : ∀ r, r ∈ A → n ≤ r ∧ r < length (heap s1)).
  { intros r Hr. rewrite Hheap, length_app. simpl. unfold A in Hr.
    apply elem_of_app in Hr as [Hr|Hr].
    - apply elem_of_seq in Hr. lia.
    - apply list_elem_of_singleton in Hr. lia. }
  intros H.
  assert (Hmain : same_specs (heap s1) (heap s') ∧ _augments s' ≡ₚ A
                  ∧ ∀ r, r ∈ _augments s' → Valid (heap s' !!! r) = true).
  { destruct (Components spec) as [components|].
    - destruct (_set_component fuel s1 (length h) 0) as [[[s2 do_loop]|e]|] eqn:Hset;
        try discriminate.
      apply set_component_specs in Hset.
      apply AddAugment_loop_commits in H as (S3 & P3 & V3).
      split_and!; [by eapply same_specs_trans|done|].
      apply V3. apply Forall_forall. intros r Hr.
      destruct Hset as [L _]. rewrite L. by apply HA.
    - destruct (_validate_augments s1 A) as [[s2 invalid]|e] eqn:Hval; [|discriminate].
      destruct invalid as [|r0 invalid]; [|discriminate].
      inversion H; subst s'. simpl.
      apply validate_none_invalid in Hval as [S2 V2].
      split_and!; [done|done|]. intros r Hr. apply V2; [done|]. by apply HA. }
  destruct Hmain as ([Hlen Hspecs] & Hperm & Hvalid). split_and!.
  - unfold specs_of. rewrite Hperm.
    assert (Hext : (fun r => Specification (heap s' !!! r)) <$> A
                   = (fun r => Specification (heap s1 !!! r)) <$> A).
    { apply list_fmap_ext. intros i r _. apply Hspecs. }
    rewrite Hext, Hheap. unfold A, h, n. by rewrite (clones_fmap Specification).
  - rewrite Hperm. unfold A. rewrite length_app, length_seq. simpl. lia.
  - intros r Hr. split_and!; [|rewrite Hlen|by apply Hvalid];
      apply HA; by rewrite <- Hperm.
Qed.

(** ** [CheckLink] *)

Lemma isa_matches_unique table isa name1 name2 :
  isa_matches table isa name1 = true → isa_matches table isa name2 = true →
  name1 = name2.
Proof.
  unfold isa_matches. destruct (table isa) as [name|]; [|discriminate].
  intros H1 H2. apply String.eqb_eq in H1, H2. congruence.
Qed.

Lemma link_output_ok_isa linked link_file output_format isa1 isa2 :
  isa1 ≠ "" → isa2 ≠ "" →
  link_output_ok linked link_file output_format isa1 = true →
  link_output_ok linked link_file output_format isa2 = true →
  isa1 = isa2.
Proof.
  intros Hn1 Hn2. unfold link_output_ok.
  apply String.eqb_neq in Hn1, Hn2.
  destruct linked; [|discriminate]. rewrite Hn1, Hn2, !andb_false_r.
  destruct link_file as [file|]; [|discriminate].
  destruct (bool_decide (read_at file 0 4 = _)).
  - unfold check_elf. rewrite Hn1, Hn2.
    destruct (negb (String.eqb output_format "") && _); [discriminate|].
    destruct (unpack false 1 _) as [endian|]; [|discriminate].
    destruct (negb (endian =? 1)%N && _); [discriminate|].
    destruct (unpack _ 4 _) as [version|]; [|discriminate].
    destruct (negb (version =? 1)%N); [discriminate|].
    destruct (unpack _ 2 _) as [isa|]; [|discriminate].
    apply isa_matches_unique.
  - destruct (bool_decide (take 2 _ = _)); [|discriminate].
    unfold check_pe. rewrite Hn1, Hn2.
    destruct (unpack true 4 _) as [pe_offset|]; [|discriminate].
    destruct (negb _ || _); [discriminate|].
    destruct (unpack true 2 _) as [isa|]; [|discriminate].
    apply isa_matches_unique.
Qed.

Lemma CheckLink_format env output_format isa1 isa2 src_build linked link_file r1 r2 :
  isa1 ≠ "<target>" → isa2 ≠ "<target>" →
  CheckLink env output_format (PyStr isa1) src_build linked link_file = Ok r1 →
  CheckLink env output_format (PyStr isa2) src_build linked link_file = Ok r2 →
  ∃ fmt,
    r1 = (if link_output_ok linked link_file fmt isa1 then 1%Z else 0%Z)
    ∧ r2 = (if link_output_ok linked link_file fmt isa2 then 1%Z else 0%Z).
Proof.
  intros Ht1 Ht2. unfold CheckLink.
  destruct (resolve_target env "TARGET_OBJFMT" output_format) as [f|e]; [|discriminate].
  simpl. unfold resolve_target.
  rewrite !bool_decide_eq_false_2 by congruence. simpl.
  destruct (check_src_build src_build) as [[]|e]; [|discriminate].
  simpl. destruct (known_name ["PE"; "ELF"] f) as [fmt|e]; [|discriminate]. simpl.
  destruct (known_name _ (PyStr isa1)) as [i1|e] eqn:H1; [|discriminate].
  destruct (known_name _ (PyStr isa2)) as [i2|e] eqn:H2; [|discriminate].
  simpl. intros [= <-] [= <-]. exists fmt.
  assert (Hk : ∀ isa i, known_name ["x86"; "x86_64"; "AVR"] (PyStr isa) = Ok i → i = isa).
  { intros isa i. unfold known_name. simpl.
    destruct (String.eqb_spec isa ""); simpl; [by intros [= <-]|].
    destruct (py_in isa _); [by intros [= <-]|discriminate]. }
  by rewrite (Hk _ _ H1), (Hk _ _ H2).
Qed.

(** X9. [CheckLink] cannot be passed for two instruction sets by one and
    the same linker output: if the check returns 1 for a file with one
    requested ISA and returns 1 for the same file with another requested
    ISA (both given explicitly and not empty), the two ISAs are the same. *)
Theorem CheckLink_isa_exclusive env output_format isa1 isa2 src_build linked link_file :
  isa1 ≠ "" → isa2 ≠ "" → isa1 ≠ "<target>" → isa2 ≠ "<target>" →
  CheckLink env output_format (PyStr isa1) src_build linked link_file = Ok 1%Z →
  CheckLink env output_format (PyStr isa2) src_build linked link_file = Ok 1%Z →
  isa1 = isa2.
Proof.
  intros Hn1 Hn2 Ht1 Ht2 H1 H2.
  destruct (CheckLink_format _ _ _ _ _ _ _ _ _ Ht1 Ht2 H1 H2) as (fmt & E1 & E2).
  destruct (link_output_ok linked link_file fmt isa1) eqn:L1; [|discriminate].
  destruct (link_output_ok linked link_file fmt isa2) eqn:L2; [|discriminate].
  by eapply link_output_ok_isa.
Qed.

Lemma unpack_short little size bs : length bs < size → unpack little size bs = None.
Proof.
  intros H. unfold unpack.
  replace (length bs =? size) with false; [done|]. symmetry. apply Nat.eqb_neq. lia.
Qed.

Lemma read_at_short file pos n :
  0 < n → length file < pos + n → length (read_at file pos n) < n.
Proof. intros Hn H. unfold read_at. rewrite length_take, length_drop. lia. Qed.

(** X10. A truncated file is rejected, not an error: for arguments that
    [CheckLink] accepts (a known ISA, a format that is empty, PE or ELF, a
    source build that is ["C"] or a callable), a linker output of fewer than
    24 bytes (too short to hold the version field of an ELF header, or the
    offset of a PE header) makes the check return 0, whatever the bytes are
    and whether the link succeeded or not; the failed [struct.unpack] stays
    inside the check. *)
Theorem CheckLink_short_file env fmt isa src_build linked file :
  isa ∈ ["x86"; "x86_64"; "AVR"] → fmt ∈ [""; "PE"; "ELF"] →
  check_src_build src_build = Ok () →
  length file < 24 →
  CheckLink env (PyStr fmt) (PyStr isa) src_build linked (Some file) = Ok 0%Z.
Proof.
  intros Hisa Hfmt Hsrc Hlen.
  assert (Hne : isa ≠ "").
  { intros ->. rewrite !elem_of_cons, elem_of_nil in Hisa.
    destruct Hisa as [?|[?|[?|[]]]]; discriminate. }
  assert (Hrun : CheckLink env (PyStr fmt) (PyStr isa) src_build linked (Some file)
                 = Ok (if link_output_ok linked (Some file) fmt isa then 1%Z else 0%Z)).
  { unfold CheckLink, resolve_target.
    assert (Hf : fmt ≠ "<target>").
    { intros ->. rewrite !elem_of_cons, elem_of_nil in Hfmt.
      destruct Hfmt as [?|[?|[?|[]]]]; discriminate. }
    assert (Hi : isa ≠ "<target>").
    { intros ->. rewrite !elem_of_cons, elem_of_nil in Hisa.
      destruct Hisa as [?|[?|[?|[]]]]; discriminate. }
    rewrite !bool_decide_eq_false_2 by congruence. simpl. rewrite Hsrc. simpl.
    unfold known_name. simpl.
    apply String.eqb_neq in Hne. rewrite Hne. simpl.
    rewrite (proj2 (py_in_true isa _) Hisa).
    destruct (String.eqb_spec fmt "") as [->|Hfmt0]; simpl; [done|].
    assert (Hpe : fmt ∈ ["PE"; "ELF"]).
    { apply elem_of_cons in Hfmt as [->|Hfmt]; [done|exact Hfmt]. }
    by rewrite (proj2 (py_in_true fmt _) Hpe). }
  rewrite Hrun.
  assert (Hno : link_output_ok linked (Some file) fmt isa = false); [|by rewrite Hno].
  unfold link_output_ok. destruct linked; [|done].
  apply String.eqb_neq in Hne. rewrite Hne, andb_false_r.
  destruct (bool_decide _).
  - unfold check_elf. rewrite Hne.
    destruct (negb (String.eqb fmt "") && _); [done|].
    destruct (unpack false 1 _) as [endian|]; [|done].
    destruct (negb (endian =? 1)%N && _); [done|].
    by rewrite unpack_short by (apply read_at_short; lia).
  - destruct (bool_decide _); [|done].
    unfold check_pe. by rewrite unpack_short by (apply read_at_short; lia).
Qed.

Lemma pe_isa_names code isa :
  isa_matches pe_isa code isa = true → isa = "None" ∨ isa = "x86" ∨ isa = "x86_64".
Proof.
  unfold isa_matches. destruct (pe_isa code) as [name|] eqn:Hname; [|discriminate].
  intros H. apply String.eqb_eq in H. subst name.
  unfold pe_isa in Hname.
  destruct code as [|p]; [injection Hname as <-; auto|].
  repeat (destruct p as [p|p|]; simpl in Hname; try discriminate Hname;
          try (injection Hname as <-; auto; fail)).
Qed.

Lemma CheckLink_explicit_format env fmt isa src_build linked link_file r :
  fmt ≠ "<target>" → isa ≠ "" → isa ≠ "<target>" →
  CheckLink env (PyStr fmt) (PyStr isa) src_build linked link_file = Ok r →
  py_in isa ["x86"; "x86_64"; "AVR"] = true
  ∧ r = if link_output_ok linked link_file fmt isa then 1%Z else 0%Z.
Proof.
  intros Hf Hne Ht. unfold CheckLink, resolve_target.
  rewrite !bool_decide_eq_false_2 by congruence. simpl.
  destruct (check_src_build src_build) as [[]|e]; [|discriminate].
  simpl. unfold known_name. simpl.
  apply String.eqb_neq in Hne. rewrite Hne. simpl.
  destruct (String.eqb_spec fmt "") as [->|Hfmt]; simpl.
  - destruct (py_in isa _); [|discriminate]. simpl. by intros [= <-].
  - destruct (py_in fmt _); [|discriminate]. simpl.
    destruct (py_in isa _); [|discriminate]. simpl. by intros [= <-].
Qed.

(** X11. What a pass of [CheckLink] with a requested ISA implies: the link
    attempt succeeded, the output file could be opened, and the file starts
    with the ELF magic number (and then the requested format, if any, is
    ELF) or with [MZ] (and then the requested format, if any, is PE and the
    ISA is x86 or x86_64: no PE machine code stands for AVR). *)
Theorem CheckLink_pass_shape env fmt isa src_build linked link_file :
  fmt ≠ "<target>" → isa ≠ "" → isa ≠ "<target>" →
  CheckLink env (PyStr fmt) (PyStr isa) src_build linked link_file = Ok 1%Z →
  linked = true
  ∧ ∃ file,
      link_file = Some file
      ∧ ((take 4 file = [Byte.x7f; Byte.x45; Byte.x4c; Byte.x46]
          ∧ (fmt = "" ∨ fmt = "ELF"))
         ∨ (take 2 file = [Byte.x4d; Byte.x5a]
            ∧ (fmt = "" ∨ fmt = "PE") ∧ (isa = "x86" ∨ isa = "x86_64"))).
Proof.
  intros Hfm Hne Ht H.
  apply CheckLink_explicit_format in H as (Hisa & H); [|done|done|done].
  destruct (link_output_ok linked link_file fmt isa) eqn:Hok; [|discriminate].
  clear H. unfold link_output_ok in Hok.
  destruct linked; [|discriminate]. split; [done|].
  apply String.eqb_neq in Hne. rewrite Hne, andb_false_r in Hok.
  destruct link_file as [file|]; [|discriminate]. exists file. split; [done|].
  unfold read_at in Hok. rewrite drop_0 in Hok.
  destruct (bool_decide (take 4 file = _)) eqn:Hmagic.
  - left. apply bool_decide_eq_true in Hmagic. split; [done|].
    unfold check_elf in Hok.
    destruct (String.eqb_spec fmt ""); [by left|]. right.
    destruct (String.eqb_spec fmt "ELF"); [done|discriminate].
  - destruct (bool_decide (take 2 (take 4 file) = _)) eqn:Hmz; [|discriminate].
    right. apply bool_decide_eq_true in Hmz.
    rewrite take_take in Hmz. simpl in Hmz. split; [done|].
    unfold check_pe in Hok. rewrite Hne in Hok.
    destruct (unpack true 4 _) as [pe_offset|]; [|discriminate].
    destruct (negb (bool_decide _)); [discriminate|]. simpl in Hok.
    destruct (negb (String.eqb fmt "") && negb (String.eqb fmt "PE")) eqn:Hf;
      [discriminate|].
    split.
    + destruct (String.eqb_spec fmt ""); [by left|]. right.
      destruct (String.eqb_spec fmt "PE"); [done|discriminate].
    + destruct (unpack true 2 _) as [code|]; [|discriminate].
      apply pe_isa_names in Hok.
      destruct Hok as [E|[E|E]]; subst isa; [discriminate Hisa|by left|by right].
Qed.

(** X12. The arguments of [CheckLink] are judged before anything is linked
    and without regard to it: when a call raises, the exception is a
    [ValueError] or a [TypeError], and the call raises the same exception
    whatever the outcome of the link attempt and the linker output are. *)
Theorem CheckLink_argument_errors env output_format output_isa src_build linked
    link_file e :
  CheckLink env output_format output_isa src_build linked link_file = Exc e →
  (e = ValueError ∨ e = TypeError)
  ∧ ∀ linked' link_file',
      CheckLink env output_format output_isa src_build linked' link_file' = Exc e.
Proof.
  unfold CheckLink.
  destruct (resolve_target env "TARGET_OBJFMT" output_format) as [f|e1] eqn:Hf; simpl.
  2: { intros [= <-]. split; [|done]. unfold resolve_target in Hf.
       destruct (bool_decide _); [|discriminate].
       destruct (env !! _); [discriminate|]. injection Hf as <-. by left. }
  destruct (resolve_target env "TARGET_ARCH_TYPE" output_isa) as [i|e1] eqn:Hi; simpl.
  2: { intros [= <-]. split; [|done]. unfold resolve_target in Hi.
       destruct (bool_decide _); [|discriminate].
       destruct (env !! _); [discriminate|]. injection Hi as <-. by left. }
  destruct (check_src_build src_build) as [[]|e1] eqn:Hs; simpl.
  2: { intros [= <-]. split; [|done]. unfold check_src_build in Hs.
       destruct src_build as [name|]; [|discriminate].
       destruct name; try (destruct (bool_decide _); [discriminate|]);
         injection Hs as <-; auto. }
  assert (Hk : ∀ names v e1, known_name names v = Exc e1 → e1 = ValueError).
  { intros names v e1. unfold known_name. destruct (py_truthy v); [|discriminate].
    destruct v; try (by intros [= <-]).
    destruct (py_in _ _); [discriminate|]. by intros [= <-]. }
  destruct (known_name ["PE"; "ELF"] f) as [fmt|e1] eqn:Hfmt; simpl.
  2: { intros [= <-]. split; [|done]. left. by eapply Hk. }
  destruct (known_name _ i) as [isa|e1] eqn:Hisa; simpl.
  2: { intros [= <-]. split; [|done]. left. by eapply Hk. }
  destruct (message_text fmt i) as [[]|e1] eqn:Hm; simpl; [discriminate|].
  intros [= <-]. split; [|done]. unfold message_text in Hm.
  destruct i; try discriminate.
  destruct (String.eqb fmt ""); [discriminate|]. injection Hm as <-. by right.
Qed.

(** ** A requirement: [AddAugment] for checks alone, and [Require] *)

Lemma collect_invalid_last h augments valid n :
  (∀ a, is_dependency h augments a = false) →
  (∀ r, r ∈ valid → Valid (h !!! r) = true) →
  Valid (h !!! n) = false → Tool (h !!! n) = None →
  ∀ tools checks depends_checks,
    collect_invalid h augments (valid ++ [n]) tools checks depends_checks
    = (tools, checks ++ seq_items (Checks (Specification (h !!! n))), depends_checks).
Proof.
  intros Hdep Hvalid Hn Htool.
  induction valid as [|r valid IH]; intros tools checks depends_checks; simpl.
  - rewrite Hn, Htool. simpl.
    destruct (Checks (Specification (h !!! n))) as [[|c cs]|]; simpl;
      by rewrite ?app_nil_r.
  - rewrite (Hvalid r) by (by left). rewrite Hdep. simpl.
    apply IH. intros r' Hr'. apply Hvalid. by right.
Qed.

Lemma clones_cases h augments (a : ConfExEnvironmentAugment) r :
  r ∈ seq (length h) (length augments)
      ++ [length (h ++ ((fun r => h !!! r) <$> augments))] →
  let h1 := (h ++ ((fun r => h !!! r) <$> augments)) ++ [a] in
  (∃ r0, r0 ∈ augments ∧ h1 !!! r = h !!! r0) ∨ h1 !!! r = a.
Proof.
  intros Hr h1.
  assert (Hin : h1 !!! r ∈ ((fun r => h !!! r) <$> augments) ++ [a]).
  { rewrite <- (clones_fmap (fun x => x) h augments a).
    apply list_elem_of_fmap. by exists r. }
  apply elem_of_app in Hin as [Hin|Hin].
  - left. apply list_elem_of_fmap in Hin as (r0 & E & Hr0). eauto.
  - right. by apply list_elem_of_singleton in Hin.
Qed.

Lemma prepare_no_tools s : prepare_tools s [] false = s.
Proof.
  unfold prepare_tools, find_start, exact_reset. simpl.
  unfold apply_tool_list. simpl. apply set_env_id.
Qed.

Lemma pre_configure_applied s :
  applied_tools (pre_configure s) = applied_tools s.
Proof. unfold pre_configure. by destruct (_ && _). Qed.

Lemma AddAugment_check_only fuel s spec :
  Components spec = None → Dependencies spec = None →
  (∀ r, r ∈ _augments s → Valid (heap s !!! r) = true) →
  (∃ msg, AddAugment fuel s spec = Some (Exc (CheckError msg)))
  ∨ ∃ s' added new,
      AddAugment fuel s spec = Some (Ok (s', added))
      ∧ exec_log s' = exec_log s ++ new
      ∧ new.*1 = seq_items (Checks spec)
      ∧ (added = true ↔ ∀ e, e ∈ new → failing_entry e = false)
      ∧ applied_tools s' = applied_tools s ∧ _cache s' = _cache s
      ∧ (added = true → length (_augments s') = S (length (_augments s)))
      ∧ (added = false → _augments s' = _augments s).
Proof.
  intros Hcomp Hdeps Hvalid. unfold AddAugment, _clone_augments. rewrite Hcomp.
  set (h := heap s ++ ((λ r, heap s !!! r) <$> _augments s)).
  set (h1 := h ++ [new_augment spec]).
  set (s1 := pre_configure (set_heap s h1)).
  set (valid := seq (length (heap s)) (length (_augments s))).
  destruct (pre_configure_fields (set_heap s h1)) as (Hheap & Hcache & _ & Haug & Hlog).
  fold s1 in Hheap, Hcache, Haug, Hlog. simpl in Hheap, Hcache, Haug, Hlog.
  pose proof (pre_configure_applied (set_heap s h1)) as Happlied.
  fold s1 in Happlied. simpl in Happlied.
  assert (Hcases : ∀ r, r ∈ valid ++ [length h] →
            (∃ r0, r0 ∈ _augments s ∧ h1 !!! r = heap s !!! r0)
            ∨ h1 !!! r = new_augment spec).
  { intros r Hr. by apply clones_cases. }
  assert (Hlast : h1 !!! length h = new_augment spec).
  { unfold h1. by rewrite list_lookup_total_middle. }
  assert (Hv : ∀ r, r ∈ valid → Valid (h1 !!! r) = true).
  { intros r Hr.
    assert (Hlh : length h = length (heap s) + length (_augments s)).
    { unfold h. by rewrite length_app, length_fmap. }
    destruct (Hcases r) as [(r0 & Hr0 & E)|E].
    - apply elem_of_app. by left.
    - rewrite E. by apply Hvalid.
    - exfalso. unfold valid in Hr. apply elem_of_seq in Hr.
      assert (Hlt : r < length h) by lia.
      assert (Hlook : h1 !! r = Some (h1 !!! r)).
      { apply list_lookup_lookup_total_lt. unfold h1. rewrite length_app. simpl. lia. }
      assert (Hpos : h1 !! r = h !! r).
      { unfold h1. by rewrite lookup_app_l. }
      destruct (lookup_lt_is_Some_2 h r Hlt) as (x & Hx).
      assert (Hx' : x = new_augment spec) by congruence.
      unfold h in Hx. apply lookup_app_Some in Hx as [Hx|[Hge Hx]]; [apply lookup_lt_Some in Hx; lia|].
      rewrite list_lookup_fmap in Hx.
      destruct (_augments s !! (r - length (heap s))) as [r0|] eqn:Hr0; [|discriminate].
      simpl in Hx. injection Hx as Hx.
      pose proof (Hvalid r0 (list_elem_of_lookup_2 _ _ _ Hr0)) as Hvr.
      rewrite Hx, Hx' in Hvr. discriminate. }
  assert (Hdep : ∀ a, is_dependency h1 (valid ++ [length h]) a = false).
  { intros a. unfold is_dependency. apply not_true_is_false. intros H.
    apply existsb_exists in H as (d & Hd & Hc). apply list_elem_of_In in Hd.
    apply elem_of_app in Hd as [Hd|Hd].
    - rewrite (Hv d Hd) in Hc. discriminate.
    - apply list_elem_of_singleton in Hd. subst d. rewrite Hlast in Hc.
      simpl in Hc. rewrite Hdeps in Hc. simpl in Hc. discriminate. }
  unfold _validate_augments. rewrite Hheap.
  rewrite (collect_invalid_last h1 _ valid (length h) Hdep Hv)
    by (by rewrite Hlast).
  rewrite Hlast. simpl.
  destruct (_apply_env s1 [] false (Some (seq_items (Checks spec))) (Some []))
    as [[s2 failed]|e] eqn:Happly.
  2: { left. unfold _apply_env, run_all_checks in Happly. rewrite prepare_no_tools in Happly.
       simpl in Happly.
       destruct (run_checks true _ _ _ _ _) as [[[[cur applied] failed] log]|e'] eqn:Hrun.
       - simpl in Happly. discriminate.
       - simpl in Happly. injection Happly as ->.
         assert (Hce : ∀ checks cur applied failed log e',
                   run_checks true checks cur applied failed log = Exc e' →
                   ∃ msg, e' = CheckError msg).
         { clear. induction checks as [|c checks IH]; intros cur applied failed log e' H;
             [discriminate|].
           simpl in H. rewrite andb_false_r in H.
           destruct (call_check c cur) as [cur1 [result|msg]]; [by eapply IH|].
           injection H as <-. eauto. }
         destruct (Hce _ _ _ _ _ _ Hrun) as (msg & ->). exists msg. simpl. done. }
  right. simpl.
  destruct (apply_env_log _ _ _ _ _ _ _ Happly)
    as (new_req & new_opt & Hl & Hfailed & Hreq & Hopt & _ & _ & Hh2 & Ha2 & Hc2 & _ & Ht2).
  assert (Hnone : new_opt = []).
  { destruct new_opt as [|e new_opt]; [done|].
    destruct (Hopt e) as [Hin _]; [by left|]. by apply elem_of_nil in Hin. }
  subst new_opt. rewrite app_nil_r in Hl, Hfailed. simpl in Hreq.
  rewrite prepare_no_tools in Ht2.
  destruct (mark_augments failed (valid ++ [length h]) (heap s2) [])
    as [h3 invalid] eqn:Hmark.
  apply mark_augments_spec in Hmark as (Hlen3 & _ & _ & _ & Hinv). simpl in Hinv.
  assert (Hfail : failed = [] ↔ ∀ e, e ∈ new_req → failing_entry e = false).
  { rewrite Hfailed. split.
    - intros Hnil e He. apply not_true_is_false. intros Hf.
      assert (Hin : e.1 ∈ (filter (fun e => failing_entry e = true) new_req).*1).
      { apply list_elem_of_fmap. exists e. split; [done|].
        apply list_elem_of_filter. by split. }
      rewrite Hnil in Hin. by apply elem_of_nil in Hin.
    - intros Hall. destruct (filter _ new_req) as [|e l] eqn:Hfl; [done|].
      assert (He : e ∈ filter (fun e => failing_entry e = true) new_req)
        by (rewrite Hfl; by left).
      apply list_elem_of_filter in He as [Hf He]. rewrite (Hall e He) in Hf.
      discriminate. }
  assert (Hinvalid : invalid = [] ↔ failed = []).
  { rewrite Hinv. split.
    - intros Hnil. destruct failed as [|c failed'] eqn:Hfd; [done|]. exfalso.
      assert (Hin : length h ∈ filter (fun r => valid_after (c :: failed') (heap s2 !!! r) = false)
                                 (valid ++ [length h])).
      { apply list_elem_of_filter. split; [|apply elem_of_app; right; by left].
        rewrite Hh2, Hheap, Hlast. apply valid_after_false. exists c. split; [by left|].
        simpl. rewrite <- Hreq.
        assert (Hc : c ∈ (filter (fun e => failing_entry e = true) new_req).*1)
          by (rewrite <- Hfailed; by left).
        apply list_elem_of_fmap in Hc as (e & -> & He).
        apply list_elem_of_filter in He as [_ He].
        apply list_elem_of_fmap. by exists e. }
      rewrite Hnil in Hin. by apply elem_of_nil in Hin.
    - intros ->.
      remember (filter (fun r => valid_after [] (heap s2 !!! r) = false)
                  (valid ++ [length h])) as l eqn:Hfl.
      destruct l as [|r l]; [done|].
      assert (Hr : r ∈ filter (fun r => valid_after [] (heap s2 !!! r) = false)
                         (valid ++ [length h])) by (rewrite <- Hfl; by left).
      apply list_elem_of_filter in Hr as [Hf _]. discriminate. }
  destruct invalid as [|r0 invalid'].
  - eexists _, true, new_req. split; [reflexivity|]. simpl.
    rewrite Hl, Hlog, Ht2, Happlied, Hc2, Hcache.
    split_and!; auto.
    + split; [intros _|done]. apply Hfail. by apply Hinvalid.
    + intros _. rewrite length_app. unfold valid. rewrite length_seq. simpl. lia.
    + discriminate.
  - eexists _, false, new_req. split; [reflexivity|]. simpl.
    rewrite Hl, Hlog, Ht2, Happlied, Hc2, Hcache, Ha2, Haug.
    split_and!; auto.
    + split; [discriminate|]. intros Hall. apply Hfail in Hall.
      apply Hinvalid in Hall. discriminate.
    + discriminate.
Qed.

(** X13. What [Require] does outside listing mode, when the augments
    committed so far are valid: for every fuel it returns or raises; it
    executes exactly the given checks, each once and in the given order,
    applies no tool and leaves the tool cache alone. It returns the new
    specification, with one more augment committed, exactly when none of the
    checks failed; otherwise it raises the error [RequirementNotMet] and the
    committed augments are the ones from before. The only other outcome is
    the exception of a check. *)
Theorem Require_runs_checks fuel b id check name checks :
  base_listing b = None →
  arg_tuple (fun _ => true) check = Some checks →
  (∀ r, r ∈ _augments (base_env b) → Valid (heap (base_env b) !!! r) = true) →
  (∃ msg, Require fuel b id check name = Some (Exc (CheckError msg)))
  ∨ ∃ b' reply new,
      Require fuel b id check name = Some (Ok (b', reply))
      ∧ exec_log (base_env b') = exec_log (base_env b) ++ new
      ∧ new.*1 = checks
      ∧ applied_tools (base_env b') = applied_tools (base_env b)
      ∧ _cache (base_env b') = _cache (base_env b)
      ∧ base_listing b' = None
      ∧ match reply with
        | Returns (Some spec) =>
          spec = ConfExSpecification_init id name ArgNone check ArgNone
          ∧ (∀ e, e ∈ new → failing_entry e = false)
          ∧ length (_augments (base_env b')) = S (length (_augments (base_env b)))
        | Returns None => False
        | Raises err =>
          err = ConfExError_init "RequirementNotMet" name
          ∧ (∃ e, e ∈ new ∧ failing_entry e = true)
          ∧ _augments (base_env b') = _augments (base_env b)
        end.
Proof.
  intros Hlist Hcheck Hvalid. unfold Require, is_listing, find.
  rewrite Hcheck, Hlist.
  set (spec := ConfExSpecification_init id name ArgNone check ArgNone).
  assert (Hchecks : seq_items (Checks spec) = checks).
  { unfold spec. simpl. by rewrite Hcheck. }
  destruct (AddAugment_check_only fuel (base_env b) spec eq_refl eq_refl Hvalid)
    as [(msg & ->)|(s' & added & new & -> & Hlog & Hnew & Hadded & Ht & Hc & Hlen & Hsame)].
  - left. by exists msg.
  - right. rewrite Hchecks in Hnew. destruct added.
    + eexists _, _, new. split; [reflexivity|]. simpl. rewrite Hlist.
      split_and!; auto. by apply Hadded.
    + eexists _, _, new. split; [reflexivity|]. simpl. rewrite Hlist.
      split_and!; auto.
      destruct (decide (Exists (fun e => failing_entry e = true) new)) as [Hex|Hnex].
      * apply Exists_exists in Hex as (e & He & Hf). eauto.
      * exfalso. assert (Ht' : false = true); [|discriminate].
        apply Hadded. intros e He. apply not_true_is_false. intros Hf.
        apply Hnex. apply Exists_exists. eauto.
Qed.

(** ** [AddTool] for a tool that is known *)

Lemma set_Tools_id c : set_Tools c (Tools c) = c.
Proof. by destruct c. Qed.

Lemma AddTool_known_noop fuel c tool :
  tool ∈ Tools c → is_Some (CacheComponents c !! tool) →
  AddTool (S (S (S fuel))) c tool = Some c.
Proof.
  intros Hin [provided Hk]. unfold AddTool.
  rewrite (proj2 (py_in_true tool (Tools c)) Hin).
  destruct (py_index tool (Tools c)) as [i|] eqn:Hi.
  2: { apply py_index_None in Hi. done. }
  simpl. unfold place_tool. rewrite Hi.
  replace (Z.of_nat i - 0 <? Z.of_nat i)%Z with false by (symmetry; apply Z.ltb_ge; lia).
  by rewrite set_Tools_id, Hk.
Qed.

Lemma AddTool_fuel fuel c tool c' :
  AddTool fuel c tool = Some c' → ∃ fuel', fuel = S (S (S fuel')).
Proof.
  unfold AddTool.
  set (c0 := if py_in tool (Tools c) then c else set_Tools c (Tools c ++ [tool])).
  set (i := Z.of_nat (default 0 (py_index tool (Tools c0)))).
  destruct fuel as [|[|[|fuel]]]; [discriminate|discriminate| |eauto].
  simpl. destruct (CacheComponents _ !! tool); [discriminate|].
  destruct (Detect tool) as [toolchain components].
  destruct (1 <? length toolchain); discriminate.
Qed.

(** X14. [AddTool] is idempotent: adding a tool that has just been added
    changes nothing, neither the order of the tools nor what is known of
    their components. *)
Theorem AddTool_idempotent fuel c tool c' :
  AddTool fuel c tool = Some c' → AddTool fuel c' tool = Some c'.
Proof.
  intros H. destruct (AddTool_fuel _ _ _ _ H) as (fuel' & ->).
  unfold AddTool in H. apply AddTool_outer_extends in H as [_ [Hk Hin]].
  by apply AddTool_known_noop.
Qed.

(** ** [Finalize] of a session that is settled *)

Lemma run_checks_known checks cur applied failed log :
  (∀ c, c ∈ checks → c ∈ applied) →
  run_checks false checks cur applied failed log = Ok (cur, applied, failed, log).
Proof.
  induction checks as [|c checks IH]; intros Hk; [done|].
  simpl. rewrite (proj2 (py_in_true c applied)) by (apply Hk; by left).
  simpl. apply IH. intros c' Hc'. apply Hk. by right.
Qed.

(** X15. [Finalize] of a settled session only writes the post-configure
    variables: when the applied tools are exactly the tools of the committed
    augments, in their order and without repetition, and the checks of the
    augments have all been executed before, [Finalize] applies no tool,
    does not reset the environment and executes no check. *)
Theorem Finalize_settled s :
  applied_tools s = tools_of (heap s) (_augments s) →
  NoDup (applied_tools s) →
  (∀ c, c ∈ checks_of (heap s) (_augments s) → c ∈ applied_checks s) →
  Finalize s
  = Ok (set_env s (write_vars ENVPost (_current s)) (applied_tools s)
          (applied_checks s) (pre_applied s) (exec_log s),
        write_vars ENVPost (_current s)).
Proof.
  intros Htools Hnodup Hknown. unfold Finalize.
  rewrite collect_all_spec. simpl. rewrite <- Htools.
  unfold _apply_env, prepare_tools.
  pose proof (find_start_extension true (applied_tools s) [] Hnodup) as Hstart.
  rewrite app_nil_r in Hstart. rewrite Hstart by (intros t Ht; by apply elem_of_nil in Ht).
  rewrite drop_all. unfold apply_tool_list. simpl. rewrite set_env_id.
  unfold run_all_checks.
  rewrite (truthy_items (Some (checks_of (heap s) (_augments s)))). simpl.
  rewrite run_checks_known by done. simpl. by rewrite set_env_id.
Qed.

(** ** [CheckDirContains] *)

Lemma scan_dirs_spec walk value dirs :
  ∀ check_passed,
    scan_dirs walk value dirs check_passed = true
    ↔ check_passed = true
      ∨ ∃ i d files f,
          dirs !! i = Some d ∧ walk d = Some files
          ∧ f ∈ files ∧ py_contains value f = true
          ∧ ∀ j d', j < i → dirs !! j = Some d' → is_Some (walk d').
Proof.
  induction dirs as [|d dirs IH]; intros check_passed; simpl.
  - split; [by left|]. intros [H|(i & d & files & f & H & _)]; [done|discriminate].
  - destruct (walk d) as [files|] eqn:Hwalk.
    + rewrite IH. split.
      * intros [H|(i & d' & files' & f & Hi & Hw & Hf & Hc & Hbefore)].
        -- destruct (existsb (py_contains value) files) eqn:Hex; [|by left].
           right. apply existsb_exists in Hex as (f & Hf & Hc).
           exists 0, d, files, f. split_and!; auto.
           ++ by apply list_elem_of_In.
           ++ intros j d' Hj. lia.
        -- right. exists (S i), d', files', f. split_and!; auto.
           intros [|j] d'' Hj Hd''.
           ++ injection Hd'' as <-. by rewrite Hwalk.
           ++ apply (Hbefore j); [lia|done].
      * intros [->|(i & d' & files' & f & Hi & Hw & Hf & Hc & Hbefore)].
        -- left. by destruct (existsb _ _).
        -- destruct i as [|i].
           ++ injection Hi as <-. rewrite Hwalk in Hw. injection Hw as <-.
              left. replace (existsb (py_contains value) files) with true; [done|].
              symmetry. apply existsb_exists. exists f. split; [|done].
              by apply list_elem_of_In.
           ++ right. exists i, d', files', f. split_and!; auto.
              intros j d'' Hj Hd''. apply (Hbefore (S j)); [lia|done].
    + split; [by left|].
      intros [H|(i & d' & files' & f & Hi & Hw & Hf & Hc & Hbefore)]; [done|].
      destruct i as [|i].
      * injection Hi as <-. rewrite Hwalk in Hw. discriminate.
      * destruct (Hbefore 0 d) as [x Hx]; [lia|done|]. rewrite Hwalk in Hx. discriminate.
Qed.

(** X16. [CheckDirContains] returns 1 or 0, and 1 exactly when the key is
    in the environment, its value can be iterated and some directory of it
    holds a file whose name contains the value, every directory before that
    one being listable as well: a directory that cannot be listed ends the
    search, so that the directories after it are never looked at. *)
Theorem CheckDirContains_spec env walk key value :
  (CheckDirContains env walk key value = 1%Z
   ↔ ∃ v dirs i d files f,
       env !! key = Some v ∧ iter_strings v = Some dirs
       ∧ dirs !! i = Some d ∧ walk d = Some files
       ∧ f ∈ files ∧ py_contains value f = true
       ∧ ∀ j d', j < i → dirs !! j = Some d' → is_Some (walk d'))
  ∧ (CheckDirContains env walk key value = 1%Z
     ∨ CheckDirContains env walk key value = 0%Z).
Proof.
  unfold CheckDirContains. split.
  - destruct (env !! key) as [v|]; [|split; [discriminate|]].
    2: { intros (v & dirs & i & d & files & f & H & _). discriminate. }
    destruct (iter_strings v) as [dirs|] eqn:Hiter.
    2: { split; [discriminate|].
         intros (v' & dirs & i & d & files & f & [= <-] & H & _). congruence. }
    destruct (scan_dirs walk value dirs false) eqn:Hscan.
    + split; [intros _|done].
      apply scan_dirs_spec in Hscan as [H|(i & d & files & f & H)]; [discriminate|].
      exists v, dirs, i, d, files, f. split_and!; tauto.
    + split; [discriminate|].
      intros (v' & dirs' & i & d & files & f & [= <-] & Hd & H). exfalso.
      assert (Hd' : dirs' = dirs) by congruence. subst dirs'.
      assert (Ht : scan_dirs walk value dirs false = true); [|congruence].
      apply scan_dirs_spec. right. by exists i, d, files, f.
  - destruct (match env !! key with Some v => _ | None => false end); auto.
Qed.

(** ** An exception raised by a check *)












(** ** A request that nothing can satisfy *)

Section Universe.

Variable universe : list string.
Hypothesis universe_closed :
  ∀ tool t, tool ∈ universe → t ∈ (Detect tool).1 → t ∈ universe.

Lemma pending_le c :
  pending universe c
  ≤ sum_list ((fun tool => length (Detect tool).1 + 2) <$> universe).
Proof.
  unfold pending. clear universe_closed.
  induction universe as [|t U IH]; csimpl; [done|].
  destruct (CacheComponents c !! t); lia.
Qed.

Lemma pending_mono c c' :
  (∀ t, is_Some (CacheComponents c !! t) → is_Some (CacheComponents c' !! t)) →
  pending universe c' ≤ pending universe c.
Proof.
  intros Hmono. unfold pending. clear universe_closed.
  induction universe as [|t U IH]; csimpl; [done|].
  destruct (CacheComponents c !! t) as [p|] eqn:Hc.
  - destruct (Hmono t) as [p' ->]; [by eexists|]. lia.
  - destruct (CacheComponents c' !! t); lia.
Qed.

Lemma pending_examined c c' tool :
  (∀ t, is_Some (CacheComponents c !! t) → is_Some (CacheComponents c' !! t)) →
  tool ∈ universe → CacheComponents c !! tool = None →
  is_Some (CacheComponents c' !! tool) →
  pending universe c' + (length (Detect tool).1 + 2) ≤ pending universe c.
Proof.
  intros Hmono Hin Hnone [p' Hsome].
  pose proof (pending_mono c c' Hmono) as Hle. revert Hin Hle.
  unfold pending. clear universe_closed.
  induction universe as [|t U IH]; intros Hin Hle; [by apply elem_of_nil in Hin|].
  csimpl in *.
  assert (Hrest : sum_list ((fun tool => match CacheComponents c' !! tool with
                                         | Some _ => 0
                                         | None => length (Detect tool).1 + 2
                                         end) <$> U)
                  ≤ sum_list ((fun tool => match CacheComponents c !! tool with
                                           | Some _ => 0
                                           | None => length (Detect tool).1 + 2
                                           end) <$> U)).
  { clear IH Hin Hle. induction U as [|u U IHU]; csimpl; [done|].
    destruct (CacheComponents c !! u) as [p|] eqn:Hc.
    - destruct (Hmono u) as [q ->]; [by eexists|]. lia.
    - destruct (CacheComponents c' !! u); lia. }
  destruct (decide (t = tool)) as [->|Hne].
  - rewrite Hnone, Hsome. lia.
  - apply elem_of_cons in Hin as [->|Hin]; [done|].
    specialize (IH Hin Hrest).
    destruct (CacheComponents c !! t) as [p|] eqn:Hc.
    + destruct (Hmono t) as [q ->]; [by eexists|]. lia.
    + destruct (CacheComponents c' !! t); lia.
Qed.

Lemma length_place_tool tool tool_idx ts :
  length (place_tool tool tool_idx ts) ≤ S (length ts).
Proof.
  assert (Hins : ∀ (i : Z) (x : string) l, length (py_insert i x l) = S (length l)).
  { intros i x l. unfold py_insert.
    rewrite length_app. simpl. rewrite length_take, length_drop. lia. }
  unfold place_tool. destruct (py_index tool ts) as [orig_idx|] eqn:Hidx.
  - destruct (tool_idx <? Z.of_nat orig_idx)%Z; [|lia].
    rewrite Hins. apply py_index_Some in Hidx.
    rewrite length_delete by (by eexists). apply lookup_lt_Some in Hidx. lia.
  - by rewrite Hins.
Qed.

Lemma AddTool_inner_terminates fuel :
  ∀ tools tools_stack tool_idx offset c,
    (∀ t, t ∈ tools → t ∈ universe) →
    Forall (fun l => ∀ t, t ∈ l → t ∈ universe) tools_stack →
    (∀ t, t ∈ Tools c → t ∈ universe) →
    length tools + sum_list ((fun l => S (length l)) <$> tools_stack)
      + pending universe c < fuel →
    ∃ tools_stack' offset' c',
      AddTool_inner fuel tools tools_stack tool_idx offset c
        = Some (tools_stack', offset', c')
      ∧ Forall (fun l => ∀ t, t ∈ l → t ∈ universe) tools_stack'
      ∧ (∀ t, t ∈ Tools c' → t ∈ universe)
      ∧ length (Tools c') + sum_list ((fun l => S (length l)) <$> tools_stack')
          + pending universe c'
        ≤ length (Tools c) + length tools
          + sum_list ((fun l => S (length l)) <$> tools_stack) + pending universe c
      ∧ sum_list ((fun l => S (length l)) <$> tools_stack') + pending universe c'
        ≤ length tools + sum_list ((fun l => S (length l)) <$> tools_stack)
          + pending universe c.
Proof.
  induction fuel as [|fuel IH]; intros tools tools_stack tool_idx offset c
    Htools Hstack Hc Hfuel; [lia|].
  destruct tools as [|tool tools].
  - eexists _, _, _. split; [reflexivity|]. simpl in *. split_and!; auto; cbn [length]; lia.
  - set (c1 := set_Tools c (place_tool tool tool_idx (Tools c))).
    assert (Hstep :
      AddTool_inner (S fuel) (tool :: tools) tools_stack tool_idx offset c
      = match CacheComponents c1 !! tool with
        | Some _ => AddTool_inner fuel tools tools_stack tool_idx offset c1
        | None =>
          if 1 <? length (Detect tool).1
          then AddTool_inner fuel (Detect tool).1 (tools :: tools_stack) tool_idx
                 (Z.of_nat (length (Detect tool).1))
                 (set_Components c1 tool (Detect tool).2)
          else AddTool_inner fuel tools tools_stack tool_idx offset
                 (set_Components c1 tool (Detect tool).2)
        end).
    { simpl. by destruct (Detect tool). }
    rewrite Hstep. clear Hstep.
    assert (Htool : tool ∈ universe) by (apply Htools; by left).
    assert (Hrest : ∀ t, t ∈ tools → t ∈ universe).
    { intros t Ht. apply Htools. by right. }
    assert (Hc1 : ∀ t, t ∈ Tools c1 → t ∈ universe).
    { intros t Ht. simpl in Ht. apply elem_of_place_tool in Ht as [->|Ht]; auto. }
    assert (Hlen1 : length (Tools c1) ≤ S (length (Tools c))).
    { simpl. apply length_place_tool. }
    assert (Hp1 : pending universe c1 = pending universe c) by done.
    simpl in Hfuel.
    destruct (CacheComponents c1 !! tool) as [provided|] eqn:Hknown.
    + clearbody c1.
      destruct (IH tools tools_stack tool_idx offset c1 Hrest Hstack Hc1)
        as (st' & off' & c' & Hrun & Hst' & Hc' & Hm1 & Hm2); [lia|].
      exists st', off', c'. split; [exact Hrun|]. split_and!; auto; cbn [length]; lia.
    + set (toolchain := (Detect tool).1).
      set (c2 := set_Components c1 tool (Detect tool).2).
      assert (Hc2 : ∀ t, t ∈ Tools c2 → t ∈ universe) by done.
      assert (Hp2 : pending universe c2 + (length toolchain + 2) ≤ pending universe c1).
      { apply pending_examined; auto.
        - intros t [p Hp]. simpl. destruct (decide (tool = t)) as [->|Hne].
          + rewrite lookup_insert_eq. by eexists.
          + rewrite lookup_insert_ne by done. by eexists.
        - simpl. rewrite lookup_insert_eq. by eexists. }
      assert (Hchain : ∀ t, t ∈ toolchain → t ∈ universe).
      { intros t Ht. by apply (universe_closed tool). }
      assert (Hl2 : length (Tools c2) = length (Tools c1)) by done.
      clearbody c2 c1 toolchain.
      destruct (1 <? length toolchain).
      * destruct (IH toolchain (tools :: tools_stack) tool_idx
                    (Z.of_nat (length toolchain)) c2 Hchain)
          as (st' & off' & c' & Hrun & Hst' & Hc' & Hm1 & Hm2).
        { by apply Forall_cons. }
        { done. }
        { csimpl. lia. }
        exists st', off', c'. split; [exact Hrun|]. csimpl in Hm1. csimpl in Hm2.
        split_and!; auto; cbn [length]; lia.
      * destruct (IH tools tools_stack tool_idx offset c2 Hrest Hstack Hc2)
          as (st' & off' & c' & Hrun & Hst' & Hc' & Hm1 & Hm2); [lia|].
        exists st', off', c'. split; [exact Hrun|].
        split_and!; auto; cbn [length]; lia.
Qed.

Lemma AddTool_outer_terminates fuel :
  ∀ tools_stack tool_idx offset c,
    Forall (fun l => ∀ t, t ∈ l → t ∈ universe) tools_stack →
    (∀ t, t ∈ Tools c → t ∈ universe) →
    sum_list ((fun l => S (length l)) <$> tools_stack) + pending universe c < fuel →
    ∃ c',
      AddTool_outer fuel tools_stack tool_idx offset c = Some c'
      ∧ (∀ t, t ∈ Tools c' → t ∈ universe)
      ∧ length (Tools c') + pending universe c'
        ≤ length (Tools c) + sum_list ((fun l => S (length l)) <$> tools_stack)
          + pending universe c.
Proof.
  induction fuel as [|fuel IH]; intros tools_stack tool_idx offset c Hstack Hc Hfuel;
    [lia|].
  destruct tools_stack as [|tools tools_stack]; csimpl.
  - exists c. split_and!; auto. lia.
  - apply Forall_cons in Hstack as [Htools Hstack]. csimpl in Hfuel.
    destruct (AddTool_inner_terminates fuel tools tools_stack (tool_idx - offset)%Z
                offset c Htools Hstack Hc)
      as (st' & off' & c1 & Hrun & Hst' & Hc1 & Hm1 & Hm2); [lia|].
    rewrite Hrun.
    destruct (IH st' (tool_idx - offset)%Z off' c1 Hst' Hc1) as (c' & Hout & Hc' & Hm);
      [lia|].
    exists c'. split; [exact Hout|]. split; [done|]. lia.
Qed.

Lemma AddTool_terminates fuel c tool :
  tool ∈ Tools c → (∀ t, t ∈ Tools c → t ∈ universe) →
  pending universe c + 2 < fuel →
  ∃ c',
    AddTool fuel c tool = Some c'
    ∧ (∀ t, t ∈ Tools c' → t ∈ universe)
    ∧ length (Tools c') + pending universe c' ≤ length (Tools c) + 2 + pending universe c.
Proof.
  intros Hin Hc Hfuel. unfold AddTool.
  rewrite (proj2 (py_in_true tool (Tools c)) Hin).
  destruct (AddTool_outer_terminates fuel [[tool]]
              (Z.of_nat (default 0 (py_index tool (Tools c)))) 0%Z c)
    as (c' & Hrun & Hc' & Hm).
  - apply Forall_singleton. intros t Ht. apply list_elem_of_singleton in Ht. subst. auto.
  - done.
  - csimpl. lia.
  - exists c'. split; [exact Hrun|]. split; [done|]. csimpl in Hm. lia.
Qed.

Lemma no_candidate_extends c c' components :
  cache_extends c c' → no_candidate universe c components →
  no_candidate universe c' components.
Proof.
  intros (Hkeep & _ & Hnew & _) Hnc tool Hin. specialize (Hnc tool Hin).
  destruct (CacheComponents c' !! tool) as [p'|] eqn:Hc'.
  - destruct (Hnew tool) as [[p Hp]|Hp]; [by eexists| |].
    + rewrite Hp in Hnc. rewrite (Hkeep _ _ Hp) in Hc'. by injection Hc' as <-.
    + destruct (CacheComponents c !! tool) as [p|] eqn:Hc.
      * rewrite (Hkeep _ _ Hc) in Hc'. by injection Hc' as <-.
      * rewrite Hc' in Hp. by injection Hp as ->.
  - destruct (CacheComponents c !! tool) as [p|] eqn:Hc; [|done].
    rewrite (Hkeep _ _ Hc) in Hc'. discriminate.
Qed.

(** A forward search through tools without candidates comes back empty
    within the size of the search space. *)
Lemma GetTool_loop_no_candidate components fuel :
  ∀ c idx visit offset,
    (∀ t, t ∈ Tools c → t ∈ universe) →
    no_candidate universe c components → (∀ x, x ∈ visit → x ∈ components) →
    (length (Tools c) - idx) + 3 * pending universe c + 3 ≤ fuel →
    ∃ c',
      GetTool_loop fuel true components c (Z.of_nat idx) visit offset
        = Some (None, offset, c')
      ∧ lookups c' = lookups c
      ∧ (∀ t, t ∈ Tools c → t ∈ Tools c')
      ∧ (∀ t, t ∈ Tools c' → t ∈ universe).
Proof.
  induction fuel as [|fuel IH]; intros c idx visit offset Hc Hnc Hvis Hfuel; [lia|].
  simpl.
  replace (Z.of_nat idx <? 0)%Z with false by (symmetry; apply Z.ltb_ge; lia).
  simpl.
  destruct (Z.of_nat (length (Tools c)) <=? Z.of_nat idx)%Z eqn:Hend.
  - exists c. split_and!; auto.
  - apply Z.leb_gt in Hend.
    assert (Hlt : idx < length (Tools c)) by lia.
    destruct (lookup_lt_is_Some_2 (Tools c) idx Hlt) as (tool & Htool).
    assert (Hin : tool ∈ Tools c) by (by eapply list_elem_of_lookup_2).
    rewrite Nat2Z.id, Htool. simpl.
    destruct (CacheComponents c !! tool) as [provided|] eqn:Hprov.
    + rewrite scan_matches_none.
      * replace (Z.of_nat idx + 1)%Z with (Z.of_nat (S idx)) by lia.
        apply IH; auto. lia.
      * intros y Hy. apply bool_decide_eq_false.
        specialize (Hnc tool (Hc tool Hin)). rewrite Hprov in Hnc.
        rewrite (Hnc y (Hvis y Hy)). by intros [? ?].
    + destruct (AddTool_terminates fuel c tool Hin Hc) as (c1 & Hadd & Hc1 & Hm); [lia|].
      rewrite Hadd.
      pose proof (AddTool_cache_extends _ _ _ _ Hadd) as Hext.
      assert (Hknown : is_Some (CacheComponents c1 !! tool)).
      { unfold AddTool in Hadd. by apply AddTool_outer_extends in Hadd as [_ [Hk _]]. }
      assert (Hp : pending universe c1 + (length (Detect tool).1 + 2)
                   ≤ pending universe c).
      { apply pending_examined; auto.
        intros t [p Hp]. destruct Hext as (Hkeep & _). rewrite (Hkeep _ _ Hp). by eexists. }
      destruct (IH c1 idx visit offset Hc1) as (c' & Hrun & Hl & Hold & Hnew).
      * by eapply no_candidate_extends.
      * done.
      * lia.
      * exists c'. split; [exact Hrun|]. destruct Hext as (_ & Htools & _ & Hlk & _).
        split_and!; auto. by rewrite Hl.
Qed.

End Universe.

Lemma set_component_unsatisfiable universe fuel s r components :
  Tool (heap s !!! r) = None → Component (heap s !!! r) = None →
  Components (Specification (heap s !!! r)) = Some components → components ≠ [] →
  (∀ x, x ∈ components → _base s !! x = None) →
  closed_universe universe (_cache s) →
  no_candidate universe (_cache s) components →
  search_space universe (_cache s) ≤ S fuel →
  ∃ c',
    _set_component fuel s r 0 = Some (Ok (set_cache s c', false))
    ∧ lookups c' = S (lookups (_cache s))
    ∧ (∀ t, t ∈ Tools (_cache s) → t ∈ Tools c')
    ∧ (∀ t, t ∈ Tools c' → t ∈ universe).
Proof.
  intros Ht Hc Hcs Hne Hbase [Htools Hclosed] Hnc Hfuel.
  destruct (py_item_ends components Hne) as (first & last & Hfirst & Hlast & Hsi).
  unfold _set_component. cbv zeta. rewrite Hcs, Ht, Hc.
  cbn [Z.ltb Z.compare truthy_str try_sources].
  unfold set_component_local. cbn [start_index truthy_str mbind Res_bind visit_from Z.leb Z.compare].
  rewrite drop_0.
  rewrite scan_matches_none.
  2:{ intros y Hy. apply bool_decide_eq_false. rewrite (Hbase y Hy). by intros [? ?]. }
  cbn [truthy_str]. rewrite Hfirst.
  unfold GetTool. cbn [Z.leb Z.compare].
  destruct (Tools (count_lookup (_cache s))) as [|t ts] eqn:Hts.
  - rewrite Hlast. cbn [try_sources]. eexists. split; [reflexivity|]. simpl in *.
    split_and!; auto.
  - rewrite Hsi. cbn [start_index truthy_str visit_from]. rewrite drop_0.
    pose proof (pending_le universe (_cache s)) as Hple.
    destruct (GetTool_loop_no_candidate universe Hclosed components fuel
                (count_lookup (_cache s)) 0 components 0%Z)
      as (c' & Hrun & Hl & Hold & Hnew);
      [exact Htools|exact Hnc|auto| |].
    + unfold search_space in Hfuel.
      assert (Hpc : pending universe (count_lookup (_cache s))
                    = pending universe (_cache s)) by done.
      rewrite Hpc. simpl. lia.
    + rewrite Hrun.
      cbn [fmap option_fmap option_map]. rewrite Hlast. cbn [try_sources].
      exists c'. split; [reflexivity|]. simpl in *. split_and!; auto.
Qed.

(** C8. For a specification whose candidate components are keys neither of
    the base environment nor of any tool that the search can meet (the
    tools of the cache and, with a tool, the tools of the toolchain that
    its detection yields), [AddAugment] returns [False] once its fuel
    reaches the size of the search space: it looks the cache up once,
    examines the tools that were not examined, goes through every tool and
    candidate, and never enters its retry loop. The committed list and the
    log of executed checks are unchanged, and every tool listed in the
    cache is still listed. *)
Theorem AddAugment_unsatisfiable_terminates fuel s spec components universe :
  Components spec = Some components → components ≠ [] →
  (∀ x, x ∈ components → _base s !! x = None) →
  closed_universe universe (_cache s) →
  no_candidate universe (_cache s) components →
  search_space universe (_cache s) ≤ fuel →
  ∃ s',
    AddAugment fuel s spec = Some (Ok (s', false))
    ∧ _augments s' = _augments s
    ∧ lookups (_cache s') = S (lookups (_cache s))
    ∧ (∀ t, t ∈ Tools (_cache s) → t ∈ Tools (_cache s'))
    ∧ (∀ t, t ∈ Tools (_cache s') → t ∈ universe)
    ∧ exec_log s' = exec_log s.
Proof.
  intros Hcs Hne Hbase Hu Hnc Hfuel. unfold AddAugment, _clone_augments. rewrite Hcs.
  set (h := heap s ++ ((λ r, heap s !!! r) <$> _augments s)).
  set (s1 := pre_configure (set_heap s (h ++ [new_augment spec]))).
  destruct (pre_configure_fields (set_heap s (h ++ [new_augment spec])))
    as (Hheap & Hcache & Hb & Haug & Hlog).
  fold s1 in Hheap, Hcache, Hb, Haug, Hlog. simpl in Hheap, Hcache, Hb, Haug, Hlog.
  assert (Hnew : heap s1 !!! length h = new_augment spec).
  { rewrite Hheap. by apply list_lookup_total_middle. }
  destruct (set_component_unsatisfiable universe fuel s1 (length h) components)
    as (c' & Hrun & Hl & Hold & Hin).
  - by rewrite Hnew.
  - by rewrite Hnew.
  - by rewrite Hnew.
  - done.
  - by rewrite Hb.
  - by rewrite Hcache.
  - by rewrite Hcache.
  - rewrite Hcache. lia.
  - rewrite Hrun. destruct fuel as [|fuel]; [unfold search_space in Hfuel; lia|]. simpl.
    eexists. split; [reflexivity|]. simpl. rewrite Hcache in Hl, Hold. done.
Qed.

End Resolver.


(** * The theorems at work on the concrete world, and counterexamples *)

Lemma check_result_classification_witness :
  ∃ s' failed,
    _apply_env Scenario.tool Scenario.check None Scenario.session ["gnu-ld"] false
      (Some [0; 1; 2; 4]) (Some [5]) = Ok (s', failed)
    ∧ failed = [1; 4; 5]
    ∧ ∃ new,
        exec_log s' = exec_log Scenario.session ++ new
        ∧ (∀ c, c ∈ failed ↔
                ∃ v, (c, Returned v) ∈ new
                     ∧ (py_eq_False v = true ∨ ∃ str, v = PyStr str ∧ str ≠ ""))
        ∧ (∀ c, (∀ o, (c, o) ∈ new →
                      o = Returned PyNone ∨ o = Returned (PyBool true)
                      ∨ o = Returned (PyStr "") ∨ ∃ id, o = Returned (PyObj id)) →
                c ∉ failed).
Proof.
  eexists _, _. split; [vm_compute; reflexivity|]. split; [reflexivity|].
  apply (check_result_classification Scenario.tool Scenario.check None
           Scenario.session ["gnu-ld"] false (Some [0; 1; 2; 4]) (Some [5])).
  vm_compute. reflexivity.
Defined.

Lemma checks_rerun_policy_witness :
  ∃ s' failed,
    _apply_env Scenario.tool Scenario.check None
      (Scenario.session_with [] [] [] [2]) [] false (Some [0]) (Some [2; 5])
      = Ok (s', failed)
    ∧ ∃ new,
        exec_log s' = [] ++ new
        ∧ (∀ c, c ∈ [0] → c ∈ new.*1)
        ∧ (∀ c, c ∈ new.*1 → c ∈ applied_checks s')
        ∧ (∀ c, (find_start false [] []).1 = false → c ∈ [2] → c ∉ [0] → c ∉ new.*1).
Proof.
  eexists _, _. split; [vm_compute; reflexivity|].
  eapply (checks_rerun_policy Scenario.tool Scenario.check None
           (Scenario.session_with [] [] [] [2]) [] false (Some [0]) (Some [2; 5])).
  vm_compute. reflexivity.
Defined.

(** C2, as stated, fails: a check that was executed as a required check and
    passed is executed again by the next pass that requires it. Two
    specifications share the check [0]; each [AddAugment] executes it. *)
Lemma required_check_runs_again :
  ∃ s1 s2,
    AddAugment Scenario.tool Scenario.check None Scenario.detect 5
      Scenario.session Scenario.spec_passes = Some (Ok (s1, true))
    ∧ exec_log s1 = [(0, Returned (PyBool true))]
    ∧ AddAugment Scenario.tool Scenario.check None Scenario.detect 5
        s1 Scenario.spec_passes_too = Some (Ok (s2, true))
    ∧ exec_log s2 = [(0, Returned (PyBool true)); (0, Returned (PyBool true))].
Proof.
  eexists _, _. split; [vm_compute; reflexivity|]. split; [reflexivity|].
  split; [vm_compute; reflexivity|]. reflexivity.
Qed.



Lemma validate_marks_own_checks_only_witness :
  ∃ s' invalid,
    _validate_augments Scenario.tool Scenario.check None
      Scenario.session_dependency [0; 1] = Ok (s', invalid)
    ∧ ∃ new,
        exec_log s' = [] ++ new
        ∧ (∀ r, r ∈ [0; 1] →
             (Valid (heap s' !!! r) = false ↔
                ∃ c v, c ∈ seq_items (Checks (Specification
                                         (heap Scenario.session_dependency !!! r)))
                       ∧ (c, Returned v) ∈ new ∧ check_failed v = true)
             ∧ (r ∈ invalid ↔ Valid (heap s' !!! r) = false))
        ∧ (∀ r, same_choice (heap s' !!! r) (heap Scenario.session_dependency !!! r))
        ∧ (∀ r, r ∉ [0; 1] → heap s' !!! r = heap Scenario.session_dependency !!! r).
Proof.
  eexists _, _. split; [vm_compute; reflexivity|].
  apply (validate_marks_own_checks_only Scenario.tool Scenario.check None
           Scenario.session_dependency [0; 1]).
  - intros r Hr. simpl.
    apply elem_of_cons in Hr as [->|Hr]; [lia|].
    apply elem_of_cons in Hr as [->|Hr]; [lia|]. by apply elem_of_nil in Hr.
  - vm_compute. reflexivity.
Defined.

(** C3, as stated, fails: A depends on B and the check of B fails, yet only
    B is marked invalid; A, whose own check passes, is marked valid. *)
Lemma dependent_stays_valid :
  ∃ s',
    Dependencies Scenario.spec_depends = Some [spec_id Scenario.spec_fails]
    ∧ _validate_augments Scenario.tool Scenario.check None
        Scenario.session_dependency [0; 1] = Ok (s', [0])
    ∧ exec_log s' = [(1, Returned (PyBool false)); (0, Returned (PyBool true))]
    ∧ Specification (heap s' !!! 0) = Scenario.spec_fails
    ∧ Valid (heap s' !!! 0) = false
    ∧ Specification (heap s' !!! 1) = Scenario.spec_depends
    ∧ Valid (heap s' !!! 1) = true.
Proof.
  eexists. split; [reflexivity|]. split; [vm_compute; reflexivity|].
  repeat split.
Qed.




Lemma Finalize_exact_tools_witness :
  ∃ s' env,
    Finalize Scenario.tool Scenario.check None None Scenario.session_linker
      = Ok (s', env)
    ∧ (∀ t, t ∈ applied_tools s' ↔
            t ∈ tools_of (heap Scenario.session_linker) (_augments Scenario.session_linker))
    ∧ env = _current s'
    ∧ exec_log s' = [(10, Returned (PyBool true))].
Proof.
  eexists _, _. split; [vm_compute; reflexivity|].
  destruct (Finalize_exact_tools Scenario.tool Scenario.check None None
              Scenario.session_linker _ _ ltac:(vm_compute; reflexivity))
    as (Htools & Henv & _).
  split; [exact Htools|]. split; [exact Henv|]. reflexivity.
Defined.

(** C5, as stated, fails in its second half: [Finalize] passes the checks as
    optional ones, so a check that is remembered from validation is not
    executed again when the exact application needs no reset. *)
Lemma Finalize_skips_known_checks :
  ∃ s1 s2 env,
    AddAugment Scenario.tool Scenario.check None Scenario.detect 5
      Scenario.session Scenario.spec_passes = Some (Ok (s1, true))
    ∧ checks_of (heap s1) (_augments s1) = [0]
    ∧ exec_log s1 = [(0, Returned (PyBool true))]
    ∧ Finalize Scenario.tool Scenario.check None None s1 = Ok (s2, env)
    ∧ exec_log s2 = exec_log s1.
Proof.
  eexists _, _, _. split; [vm_compute; reflexivity|].
  split; [reflexivity|]. split; [reflexivity|].
  split; [vm_compute; reflexivity|]. reflexivity.
Qed.

Lemma local_component_first_witness :
  ∃ s',
    _set_component Scenario.detect 0
      (Scenario.session_with [new_augment Scenario.spec_INCLUDE] [] [] []) 0 0
      = Some (Ok (s', true))
    ∧ heap s' !!! 0 = {| Specification := Scenario.spec_INCLUDE; Tool := None;
                         Component := Some "INCLUDE"; Valid := false |}
    ∧ _cache s' = Scenario.cache.
Proof.
  destruct (local_component_first Scenario.detect 0
              (Scenario.session_with [new_augment Scenario.spec_INCLUDE] [] [] [])
              0 ["CPATH"] "INCLUDE" [])
    as (s' & Hrun & Hheap & Hcache & _).
  - simpl. lia.
  - reflexivity.
  - reflexivity.
  - reflexivity.
  - intros y Hy. apply list_elem_of_singleton in Hy as ->. reflexivity.
  - by eexists.
  - reflexivity.
  - exists s'. split_and!; [exact Hrun|exact Hheap|exact Hcache].
Defined.

Lemma AddAugment_unsatisfiable_terminates_witness :
  ∃ s',
    AddAugment Scenario.tool Scenario.check None Scenario.detect_suite 48
      Scenario.session_suite Scenario.spec_missing = Some (Ok (s', false))
    ∧ _augments s' = []
    ∧ lookups (_cache s') = 1
    ∧ (∀ t, t ∈ ["suite"] → t ∈ Tools (_cache s'))
    ∧ (∀ t, t ∈ Tools (_cache s') → t ∈ ["suite"; "a"; "b"; "c"])
    ∧ exec_log s' = [].
Proof.
  assert (Hu : ∀ (P : string → Prop), P "suite" → P "a" → P "b" → P "c" →
               ∀ t, t ∈ ["suite"; "a"; "b"; "c"] → P t).
  { intros P H1 H2 H3 H4 t Ht.
    apply elem_of_cons in Ht as [->|Ht]; [done|].
    apply elem_of_cons in Ht as [->|Ht]; [done|].
    apply elem_of_cons in Ht as [->|Ht]; [done|].
    by apply list_elem_of_singleton in Ht as ->. }
  apply (AddAugment_unsatisfiable_terminates Scenario.tool Scenario.check None
           Scenario.detect_suite 48 Scenario.session_suite Scenario.spec_missing
           ["FC"; "F77"] ["suite"; "a"; "b"; "c"]).
  - reflexivity.
  - done.
  - intros x Hx. simpl.
    apply elem_of_cons in Hx as [->|Hx]; [reflexivity|].
    apply list_elem_of_singleton in Hx as ->. reflexivity.
  - split.
    + intros t Ht. simpl in Ht. apply list_elem_of_singleton in Ht as ->. by left.
    + intros tool t Htool. revert t. revert tool Htool.
      apply (Hu (fun tool => ∀ t, t ∈ (Scenario.detect_suite tool).1 →
                                  t ∈ ["suite"; "a"; "b"; "c"]));
        intros t Ht; vm_compute in Ht.
      * apply elem_of_cons. by right.
      * apply list_elem_of_singleton in Ht as ->. apply elem_of_cons. right. by left.
      * apply list_elem_of_singleton in Ht as ->. do 2 (apply elem_of_cons; right). by left.
      * apply list_elem_of_singleton in Ht as ->. do 3 (apply elem_of_cons; right). by left.
  - unfold no_candidate. simpl. intros t Ht. rewrite lookup_empty.
    assert (Hx : ∀ P : string → Prop, P "FC" → P "F77" → ∀ x, x ∈ ["FC"; "F77"] → P x).
    { intros P H1 H2 x Hx. apply elem_of_cons in Hx as [->|Hx]; [done|].
      by apply list_elem_of_singleton in Hx as ->. }
    revert t Ht.
    apply (Hu (fun t => ∀ x, x ∈ ["FC"; "F77"] →
                             (Scenario.detect_suite t).2 !! x = None));
      intros x Hx'; revert x Hx';
      match goal with
      | |- ∀ x, _ → (Scenario.detect_suite ?t).2 !! x = None =>
        apply (Hx (fun x => (Scenario.detect_suite t).2 !! x = None))
      end; vm_compute; reflexivity.
  - vm_compute. lia.
Defined.


Lemma AddAugment_contiguous_witness :
  ∃ s',
    contiguous_tools (heap Scenario.session_two) (_augments Scenario.session_two)
    ∧ AddAugment Scenario.tool Scenario.check None Scenario.detect 8
        Scenario.session_two Scenario.spec_CXX = Some (Ok (s', true))
    ∧ tool_keys (heap s') (_augments s') = [Some "llvm-ld"; Some "gcc"; Some "gcc"]
    ∧ contiguous_tools (heap s') (_augments s').
Proof.
  assert (Hc : contiguous_tools (heap Scenario.session_two)
                 (_augments Scenario.session_two)).
  { intros i j k tool Hij Hjk Hi Hk.
    destruct i as [|[|i]], k as [|[|k]]; try discriminate;
      simpl in Hi, Hk; inversion Hi; subst tool; try discriminate.
    - by replace j with 0 by lia.
    - by replace j with 1 by lia. }
  eexists. split; [exact Hc|]. split; [vm_compute; reflexivity|].
  split; [reflexivity|].
  apply (AddAugment_contiguous Scenario.tool Scenario.check None Scenario.detect 8
           Scenario.session_two Scenario.spec_CXX _ Hc).
  vm_compute. reflexivity.
Defined.

Lemma AddAugment_failure_keeps_augments_witness :
  ∃ s',
    AddAugment Scenario.tool Scenario.check None Scenario.detect 20
      Scenario.session_linker Scenario.spec_bad_linker = Some (Ok (s', false))
    ∧ exec_log s' = [(1, Returned (PyBool false))]
    ∧ _augments s' = [0]
    ∧ take 1 (heap s') = heap Scenario.session_linker
    ∧ (∀ r, r < 1 → heap s' !!! r = heap Scenario.session_linker !!! r)
    ∧ _base s' = Scenario.base.
Proof.
  eexists. split; [vm_compute; reflexivity|]. split; [reflexivity|].
  apply (AddAugment_failure_keeps_augments Scenario.tool Scenario.check None
           Scenario.detect 20 Scenario.session_linker Scenario.spec_bad_linker).
  vm_compute. reflexivity.
Defined.

(** * The further properties at work on the concrete world *)

Lemma order_augments_permutation_witness :
  ∃ augments',
    _order_augments Scenario.cache_known (heap Scenario.session_two) [1; 0]
    = Ok (None, augments')
    ∧ augments' ≡ₚ [1; 0].
Proof.
  eexists. split; [vm_compute; reflexivity|].
  apply (order_augments_permutation Scenario.cache_known (heap Scenario.session_two)
           [1; 0] None).
  vm_compute. reflexivity.
Defined.

Lemma order_augments_no_tools_witness :
  _order_augments Scenario.cache_known
    [new_augment Scenario.spec_passes; new_augment Scenario.spec_fails] [1; 0]
  = Ok (None, [1; 0]).
Proof.
  apply (order_augments_no_tools Scenario.cache_known
           [new_augment Scenario.spec_passes; new_augment Scenario.spec_fails] [1; 0]).
  intros r Hr.
  apply elem_of_cons in Hr as [->|Hr]; [reflexivity|].
  apply elem_of_cons in Hr as [->|Hr]; [reflexivity|]. by apply elem_of_nil in Hr.
Defined.

Lemma validate_all_valid_is_noop_witness :
  _validate_augments Scenario.tool Scenario.check None Scenario.session_two [0; 1]
  = Ok (Scenario.session_two, []).
Proof.
  apply (validate_all_valid_is_noop Scenario.tool Scenario.check None
           Scenario.session_two [0; 1]).
  intros r Hr.
  apply elem_of_cons in Hr as [->|Hr]; [reflexivity|].
  apply elem_of_cons in Hr as [->|Hr]; [reflexivity|]. by apply elem_of_nil in Hr.
Defined.

Lemma apply_env_applies_requested_witness :
  ∃ s' failed,
    _apply_env Scenario.tool Scenario.check None
      (Scenario.session_with [] [] ["gnu-ld"] []) ["gnu-ld"; "gcc"] false
      (Some [0]) None = Ok (s', failed)
    ∧ (∀ t, t ∈ ["gnu-ld"; "gcc"] → t ∈ applied_tools s')
    ∧ ((find_start false ["gnu-ld"] ["gnu-ld"; "gcc"]).1 = false →
       ["gnu-ld"] `prefix_of` applied_tools s').
Proof.
  eexists _, _. split; [vm_compute; reflexivity|].
  eapply (apply_env_applies_requested Scenario.tool Scenario.check None
           (Scenario.session_with [] [] ["gnu-ld"] []) ["gnu-ld"; "gcc"] false
           (Some [0]) None).
  vm_compute. reflexivity.
Defined.

Lemma AddTool_extends_witness :
  ∃ c',
    AddTool Scenario.detect 5 Scenario.cache "gcc" = Some c'
    ∧ cache_extends Scenario.detect Scenario.cache c'
    ∧ is_Some (CacheComponents c' !! "gcc") ∧ "gcc" ∈ Tools c'.
Proof.
  eexists. split; [vm_compute; reflexivity|].
  apply (AddTool_extends Scenario.detect 5 Scenario.cache "gcc").
  vm_compute. reflexivity.
Defined.

Lemma set_component_sound_witness :
  ∃ s',
    _set_component Scenario.detect 5
      (Scenario.session_with [new_augment Scenario.spec_LD] [] [] []) 0 0
    = Some (Ok (s', true))
    ∧ sound_choice (_base s') (_cache s') (heap s' !!! 0)
    ∧ Specification (heap s' !!! 0) = Scenario.spec_LD
    ∧ Valid (heap s' !!! 0) = false.
Proof.
  eexists. split; [vm_compute; reflexivity|].
  refine (proj1 (set_component_sound Scenario.detect 5
                   (Scenario.session_with [new_augment Scenario.spec_LD] [] [] [])
                   0 0 _ true _ _) eq_refl).
  - simpl. lia.
  - vm_compute. reflexivity.
Defined.

Lemma GetTool_first_match_witness :
  GetTool Scenario.detect 3 Scenario.cache_known ["CPP"; "CC"] None None 0
  = Some (Ok (Some ("CC", "gcc"), 0%Z, count_lookup Scenario.cache_known)).
Proof.
  apply (GetTool_first_match Scenario.detect 3 Scenario.cache_known ["CPP"; "CC"]
           "CC" ["CPP"] [] "gcc" (Scenario.detect "gcc").2 ["gnu-ld"; "llvm-ld"] []).
  - reflexivity.
  - reflexivity.
  - intros u Hu. exists {[ "LD" := ["no_overlap"] ]}.
    apply elem_of_cons in Hu as [->|Hu];
      [|apply elem_of_cons in Hu as [->|Hu]; [|by apply elem_of_nil in Hu]].
    + split; [vm_compute; reflexivity|]. intros y Hy.
      apply elem_of_cons in Hy as [->|Hy]; [vm_compute; reflexivity|].
      apply elem_of_cons in Hy as [->|Hy]; [vm_compute; reflexivity|].
      by apply elem_of_nil in Hy.
    + split; [vm_compute; reflexivity|]. intros y Hy.
      apply elem_of_cons in Hy as [->|Hy]; [vm_compute; reflexivity|].
      apply elem_of_cons in Hy as [->|Hy]; [vm_compute; reflexivity|].
      by apply elem_of_nil in Hy.
  - vm_compute. reflexivity.
  - intros y Hy. apply elem_of_cons in Hy as [->|Hy]; [vm_compute; reflexivity|].
    by apply elem_of_nil in Hy.
  - eexists. vm_compute. reflexivity.
  - simpl. lia.
Defined.

Lemma AddAugment_commits_witness :
  ∃ s',
    AddAugment Scenario.tool Scenario.check None Scenario.detect 5
      Scenario.session_two Scenario.spec_passes = Some (Ok (s', true))
    ∧ specs_of (heap s') (_augments s')
      ≡ₚ [Scenario.spec_LD; Scenario.spec_CC] ++ [Scenario.spec_passes]
    ∧ length (_augments s') = 3
    ∧ ∀ r, r ∈ _augments s' →
           2 ≤ r ∧ r < length (heap s') ∧ Valid (heap s' !!! r) = true.
Proof.
  eexists. split; [vm_compute; reflexivity|].
  apply (AddAugment_commits Scenario.tool Scenario.check None Scenario.detect 5
           Scenario.session_two Scenario.spec_passes).
  vm_compute. reflexivity.
Defined.

Lemma CheckLink_isa_exclusive_witness :
  CheckLink ∅ (PyStr "ELF") (PyStr "x86_64") (SrcName (PyStr "C")) true
    (Some LinkSamples.elf_x86_64) = Ok 1%Z
  ∧ "x86_64" = "x86_64".
Proof.
  assert (H : CheckLink ∅ (PyStr "ELF") (PyStr "x86_64") (SrcName (PyStr "C")) true
                (Some LinkSamples.elf_x86_64) = Ok 1%Z) by (vm_compute; reflexivity).
  split; [exact H|].
  apply (CheckLink_isa_exclusive ∅ (PyStr "ELF") "x86_64" "x86_64"
           (SrcName (PyStr "C")) true (Some LinkSamples.elf_x86_64));
    [discriminate|discriminate|discriminate|discriminate|exact H|exact H].
Defined.

Lemma CheckLink_short_file_witness :
  CheckLink ∅ (PyStr "") (PyStr "x86_64") SrcCallable true
    (Some (take 22 LinkSamples.elf_x86_64)) = Ok 0%Z.
Proof.
  apply (CheckLink_short_file ∅ "" "x86_64" SrcCallable true
           (take 22 LinkSamples.elf_x86_64)).
  - apply elem_of_cons. right. by left.
  - by left.
  - reflexivity.
  - simpl. lia.
Defined.

Lemma CheckLink_pass_shape_witness :
  CheckLink ∅ (PyStr "PE") (PyStr "x86") (SrcName (PyStr "C")) true
    (Some LinkSamples.pe_x86) = Ok 1%Z
  ∧ ∃ file,
      Some LinkSamples.pe_x86 = Some file
      ∧ ((take 4 file = [Byte.x7f; Byte.x45; Byte.x4c; Byte.x46]
          ∧ ("PE" = "" ∨ "PE" = "ELF"))
         ∨ (take 2 file = [Byte.x4d; Byte.x5a]
            ∧ ("PE" = "" ∨ "PE" = "PE") ∧ ("x86" = "x86" ∨ "x86" = "x86_64"))).
Proof.
  assert (H : CheckLink ∅ (PyStr "PE") (PyStr "x86") (SrcName (PyStr "C")) true
                (Some LinkSamples.pe_x86) = Ok 1%Z) by (vm_compute; reflexivity).
  split; [exact H|].
  apply (CheckLink_pass_shape ∅ "PE" "x86" (SrcName (PyStr "C")) true
           (Some LinkSamples.pe_x86));
    [discriminate|discriminate|discriminate|exact H].
Defined.

Lemma CheckLink_argument_errors_witness :
  CheckLink ∅ (PyStr "<target>") (PyStr "x86") (SrcName (PyStr "C")) true
    (Some LinkSamples.pe_x86) = Exc ValueError
  ∧ ∀ linked' link_file',
      CheckLink ∅ (PyStr "<target>") (PyStr "x86") (SrcName (PyStr "C")) linked'
        link_file' = Exc ValueError.
Proof.
  assert (H : CheckLink ∅ (PyStr "<target>") (PyStr "x86") (SrcName (PyStr "C")) true
                (Some LinkSamples.pe_x86) = Exc ValueError) by (vm_compute; reflexivity).
  split; [exact H|].
  apply (CheckLink_argument_errors ∅ (PyStr "<target>") (PyStr "x86")
           (SrcName (PyStr "C")) true (Some LinkSamples.pe_x86) ValueError H).
Defined.

Lemma Require_runs_checks_witness :
  (∃ msg,
     Require Scenario.tool Scenario.check None Scenario.detect 0
       {| base_listing := None; base_env := Scenario.session_two |} 20
       (ArgMany [0; 1]) (Some "threads") = Some (Exc (CheckError msg)))
  ∨ ∃ b' reply new,
      Require Scenario.tool Scenario.check None Scenario.detect 0
        {| base_listing := None; base_env := Scenario.session_two |} 20
        (ArgMany [0; 1]) (Some "threads") = Some (Ok (b', reply))
      ∧ exec_log (base_env b') = exec_log Scenario.session_two ++ new
      ∧ new.*1 = [0; 1]
      ∧ applied_tools (base_env b') = applied_tools Scenario.session_two
      ∧ _cache (base_env b') = _cache Scenario.session_two
      ∧ base_listing b' = None
      ∧ match reply with
        | Returns (Some spec) =>
          spec = ConfExSpecification_init 20 (Some "threads") ArgNone (ArgMany [0; 1])
                   ArgNone
          ∧ (∀ e, e ∈ new → failing_entry e = false)
          ∧ length (_augments (base_env b')) = S (length (_augments Scenario.session_two))
        | Returns None => False
        | Raises err =>
          err = ConfExError_init "RequirementNotMet" (Some "threads")
          ∧ (∃ e, e ∈ new ∧ failing_entry e = true)
          ∧ _augments (base_env b') = _augments Scenario.session_two
        end.
Proof.
  apply (Require_runs_checks Scenario.tool Scenario.check None Scenario.detect 0
           {| base_listing := None; base_env := Scenario.session_two |} 20
           (ArgMany [0; 1]) (Some "threads") [0; 1]).
  - reflexivity.
  - reflexivity.
  - intros r Hr. simpl in Hr.
    apply elem_of_cons in Hr as [->|Hr]; [reflexivity|].
    apply elem_of_cons in Hr as [->|Hr]; [reflexivity|]. by apply elem_of_nil in Hr.
Defined.

Lemma AddTool_idempotent_witness :
  ∃ c',
    AddTool Scenario.detect 5 Scenario.cache "gcc" = Some c'
    ∧ AddTool Scenario.detect 5 c' "gcc" = Some c'.
Proof.
  eexists. split; [vm_compute; reflexivity|].
  apply (AddTool_idempotent Scenario.detect 5 Scenario.cache "gcc").
  vm_compute. reflexivity.
Defined.

Lemma Finalize_settled_witness :
  Finalize Scenario.tool Scenario.check None (Some [("CONFIGURED", PyBool true)])
    Scenario.session_two
  = Ok (set_env Scenario.session_two
          (write_vars (Some [("CONFIGURED", PyBool true)])
             (_current Scenario.session_two))
          (applied_tools Scenario.session_two) (applied_checks Scenario.session_two)
          (pre_applied Scenario.session_two) (exec_log Scenario.session_two),
        write_vars (Some [("CONFIGURED", PyBool true)]) (_current Scenario.session_two)).
Proof.
  apply (Finalize_settled Scenario.tool Scenario.check None
           (Some [("CONFIGURED", PyBool true)]) Scenario.session_two).
  - reflexivity.
  - simpl. apply NoDup_cons. split; [|apply NoDup_singleton].
    intros H. apply list_elem_of_singleton in H. discriminate.
  - intros c Hc. vm_compute in Hc. simpl.
    apply list_elem_of_singleton in Hc. subst. by left.
Defined.
